(** * frontend_synergy: the data-handling core of the forecast client

    A shallow embedding of the pure helpers of the repository
    ([lib/utils.ts], [lib/constants.ts], [lib/hooks.ts], the manual
    exogenous grid and the error histogram) together with the properties
    that the specification states about them.

    Numbers.  A JavaScript [number] is modelled by [num]: a finite value,
    given by the rational that it denotes, or one of the three non-finite
    values.  The result of an arithmetic operation and of [Number(s)] is
    rounded to the nearest IEEE-754 double ([round64]: 53 bits, ties to
    even, gradual underflow, overflow to the infinities); comparisons,
    negation, absolute values, [Math.floor] and [Math.round] are exact.
    The sign of zero is not kept: [-0] is identified with [0].  A number
    that is handed in is any rational; what holds of all of them holds of
    the doubles.

    Strings.  A JavaScript string is a sequence of code units; here a code
    unit is an [ascii] character (code units below 256). *)

From Stdlib Require Import ZArith QArith Qround Qabs Qminmax Qreduction.
From Stdlib Require Import Ascii String List Bool Lia Lqa Permutation.
From Stdlib Require Import HexadecimalString DecimalString.
From Stdlib Require HexadecimalN DecimalN.
From Stdlib Require Import Qpower.
From stdpp Require Import gmap strings list sorting.
Import ListNotations.

#[local] Set Warnings "-register-all".

Local Open Scope Z_scope.

(** ** JavaScript values used by the helpers *)

Module JS.

(** [number]. *)
Inductive num : Type :=
  | Fin (q : Q)
  | NaN
  | PInf
  | NInf.

Definition zero : num := Fin 0.

(** [Number.isFinite]. *)
Definition isFinite (n : num) : bool :=
  match n with Fin _ => true | _ => false end.

(** A value that is [undefined], [null] or present. *)
Inductive opt (A : Type) : Type :=
  | Undefined
  | Null
  | Val (a : A).
Arguments Undefined {A}.
Arguments Null {A}.
Arguments Val {A} a.

(** [x ?? d]. *)
Definition nullish {A} (x : opt A) (d : A) : A :=
  match x with Val a => a | _ => d end.

(** *** Binary64: the double nearest to a real number *)

Local Open Scope Q_scope.

(** [2 ^ e]. *)
Definition exp2 (e : Z) : Q := Qpower 2 e.

(** The binary exponent of a positive rational [q]: the [e] with
    [2 ^ e <= q < 2 ^ (e + 1)]. *)
Definition ilog2 (q : Q) : Z :=
  let e := (Z.log2 (Qnum q) - Z.log2 (Zpos (Qden q)))%Z in
  if Qle_bool (exp2 e) q then e else (e - 1)%Z.

(** The nearest integer, a tie going to the even one. *)
Definition nearest_even (q : Q) : Z :=
  let f := Qfloor q in
  match Qcompare (q - inject_Z f) (1 # 2) with
  | Lt => f
  | Gt => (f + 1)%Z
  | Eq => if Z.even f then f else (f + 1)%Z
  end.

(** The exponent of the last bit of a double near [q > 0]: 52 below the
    binary exponent, but not below that of the subnormal numbers. *)
Definition quantum (q : Q) : Z := Z.max (ilog2 q - 52) (-1074).

(** The multiple of the quantum that is nearest to [q > 0]. *)
Definition nearest (q : Q) : Q :=
  inject_Z (nearest_even (q / exp2 (quantum q))) * exp2 (quantum q).

Definition round_pos (q : Q) : num :=
  let r := nearest q in
  if Qle_bool (exp2 1024) r then PInf else Fin (Qred r).

(** [-n]. *)
Definition negate (n : num) : num :=
  match n with
  | Fin q => Fin (- q)
  | NaN => NaN
  | PInf => NInf
  | NInf => PInf
  end.

(** The double that a real number is rounded to. *)
Definition round64 (q : Q) : num :=
  match Qcompare q 0 with
  | Eq => Fin 0
  | Gt => round_pos q
  | Lt => negate (round_pos (- q))
  end.

Local Close Scope Q_scope.

(** *** [Number(s)] on a string: the StringToNumber grammar *)

Definition code (c : ascii) : N := N_of_ascii c.

(** White space and line terminators below code unit 256. *)
Definition is_ws (c : ascii) : bool :=
  let n := code c in
  ((9 <=? n) && (n <=? 13) || (n =? 32) || (n =? 160))%N.

Fixpoint trim_start (s : list ascii) : list ascii :=
  match s with
  | c :: r => if is_ws c then trim_start r else s
  | [] => []
  end.

Definition trim (s : list ascii) : list ascii :=
  rev (trim_start (rev (trim_start s))).

(** The value of a digit in a radix up to 16. *)
Definition digit_of (radix : N) (c : ascii) : option N :=
  let n := code c in
  let d :=
    if ((48 <=? n) && (n <=? 57))%N then Some (n - 48)%N
    else if ((97 <=? n) && (n <=? 102))%N then Some (n - 87)%N
    else if ((65 <=? n) && (n <=? 70))%N then Some (n - 55)%N
    else None in
  match d with
  | Some v => if (v <? radix)%N then Some v else None
  | None => None
  end.

(** Longest prefix of digits, read as a numeral, with its length and the
    remaining text. *)
Fixpoint span_digits (radix : N) (acc : N) (len : nat) (s : list ascii)
  : N * nat * list ascii :=
  match s with
  | c :: r =>
      match digit_of radix c with
      | Some d => span_digits radix (acc * radix + d)%N (S len) r
      | None => (acc, len, s)
      end
  | [] => (acc, len, [])
  end.

(** [m * 10 ^ e], the mathematical value of a literal, as a reduced
    rational. *)
Definition scale10 (m : Z) (e : Z) : Q :=
  if (0 <=? e)%Z then inject_Z (m * 10 ^ e)
  else Qred (Qmake m (Z.to_pos (10 ^ (- e)))).

(** The exponent part: [e] or [E], an optional sign and at least one
    digit, up to the end of the text. *)
Definition exponent_part (s : list ascii) : option Z :=
  match s with
  | [] => Some 0
  | c :: r =>
      if ((code c =? 101) || (code c =? 69))%N then
        let '(neg, r') :=
          match r with
          | d :: r2 =>
              if (code d =? 45)%N then (true, r2)
              else if (code d =? 43)%N then (false, r2)
              else (false, r)
          | [] => (false, r)
          end in
        match span_digits 10 0 0 r' with
        | (_, O, _) => None
        | (v, _, []) => Some (if neg then - Z.of_N v else Z.of_N v)
        | _ => None
        end
      else None
  end.

(** An unsigned decimal literal: digits, an optional fraction, an
    optional exponent. *)
Definition unsigned_decimal (s : list ascii) : option Q :=
  let '(ip, il, r1) := span_digits 10 0 0 s in
  let '(m, fl, r2) :=
    match r1 with
    | c :: r =>
        if (code c =? 46)%N then
          let '(m', fl', r') := span_digits 10 ip 0 r in (m', fl', r')
        else (ip, O, r1)
    | [] => (ip, O, r1)
    end in
  match (il + fl)%nat with
  | O => None
  | _ =>
      match exponent_part r2 with
      | Some e => Some (scale10 (Z.of_N m) (e - Z.of_nat fl))
      | None => None
      end
  end.

Definition infinity_text : list ascii := list_ascii_of_string "Infinity".

Definition signed_decimal (s : list ascii) : num :=
  let '(neg, body) :=
    match s with
    | c :: r =>
        if (code c =? 45)%N then (true, r)
        else if (code c =? 43)%N then (false, r)
        else (false, s)
    | [] => (false, s)
    end in
  if decide (body = infinity_text) then (if neg then NInf else PInf)
  else
    match unsigned_decimal body with
    | Some q => round64 (if neg then - q else q)
    | None => NaN
    end.

(** [0x], [0o] and [0b] literals carry no sign. *)
Definition radix_literal (s : list ascii) : option num :=
  match s with
  | z :: x :: r =>
      if (code z =? 48)%N then
        let radix :=
          if ((code x =? 120) || (code x =? 88))%N then Some 16%N
          else if ((code x =? 111) || (code x =? 79))%N then Some 8%N
          else if ((code x =? 98) || (code x =? 66))%N then Some 2%N
          else None in
        match radix with
        | Some b =>
            match span_digits b 0 0 r with
            | (_, O, _) => Some NaN
            | (v, _, []) => Some (round64 (inject_Z (Z.of_N v)))
            | _ => Some NaN
            end
        | None => None
        end
      else None
  | _ => None
  end.

(** [Number(s)] for a string [s]: the mathematical value of the
    literal, rounded to the nearest double whatever the number of its
    digits, as V8 does. *)
Definition Number (s : string) : num :=
  match trim (list_ascii_of_string s) with
  | [] => Fin 0
  | t =>
      match radix_literal t with
      | Some n => n
      | None => signed_decimal t
      end
  end.

End JS.

Import JS.

(** ** lib/constants.ts *)

Module Constants.

Inductive ExogStrategy : Type := zeros | smart.

Record Defaults : Type := {
  d_horizon : num;
  d_frequency : string;
  d_alpha : num;
  d_exogStrategy : ExogStrategy;
  d_clipNonNegative : bool;
  d_floor : num
}.

Definition DEFAULTS : Defaults := {|
  d_horizon := Fin 14;
  d_frequency := "D";
  d_alpha := Fin (5 # 100);
  d_exogStrategy := smart;
  d_clipNonNegative := true;
  d_floor := Fin 0
|}.

End Constants.

(** ** lib/utils.ts: numeric coercion *)

Module Utils.

(** [NumLike]: a number, a string, [null] or [undefined]. *)
Inductive NumLike : Type :=
  | OfNumber (n : num)
  | OfString (s : string)
  | OfNull
  | OfUndefined.

(** [toNumber]: [None] stands for [undefined]. *)
Definition toNumber (v : NumLike) : option num :=
  match v with
  | OfNull | OfUndefined => None
  | OfNumber n => if isFinite n then Some n else None
  | OfString s => let n := Number s in if isFinite n then Some n else None
  end.

Definition toNumberStrict (v : NumLike) (fallback : num) : num :=
  match toNumber v with
  | Some n => n
  | None => fallback
  end.

(** The call [toNumberStrict(v)] with the default [fallback = 0]. *)
Definition toNumberStrict0 (v : NumLike) : num := toNumberStrict v zero.

End Utils.

(** ** lib/hooks.ts: request defaults *)

Module Hooks.
Import Constants.

Record PredictFlags : Type := {
  use_auto_exog : opt bool;
  exog_strategy : opt ExogStrategy;
  clip_non_negative : opt bool;
  floor : opt num
}.

(** The two manual payloads: a column map, or columns with rows. *)
Inductive Exog : Type :=
  | ExogMap (m : gmap string (list num))
  | ExogMatrix (columns : list string) (rows : list (list (opt num))).

(** A predict body as [withPredictDefaults] reads it: every field may be
    absent. *)
Record PredictInput : Type := {
  horizon : opt num;
  frequency : opt string;
  alpha : opt num;
  flags : opt PredictFlags;
  exog : opt Exog
}.

(** [input.flags?.f]. *)
Definition flag {A} (input : PredictInput) (f : PredictFlags -> opt A) : opt A :=
  match flags input with
  | Val fl => f fl
  | _ => Undefined
  end.

Definition hasExog (input : PredictInput) : bool :=
  match exog input with Val _ => true | _ => false end.

Definition withPredictDefaults (input : PredictInput) : PredictInput :=
  if negb (hasExog input) then
    let alpha' := match alpha input with Val a => a | _ => d_alpha DEFAULTS end in
    let frequency' := nullish (frequency input) (d_frequency DEFAULTS) in
    let horizon' := nullish (horizon input) (d_horizon DEFAULTS) in
    {| horizon := Val horizon';
       frequency := Val frequency';
       alpha := Val alpha';
       flags := Val {|
         use_auto_exog := Val true;
         exog_strategy :=
           Val (nullish (flag input exog_strategy) (d_exogStrategy DEFAULTS));
         clip_non_negative :=
           Val (nullish (flag input clip_non_negative) (d_clipNonNegative DEFAULTS));
         floor := Val (nullish (flag input floor) (d_floor DEFAULTS))
       |};
       exog := Undefined |}
  else input.

End Hooks.

(** ** The manual exogenous grid ([ManualExogGrid]): coercion and alignment *)

Module ManualExogGrid.
Import Utils.

(** [String(v)] without its commas and spaces. *)
Definition strip_separators (s : string) : string :=
  string_of_list_ascii
    (List.filter (fun c => negb ((code c =? 44) || (code c =? 32))%N)
       (list_ascii_of_string s)).

Definition toNumberOrZero (v : NumLike) : num :=
  match v with
  | OfNull | OfUndefined => zero
  | OfString EmptyString => zero
  | OfNumber n => if isFinite n then n else zero
  | OfString s =>
      let n := Number (strip_separators s) in
      if isFinite n then n else zero
  end.

Record Matrix : Type := {
  columns : list string;
  rows : list (list num)
}.

(** [col[r]]: [undefined] past the end of the array. *)
Definition at_index (col : list num) (r : nat) : NumLike :=
  match col !! r with
  | Some n => OfNumber n
  | None => OfUndefined
  end.

(** The inner loop: [rows[r][c] = toNumberOrZero(col[r])] for [r] below
    [horizon]. *)
Definition fill_column (col : list num) (c : nat) (horizon : nat)
    (rows : list (list num)) : list (list num) :=
  foldl (fun rows r => alter (fun row => <[c := toNumberOrZero (at_index col r)]> row) r rows)
    rows (seq 0 horizon).

Definition exogMapToMatrix (map : gmap string (list num))
    (columns : list string) (horizon : nat) : Matrix :=
  let rows0 := replicate horizon (replicate (length columns) zero) in
  let rows :=
    foldl (fun rows c =>
             match columns !! c with
             | Some name => fill_column (default [] (map !! name)) c horizon rows
             | None => rows
             end)
      rows0 (seq 0 (length columns)) in
  {| columns := columns; rows := rows |}.

End ManualExogGrid.

(** ** Comparison and arithmetic of numbers *)

Module NumOps.
Local Open Scope Q_scope.

(** [a < b]. *)
Definition lt (a b : num) : bool :=
  match a, b with
  | NaN, _ | _, NaN => false
  | Fin p, Fin q => negb (Qle_bool q p)
  | NInf, NInf => false
  | NInf, _ => true
  | Fin _, PInf => true
  | _, _ => false
  end.

(** [a <= b]. *)
Definition le (a b : num) : bool :=
  match a, b with
  | NaN, _ | _, NaN => false
  | Fin p, Fin q => Qle_bool p q
  | NInf, _ => true
  | _, PInf => true
  | _, _ => false
  end.

(** [a - b]. *)
Definition sub (a b : num) : num :=
  match a, b with
  | NaN, _ | _, NaN => NaN
  | Fin p, Fin q => round64 (p - q)
  | PInf, PInf | NInf, NInf => NaN
  | PInf, _ | _, NInf => PInf
  | NInf, _ | _, PInf => NInf
  end.

(** [a + b]. *)
Definition add (a b : num) : num :=
  match a, b with
  | NaN, _ | _, NaN => NaN
  | Fin p, Fin q => round64 (p + q)
  | PInf, NInf | NInf, PInf => NaN
  | PInf, _ | _, PInf => PInf
  | NInf, _ | _, NInf => NInf
  end.

(** [a * b]. *)
Definition mul (a b : num) : num :=
  match a, b with
  | NaN, _ | _, NaN => NaN
  | Fin p, Fin q => round64 (p * q)
  | Fin p, PInf | PInf, Fin p =>
      match Qcompare p 0 with Eq => NaN | Gt => PInf | Lt => NInf end
  | Fin p, NInf | NInf, Fin p =>
      match Qcompare p 0 with Eq => NaN | Gt => NInf | Lt => PInf end
  | PInf, PInf | NInf, NInf => PInf
  | PInf, NInf | NInf, PInf => NInf
  end.

(** [a / b].  The zero of the model has no sign; a divisor [0] is taken
    for [+0]. *)
Definition div (a b : num) : num :=
  match a, b with
  | NaN, _ | _, NaN => NaN
  | Fin p, Fin q =>
      match Qcompare q 0 with
      | Eq => match Qcompare p 0 with Eq => NaN | Gt => PInf | Lt => NInf end
      | _ => round64 (p / q)
      end
  | Fin _, _ => Fin 0
  | PInf, Fin q => if Qle_bool 0 q then PInf else NInf
  | NInf, Fin q => if Qle_bool 0 q then NInf else PInf
  | _, _ => NaN
  end.

(** [Math.abs]. *)
Definition Math_abs (a : num) : num :=
  match a with
  | Fin q => Fin (Qabs q)
  | NaN => NaN
  | _ => PInf
  end.

(** [Math.floor]. *)
Definition Math_floor (a : num) : num :=
  match a with
  | Fin q => Fin (inject_Z (Qfloor q))
  | other => other
  end.

End NumOps.

(** ** components/charts/ErrorHistogram.tsx *)

Module ErrorHistogram.
Import NumOps.
Local Open Scope Q_scope.

Inductive Mode : Type := residual | absolute.

Record HistRow : Type := {
  x0 : num;
  x1 : num;
  center : num;
  count : nat
}.

(** [Math.round]: the nearest integer, halves upwards. *)
Definition Math_round (n : num) : num :=
  match n with
  | Fin q => Fin (inject_Z (Qfloor (q + (1 # 2))))
  | other => other
  end.

Definition Math_min (a b : num) : num :=
  match a, b with
  | NaN, _ | _, NaN => NaN
  | NInf, _ | _, NInf => NInf
  | PInf, x | x, PInf => x
  | Fin p, Fin q => if Qle_bool p q then Fin p else Fin q
  end.

Definition Math_max (a b : num) : num :=
  match a, b with
  | NaN, _ | _, NaN => NaN
  | PInf, _ | _, PInf => PInf
  | NInf, x | x, NInf => x
  | Fin p, Fin q => if Qle_bool p q then Fin q else Fin p
  end.

Definition clamp (n min max : num) : num :=
  Math_max min (Math_min max (Math_round n)).

(** [values.filter((v) => Number.isFinite(v))]. *)
Definition finite_values (values : list num) : list Q :=
  flat_map (fun v => match v with Fin q => [q] | _ => [] end) values.

(** [Math.min(...clean)] and [Math.max(...clean)] on a non-empty list. *)
Definition min_of (v : Q) (vs : list Q) : Q := foldl Qmin v vs.
Definition max_of (v : Q) (vs : list Q) : Q := foldl Qmax v vs.

Definition Qltb (a b : Q) : bool := negb (Qle_bool b a).

(** The domain after the adjustment for the mode; negation, absolute
    value and the choice of the larger number are exact. *)
Definition domain (mode : Mode) (lo hi : Q) : Q * Q :=
  match mode with
  | residual => let a := Qmax (Qabs lo) (Qabs hi) in (- a, a)
  | absolute => let lo' := Qmax 0 lo in (lo', Qmax lo' hi)
  end.

(** A number that [||] replaces: [0] or [NaN]. *)
Definition falsy_number (n : num) : bool :=
  match n with
  | Fin q => Qeq_bool q 0
  | NaN => true
  | _ => false
  end.

(** [(max - min) / k || 1]. *)
Definition bin_width (lo hi : Q) (k : num) : num :=
  let w := div (sub (Fin hi) (Fin lo)) k in
  if falsy_number w then Fin 1 else w.

(** How often the body of [for (let i = 0; i <= k; i++)] runs. *)
Definition iterations_le (k : num) : option nat :=
  match k with
  | Fin kq => Some (Z.to_nat (Qfloor kq + 1)%Z)
  | PInf => None
  | _ => Some O
  end.

(** How often the body of [for (let i = 0; i < k; i++)] runs. *)
Definition iterations_lt (k : num) : option nat :=
  match k with
  | Fin kq => Some (Z.to_nat (Qceiling kq))
  | PInf => None
  | _ => Some O
  end.

(** [min + i * width]. *)
Definition edge (lo : Q) (width : num) (i : nat) : num :=
  add (Fin lo) (mul (Fin (inject_Z (Z.of_nat i))) width).

Definition make_edges (lo : Q) (width : num) (n : nat) : list num :=
  List.map (edge lo width) (seq 0 n).

(** One pass of the second loop; the non-null assertions [edges[i]!] and
    [edges[i + 1]!] fail with [None]. *)
Definition make_row (edges : list num) (i : nat) : option HistRow :=
  match edges !! i, edges !! (S i) with
  | Some a, Some b =>
      Some {| x0 := a; x1 := b; center := div (add a b) (Fin 2); count := O |}
  | _, _ => None
  end.

Fixpoint make_rows (edges : list num) (ixs : list nat) : option (list HistRow) :=
  match ixs with
  | [] => Some []
  | i :: rest =>
      match make_row edges i, make_rows edges rest with
      | Some r, Some rs => Some (r :: rs)
      | _, _ => None
      end
  end.

(** The array index that a number denotes, if any. *)
Definition as_index (n : num) : option nat :=
  match n with
  | Fin q =>
      let z := Qfloor q in
      if Qeq_bool (inject_Z z) q && (0 <=? z)%Z then Some (Z.to_nat z) else None
  | _ => None
  end.

Definition bump (r : HistRow) : HistRow :=
  {| x0 := x0 r; x1 := x1 r; center := center r; count := S (count r) |}.

(** The index of the row that counts a value inside the domain:
    [Math.floor((v - min) / width)], raised to [0] when it is below [0],
    replaced by [k - 1] when it is not below [k].  [None] when the result
    is no index (then [rows[idx]] is [undefined]). *)
Definition bin_index (lo : Q) (width k : num) (v : Q) : option nat :=
  let idx := Math_floor (div (sub (Fin v) (Fin lo)) width) in
  let idx := if lt idx (Fin 0) then Fin 0 else idx in
  let idx := if le k idx then sub k (Fin 1) else idx in
  as_index idx.

(** The body of the counting loop for one value; [None] is the
    [TypeError] of [rows[idx]!.count++] on a missing row. *)
Definition count_value (lo hi : Q) (width k : num)
    (rows : list HistRow) (v : Q) : option (list HistRow) :=
  if Qltb v lo || Qltb hi v then Some rows
  else
    match bin_index lo width k v with
    | Some i =>
        match rows !! i with
        | Some _ => Some (alter bump i rows)
        | None => None
        end
    | None => None
    end.

Fixpoint count_values (lo hi : Q) (width k : num)
    (rows : list HistRow) (vs : list Q) : option (list HistRow) :=
  match vs with
  | [] => Some rows
  | v :: rest =>
      match count_value lo hi width k rows v with
      | Some rows' => count_values lo hi width k rows' rest
      | None => None
      end
  end.

(** [toHistogram]; [None] stands for a run that does not return rows (an
    exception, or a loop that does not end). *)
Definition toHistogram (values : list num) (bins : num) (mode : Mode)
  : option (list HistRow) :=
  match finite_values values with
  | [] => Some []
  | v :: vs =>
      let '(lo, hi) := domain mode (min_of v vs) (max_of v vs) in
      let k := clamp bins (Fin 5) (Fin 60) in
      let width := bin_width lo hi k in
      match iterations_le k, iterations_lt k with
      | Some ne, Some nr =>
          match make_rows (make_edges lo width ne) (seq 0 nr) with
          | Some rows => count_values lo hi width k rows (v :: vs)
          | None => None
          end
      | _, _ => None
      end
  end.

End ErrorHistogram.

(** ** The CSV codec: [toCSV] of lib/utils.ts and [parseCSV] of the grid *)

Module Csv.

(** Text as a sequence of code units. *)
Abbreviation text := (list ascii).

Definition txt (s : string) : text := list_ascii_of_string s.

Definition quote : ascii := ascii_of_N 34.
Definition comma : ascii := ","%char.
Definition LF : ascii := ascii_of_N 10.
Definition CR : ascii := ascii_of_N 13.

Definition is_char (a b : ascii) : bool := Ascii.eqb a b.

(** A record, a plain object: its own keys in the order of
    [Object.keys], each with the string [String(val)] of its value, or
    [null] / [undefined]. *)
Abbreviation record := (list (text * opt text)).

(** [String(f)] for a built-in function, as V8 prints it. *)
Definition native (name : string) : text :=
  txt "function " ++ txt name ++ txt "() { [native code] }".

(** The members that a plain object inherits from [Object.prototype],
    each with its string; the accessor [__proto__] answers with the
    prototype itself. *)
Definition Object_prototype : list (text * text) :=
  [ (txt "constructor", native "Object");
    (txt "__defineGetter__", native "__defineGetter__");
    (txt "__defineSetter__", native "__defineSetter__");
    (txt "hasOwnProperty", native "hasOwnProperty");
    (txt "__lookupGetter__", native "__lookupGetter__");
    (txt "__lookupSetter__", native "__lookupSetter__");
    (txt "isPrototypeOf", native "isPrototypeOf");
    (txt "propertyIsEnumerable", native "propertyIsEnumerable");
    (txt "toString", native "toString");
    (txt "valueOf", native "valueOf");
    (txt "__proto__", txt "[object Object]");
    (txt "toLocaleString", native "toLocaleString") ].

Fixpoint member (table : list (text * text)) (h : text) : opt text :=
  match table with
  | [] => Undefined
  | (k, v) :: rest => if decide (k = h) then Val v else member rest h
  end.

(** What [r[h]] finds on the prototype when [h] is no own key. *)
Definition inherited (h : text) : opt text := member Object_prototype h.

(** [r[h]]: the own property, or else the inherited one. *)
Fixpoint get (r : record) (h : text) : opt text :=
  match r with
  | [] => inherited h
  | (k, v) :: rest => if decide (k = h) then v else get rest h
  end.

(** [headerSet.add(k)]: a [Set] keeps the order of first insertion. *)
Definition add_key (hs : list text) (k : text) : list text :=
  if decide (k ∈ hs) then hs else hs ++ [k].

(** [rows.forEach((r) => Object.keys(r).forEach((k) => headerSet.add(k)))]. *)
Definition collect_headers (rows : list record) : list text :=
  foldl (fun hs r => foldl add_key hs (List.map fst r)) [] rows.

(** The test of the regular expression in [esc]: a double quote, a
    comma or a line feed occurs in [s]. *)
Definition needs_quotes (s : text) : bool :=
  existsb (fun c => is_char c quote || is_char c comma || is_char c LF) s.

(** The replacement in [esc]: every double quote is doubled. *)
Definition double_quotes (s : text) : text :=
  flat_map (fun c => if is_char c quote then [quote; quote] else [c]) s.

Definition esc (val : opt text) : text :=
  match val with
  | Undefined | Null => []
  | Val s =>
      if needs_quotes s then quote :: double_quotes s ++ [quote] else s
  end.

(** [Array.prototype.join] on strings. *)
Fixpoint join (sep : text) (parts : list text) : text :=
  match parts with
  | [] => []
  | [p] => p
  | p :: rest => p ++ sep ++ join sep rest
  end.

Definition line_of (delimiter : text) (headers : list text) (r : record) : text :=
  join delimiter (List.map (fun h => esc (get r h)) headers).

Definition toCSV (rows : list record) (delimiter : text) : text :=
  match rows with
  | [] => []
  | _ =>
      let headers := collect_headers rows in
      let lines := join delimiter headers :: List.map (line_of delimiter headers) rows in
      join [LF] lines
  end.

(** *** [parseCSV] *)

(** The scanner's variables. *)
Record scanner : Type := {
  rows : list (list text);
  row : list text;
  cur : text;
  inQuotes : bool
}.

Definition start : scanner :=
  {| rows := []; row := []; cur := []; inQuotes := false |}.

(** The replacement in [pushCell]: every pair of double quotes, found
    from left to right, becomes one. *)
Fixpoint unescape (s : text) : text :=
  match s with
  | a :: rest =>
      match rest with
      | b :: rest' =>
          if is_char a quote && is_char b quote then quote :: unescape rest'
          else a :: unescape rest
      | [] => [a]
      end
  | [] => []
  end.

Definition pushCell (st : scanner) : scanner :=
  let unq := if inQuotes st then unescape (cur st) else cur st in
  {| rows := rows st; row := row st ++ [unq]; cur := []; inQuotes := false |}.

Definition pushRow (st : scanner) : scanner :=
  {| rows := rows st ++ [row st]; row := []; cur := cur st; inQuotes := inQuotes st |}.

(** [cur += ch]. *)
Definition append (ch : ascii) (st : scanner) : scanner :=
  {| rows := rows st; row := row st; cur := cur st ++ [ch]; inQuotes := inQuotes st |}.

Definition toggle (st : scanner) : scanner :=
  {| rows := rows st; row := row st; cur := cur st; inQuotes := negb (inQuotes st) |}.

(** The [for] loop over the text, from position [i] on; the two places
    that look at [text[i + 1]] and skip it are the nested matches. *)
Fixpoint scan (delimiter : text) (t : text) (st : scanner) : scanner :=
  match t with
  | [] => st
  | ch :: rest =>
      if is_char ch quote then
        match rest with
        | nxt :: rest' =>
            if inQuotes st && is_char nxt quote
            then scan delimiter rest' (append quote st)
            else scan delimiter rest (toggle st)
        | [] => scan delimiter rest (toggle st)
        end
      else if bool_decide ([ch] = delimiter) && negb (inQuotes st) then
        scan delimiter rest (pushCell st)
      else if (is_char ch LF || is_char ch CR) && negb (inQuotes st) then
        match rest with
        | nxt :: rest' =>
            if is_char ch CR && is_char nxt LF
            then scan delimiter rest' (pushRow (pushCell st))
            else scan delimiter rest (pushRow (pushCell st))
        | [] => scan delimiter rest (pushRow (pushCell st))
        end
      else scan delimiter rest (append ch st)
  end.

Definition all_empty (r : list text) : bool :=
  forallb (fun c => bool_decide (c = [])) r.

(** [while (rows.length && rows[rows.length - 1].every(...)) rows.pop()]. *)
Fixpoint pop_empty (reversed : list (list text)) : list (list text) :=
  match reversed with
  | r :: rest => if all_empty r then pop_empty rest else reversed
  | [] => []
  end.

Definition drop_trailing_empty (rs : list (list text)) : list (list text) :=
  rev (pop_empty (rev rs)).

(** The result [{ headers, rows }]; its field [rows] is called [data]
    here, [rows] being the variable of the scanner. *)
Record Parsed : Type := {
  headers : list text;
  data : list (list text)
}.

Definition parseCSV (t : text) (delimiter : text) : Parsed :=
  let st := pushCell (scan delimiter t start) in
  let st := match row st with [] => st | _ => pushRow st end in
  match drop_trailing_empty (rows st) with
  | [] => {| headers := []; data := [] |}
  | h :: rest => {| headers := h; data := rest |}
  end.

End Csv.

(** ** lib/utils.ts: stable stringify and hashing *)

Module Json.

(** A value handed to [stableStringify].  Arrays and objects carry the
    identity of their reference, which is what the [WeakSet] records; a
    reference that occurs twice is written twice with the same identity.
    The fields of an object are its own keys in the order of
    [Object.keys]. *)
Inductive value : Type :=
  | JUndefined
  | JNull
  | JBool (b : bool)
  | JNumber (n : num)
  | JString (s : string)
  | JArray (ref : positive) (items : list value)
  | JObject (ref : positive) (fields : list (string * value)).

(** What [sorter] builds: fresh arrays and objects, whose identity is
    never looked at.  The fields of an object are listed in the order in
    which its own properties are enumerated. *)
Inductive tree : Type :=
  | TUndefined
  | TNull
  | TBool (b : bool)
  | TNumber (n : num)
  | TString (s : string)
  | TArray (items : list tree)
  | TObject (fields : list (string * tree)).

(** The default comparison of [Array.prototype.sort] on strings: code
    units, lexicographically. *)
Definition key_le (a b : string) : Prop := String.leb a b = true.

#[export] Instance key_le_dec : RelDecision key_le.
Proof. intros a b. unfold key_le. apply _. Defined.

Definition sort_keys (ks : list string) : list string := merge_sort key_le ks.

(** [val[k]] on the fields of an object. *)
Fixpoint lookup_field {A} (fields : list (string * A)) (k : string) : option A :=
  match fields with
  | [] => None
  | (k', x) :: rest => if decide (k' = k) then Some x else lookup_field rest k
  end.

(** A key that is an array index: the canonical numeral of an integer
    below [2^32 - 1].  Such keys are enumerated first, in ascending
    order. *)
Definition array_index (k : string) : option N :=
  let cs := list_ascii_of_string k in
  match span_digits 10 0 0 cs with
  | (v, S len, []) =>
      let leading_zero :=
        match cs with c :: _ => (code c =? 48)%N | [] => false end in
      if (negb leading_zero || Nat.eqb len 0) && (v <=? 4294967294)%N
      then Some v else None
  | _ => None
  end.

(** Where a new array-index key goes among the fields. *)
Fixpoint insert_index {A} (n : N) (k : string) (x : A)
    (fields : list (string * A)) : list (string * A) :=
  match fields with
  | [] => [(k, x)]
  | (k', x') :: rest =>
      match array_index k' with
      | Some m =>
          if (m <? n)%N then (k', x') :: insert_index n k x rest
          else (k, x) :: fields
      | None => (k, x) :: fields
      end
  end.

Fixpoint replace_field {A} (k : string) (x : A)
    (fields : list (string * A)) : list (string * A) :=
  match fields with
  | [] => []
  | (k', x') :: rest =>
      if decide (k' = k) then (k, x) :: rest
      else (k', x') :: replace_field k x rest
  end.

Definition proto_key : string := "__proto__".

(** [out[k] = x] on a plain object.  An assignment to the key
    [__proto__] reaches the prototype accessor and creates no own
    property. *)
Definition set_prop {A} (out : list (string * A)) (k : string) (x : A)
  : list (string * A) :=
  if decide (k = proto_key) then out
  else
    match lookup_field out k with
    | Some _ => replace_field k x out
    | None =>
        match array_index k with
        | Some n => insert_index n k x out
        | None => out ++ [(k, x)]
        end
    end.

(** The state of [sorter]: the references seen so far. *)
Abbreviation seen_set := (gset positive).

(** The loop [for (const k of keys) out[k] = sorter(val[k])], with the
    calls [sorter(val[k])] given as state transformers. *)
Fixpoint run_fields (keys : list string)
    (subs : list (string * (seen_set -> tree * seen_set)))
    (out : list (string * tree)) (seen : seen_set)
  : list (string * tree) * seen_set :=
  match keys with
  | [] => (out, seen)
  | k :: rest =>
      let '(t, seen') :=
        match lookup_field subs k with
        | Some f => f seen
        | None => (TUndefined, seen)
        end in
      run_fields rest subs (set_prop out k t) seen'
  end.

(** [val.map(sorter)]. *)
Fixpoint run_items (subs : list (seen_set -> tree * seen_set)) (seen : seen_set)
  : list tree * seen_set :=
  match subs with
  | [] => ([], seen)
  | f :: rest =>
      let '(t, seen1) := f seen in
      let '(ts, seen2) := run_items rest seen1 in
      (t :: ts, seen2)
  end.

(** The inner function [sorter] of [stableStringify]. *)
Fixpoint sorter (val : value) : seen_set -> tree * seen_set :=
  match val with
  | JUndefined => fun seen => (TUndefined, seen)
  | JNull => fun seen => (TNull, seen)
  | JBool b => fun seen => (TBool b, seen)
  | JNumber n => fun seen => (TNumber n, seen)
  | JString s => fun seen => (TString s, seen)
  | JArray ref items =>
      let subs :=
        (fix each (l : list value) :=
           match l with
           | [] => []
           | x :: r => sorter x :: each r
           end) items in
      fun seen =>
        if decide (ref ∈ seen) then (TUndefined, seen)
        else
          let '(ts, seen') := run_items subs ({[ref]} ∪ seen) in
          (TArray ts, seen')
  | JObject ref fields =>
      let subs :=
        (fix each (l : list (string * value)) :=
           match l with
           | [] => []
           | (k, x) :: r => (k, sorter x) :: each r
           end) fields in
      fun seen =>
        if decide (ref ∈ seen) then (TUndefined, seen)
        else
          let '(out, seen') :=
            run_fields (sort_keys (List.map fst fields)) subs [] ({[ref]} ∪ seen) in
          (TObject out, seen')
  end.

Section Stringify.

(** The text of a finite number, [Number.prototype.toString]: a
    parameter of the development. *)
Variable number_text : Q -> string.

Definition str (c : ascii) : string := String c EmptyString.

Definition dquote : string := str (ascii_of_N 34).
Definition backslash : string := str (ascii_of_N 92).

Definition hex_digit (n : N) : string :=
  HexadecimalString.NilZero.string_of_uint (N.to_hex_uint n).

(** One code unit inside a JSON string. *)
Definition quote_char (c : ascii) : string :=
  let n := code c in
  if (n =? 34)%N then backslash +:+ dquote
  else if (n =? 92)%N then backslash +:+ backslash
  else if (n =? 8)%N then backslash +:+ "b"
  else if (n =? 9)%N then backslash +:+ "t"
  else if (n =? 10)%N then backslash +:+ "n"
  else if (n =? 12)%N then backslash +:+ "f"
  else if (n =? 13)%N then backslash +:+ "r"
  else if (n <? 32)%N then
    backslash +:+ "u00" +:+ hex_digit (n / 16) +:+ hex_digit (n mod 16)
  else str c.

Fixpoint quote_body (s : string) : string :=
  match s with
  | EmptyString => EmptyString
  | String c r => quote_char c +:+ quote_body r
  end.

(** [QuoteJSONString]. *)
Definition quote_json (s : string) : string :=
  dquote +:+ quote_body s +:+ dquote.

Fixpoint join_comma (parts : list string) : string :=
  match parts with
  | [] => EmptyString
  | [p] => p
  | p :: rest => p +:+ "," +:+ join_comma rest
  end.

(** [JSON.stringify]; [None] is the result [undefined]. *)
Fixpoint stringify (t : tree) : option string :=
  match t with
  | TUndefined => None
  | TNull => Some "null"
  | TBool true => Some "true"
  | TBool false => Some "false"
  | TNumber (Fin q) => Some (number_text q)
  | TNumber _ => Some "null"
  | TString s => Some (quote_json s)
  | TArray items =>
      let parts :=
        (fix each (l : list tree) :=
           match l with
           | [] => []
           | x :: r => default "null" (stringify x) :: each r
           end) items in
      Some ("[" +:+ join_comma parts +:+ "]")
  | TObject fields =>
      let parts :=
        (fix each (l : list (string * tree)) :=
           match l with
           | [] => []
           | (k, x) :: r =>
               match stringify x with
               | Some s => (quote_json k +:+ ":" +:+ s) :: each r
               | None => each r
               end
           end) fields in
      Some ("{" +:+ join_comma parts +:+ "}")
  end.

Definition stableStringify (v : value) : option string :=
  stringify (fst (sorter v ∅)).

(** One round of [hashString]: [((h * 33) ^ code) >>> 0].  The product
    is exact; the exclusive or works on its low 32 bits. *)
Definition hash_step (h : N) (c : ascii) : N :=
  N.lxor ((h * 33) mod 2 ^ 32) (code c).

Fixpoint hash_loop (h : N) (s : string) : N :=
  match s with
  | EmptyString => h
  | String c r => hash_loop (hash_step h c) r
  end.

(** [hashString], with [h.toString(16)]. *)
Definition hashString (s : string) : string :=
  HexadecimalString.NilZero.string_of_uint (N.to_hex_uint (hash_loop 5381 s)).

(** [hashObject]; [None] when [stableStringify] returns [undefined] and
    reading its length throws. *)
Definition hashObject (obj : value) : option string :=
  match stableStringify obj with
  | Some s => Some (hashString s)
  | None => None
  end.

End Stringify.

End Json.

(** ** Notions used to state the properties *)

Module Notions.
Import Utils ManualExogGrid ErrorHistogram Csv Json.

(** A number if it is finite, [0] otherwise. *)
Definition or_zero (n : num) : num := if isFinite n then n else zero.

(** [map[name][r]]: [undefined] when the column or the position is
    missing. *)
Definition map_cell (map : gmap string (list num)) (name : string) (r : nat)
  : NumLike :=
  match map !! name with
  | Some col =>
      match col !! r with
      | Some n => OfNumber n
      | None => OfUndefined
      end
  | None => OfUndefined
  end.

(** [rows[r][c]]. *)
Definition entry {A} (rows : list (list A)) (r c : nat) : option A :=
  match rows !! r with
  | Some row => row !! c
  | None => None
  end.

(** The state of the rows after the columns below [j] have been filled. *)
Definition filled (map : gmap string (list num)) (columns : list string)
    (h j : nat) (rows : list (list num)) : Prop :=
  length rows = h
  /\ forall r, (r < h)%nat ->
       exists row, rows !! r = Some row
         /\ length row = length columns
         /\ forall c name, columns !! c = Some name ->
              row !! c = Some (if decide (c < j)%nat
                               then toNumberOrZero (map_cell map name r)
                               else zero).

(** The domain of the histogram of [values], when a finite value
    exists. *)
Definition hist_domain (values : list num) (mode : Mode) : option (Q * Q) :=
  match finite_values values with
  | [] => None
  | v :: vs => Some (domain mode (min_of v vs) (max_of v vs))
  end.

(** [lo <= v <= hi]. *)
Definition in_domain (lo hi v : Q) : bool := Qle_bool lo v && Qle_bool v hi.

(** The number of values that a test accepts. *)
Definition count_if (p : Q -> bool) (vs : list Q) : nat :=
  length (List.filter p vs).

Definition sum_counts (rows : list HistRow) : nat :=
  foldr (fun r n => (count r + n)%nat) O rows.

(** The row at position [i] before counting. *)
Definition fresh_row (lo : Q) (width : num) (i : nat) : HistRow :=
  let a := edge lo width i in
  let b := edge lo width (S i) in
  {| x0 := a; x1 := b; center := NumOps.div (NumOps.add a b) (Fin 2); count := O |}.

(** Everything of a row but its count. *)
Definition frame (r : HistRow) : num * num * num := (x0 r, x1 r, center r).

(** The value [v] is counted by the row at position [i]. *)
Definition lands_in (lo hi : Q) (width k : num) (i : nat) (v : Q) : bool :=
  in_domain lo hi v && bool_decide (bin_index lo width k v = Some i).

(** The place that the counting loop gives to a quotient that is no
    [NaN] and not negative, among [k] rows: its floor, or the last place
    when the floor lies beyond. *)
Definition place (t : num) (k : Z) : Z :=
  match t with
  | Fin x => Z.min (k - 1) (Qfloor x)
  | _ => (k - 1)%Z
  end.

(** The edges and the count of every row, for display. *)
Definition summary (rows : list HistRow) : list (num * num * nat) :=
  List.map (fun r => (x0 r, x1 r, count r)) rows.

(** From this bound on a real number is rounded to [Infinity]: the
    middle between the largest double and [2 ^ 1024]. *)
Definition overflow_bound : Q := (exp2 1024 - exp2 970)%Q.

(** Half of it: the sum and the difference of two numbers below this
    bound in magnitude do not overflow.  Every double below [2 ^ 1023] in
    magnitude is below it. *)
Definition half_bound : Q := (exp2 1023 - exp2 969)%Q.

(** The span of the domain is rounded to a finite double. *)
Definition finite_span (values : list num) (mode : Mode) : Prop :=
  match hist_domain values mode with
  | None => True
  | Some (lo, hi) => (hi - lo < overflow_bound)%Q
  end.

(** The counting loop meets a value of the domain whose distance
    [v - min] from the lower end is rounded to [Infinity]. *)
Definition overflows (values : list num) (mode : Mode) : bool :=
  match hist_domain values mode with
  | None => false
  | Some (lo, hi) =>
      existsb (fun v => in_domain lo hi v && Qle_bool overflow_bound (v - lo))
        (finite_values values)
  end.

(** The text of a cell: the string of the value [r[h]], empty for a
    missing, [null] or [undefined] value. *)
Definition cell_text (r : record) (h : text) : text :=
  match get r h with
  | Val s => s
  | _ => []
  end.

(** The value of an own key of a record, if the record has the key. *)
Fixpoint own_value (r : record) (h : text) : option (opt text) :=
  match r with
  | [] => None
  | (k, v) :: rest => if decide (k = h) then Some v else own_value rest h
  end.

(** The text of a value. *)
Definition text_of (v : opt text) : text :=
  match v with
  | Val s => s
  | _ => []
  end.

(** The distinct elements of a list in the order of their first
    occurrence. *)
Fixpoint first_seen (l : list text) : list text :=
  match l with
  | [] => []
  | k :: rest => k :: List.filter (fun k' => negb (bool_decide (k' = k))) (first_seen rest)
  end.

(** All keys of all records, record after record. *)
Definition all_keys (rs : list record) : list text :=
  List.concat (List.map (List.map fst) rs).

(** A text without comma, double quote, line feed and carriage return. *)
Definition plain (s : text) : Prop :=
  forall c, In c s -> c <> quote /\ c <> comma /\ c <> LF /\ c <> CR.

(** A carriage return occurs only in a value that [esc] wraps in quotes. *)
Definition no_bare_CR (s : text) : Prop :=
  In CR s -> needs_quotes s = true.

(** The cells of a single line without quotes: the pieces between the
    occurrences of a one-character delimiter. *)
Fixpoint split_on (delimiter : text) (t : text) (cur : text) : list text :=
  match t with
  | [] => [cur]
  | c :: rest =>
      if bool_decide ([c] = delimiter) then cur :: split_on delimiter rest []
      else split_on delimiter rest (cur ++ [c])
  end.

(** The text after a closing quote does not start with a quote. *)
Definition tail_ok (t : text) : Prop :=
  match t with
  | [] => True
  | c :: _ => c <> quote
  end.

(** The scanner reads the encoded field [e] as the cell [v]. *)
Definition field_ok (e v : text) : Prop :=
  forall t R row cur, tail_ok t ->
    scan [comma] (e ++ t) {| rows := R; row := row; cur := cur; inQuotes := false |}
    = scan [comma] t {| rows := R; row := row; cur := cur ++ v; inQuotes := false |}.

(** The text of a line whose fields are given with their cells. *)
Definition line_text (fields : list (text * text)) : text :=
  join [comma] (List.map fst fields).

(** The fields of the header line and of the line of a record. *)
Definition header_fields (hs : list text) : list (text * text) :=
  List.map (fun h => (h, h)) hs.

Definition record_fields (hs : list text) (r : record) : list (text * text) :=
  List.map (fun h => (esc (get r h), cell_text r h)) hs.

(** The decidable form of [plain]. *)
Definition plainb (s : text) : bool :=
  forallb (fun c => negb (is_char c quote || is_char c comma
                          || is_char c LF || is_char c CR)) s.

(** The decidable form of [no_bare_CR], on a value. *)
Definition safe_value (v : opt text) : bool :=
  match v with
  | Val s => negb (existsb (fun c => is_char c CR) s) || needs_quotes s
  | _ => true
  end.

(** Every key is plain and no value holds a carriage return outside
    quotes. *)
Definition well_formed (rs : list record) : bool :=
  forallb (fun r : record =>
             forallb (fun kv => plainb (fst kv) && safe_value (snd kv)) r) rs.

(** The last record has a cell that is not empty. *)
Definition last_has_text (rs : list record) : bool :=
  match last rs with
  | Some r =>
      existsb (fun h => negb (bool_decide (cell_text r h = []))) (all_keys rs)
  | None => false
  end.

Definition no_result : Parsed := {| headers := []; data := [] |}.

#[export] Instance Q_eq_dec : EqDecision Q.
Proof. solve_decision. Defined.

#[export] Instance num_eq_dec : EqDecision num.
Proof. solve_decision. Defined.

(** The references of the arrays and objects of a value, in the order in
    which they are written. *)
Fixpoint refs (v : value) : list positive :=
  match v with
  | JArray ref items =>
      ref :: (fix each (l : list value) :=
                match l with
                | [] => []
                | x :: r => refs x ++ each r
                end) items
  | JObject ref fields =>
      ref :: (fix each (l : list (string * value)) :=
                match l with
                | [] => []
                | (_, x) :: r => refs x ++ each r
                end) fields
  | _ => []
  end.

(** No object has a key twice. *)
Fixpoint keys_distinct (v : value) : bool :=
  match v with
  | JArray _ items =>
      (fix each (l : list value) :=
         match l with
         | [] => true
         | x :: r => keys_distinct x && each r
         end) items
  | JObject _ fields =>
      bool_decide (NoDup (List.map fst fields))
      && (fix each (l : list (string * value)) :=
            match l with
            | [] => true
            | (_, x) :: r => keys_distinct x && each r
            end) fields
  | _ => true
  end.

(** A JSON-like value: a tree, in which no reference occurs twice, whose
    objects have distinct keys. *)
Definition json_like (v : value) : bool :=
  bool_decide (NoDup (refs v)) && keys_distinct v.

(** Equality up to the order of the keys of objects: arrays are compared
    element by element in order; two objects have the same number of
    fields, and every field of the first is a field of the second with an
    equal value. *)
Fixpoint similar (v1 v2 : value) {struct v1} : bool :=
  match v1, v2 with
  | JUndefined, JUndefined => true
  | JNull, JNull => true
  | JBool a, JBool b => bool_decide (a = b)
  | JNumber a, JNumber b => bool_decide (a = b)
  | JString a, JString b => bool_decide (a = b)
  | JArray _ l1, JArray _ l2 =>
      (fix each (l1 : list value) (l2 : list value) :=
         match l1, l2 with
         | [], [] => true
         | x :: r1, y :: r2 => similar x y && each r1 r2
         | _, _ => false
         end) l1 l2
  | JObject _ f1, JObject _ f2 =>
      Nat.eqb (length f1) (length f2)
      && (fix each (l : list (string * value)) :=
            match l with
            | [] => true
            | (k, x) :: r =>
                match lookup_field f2 k with
                | Some y => similar x y
                | None => false
                end && each r
            end) f1
  | _, _ => false
  end.

(** A field with its value transformed. *)
Definition on_value {A B} (f : A -> B) (kv : string * A) : string * B :=
  (fst kv, f (snd kv)).

(** Two lists of the same length whose elements are related in pairs. *)
Fixpoint all2 {A B} (f : A -> B -> bool) (l1 : list A) (l2 : list B) : bool :=
  match l1, l2 with
  | [], [] => true
  | x :: r1, y :: r2 => f x y && all2 f r1 r2
  | _, _ => false
  end.

(** What [sorter] does on a tree, from every state that holds none of its
    references: it returns the canonical form given below, and it adds
    references of the tree only. *)
Definition sorts_to (c : value -> tree) (v : value) : Prop :=
  forall seen : gset positive,
    NoDup (refs v) -> keys_distinct v = true ->
    (forall r, In r (refs v) -> r ∉ seen) ->
    exists seen' : gset positive,
      sorter v seen = (c v, seen')
      /\ forall r, r ∈ seen' -> r ∈ seen \/ In r (refs v).

(** A printer for whole numbers, to run the examples. *)
Definition whole_number_text (q : Q) : string :=
  DecimalString.NilZero.string_of_int (Z.to_int (Qfloor q)).

(** The object that the loop of [sorter] builds from the keys [keys] when
    the value under the key [k] becomes [subs k]. *)
Fixpoint build (keys : list string) (subs : list (string * tree))
    (out : list (string * tree)) : list (string * tree) :=
  match keys with
  | [] => out
  | k :: rest =>
      build rest subs (set_prop out k (default TUndefined (lookup_field subs k)))
  end.

(** The result of [sorter] on a tree. *)
Fixpoint canon (v : value) : tree :=
  match v with
  | JUndefined => TUndefined
  | JNull => TNull
  | JBool b => TBool b
  | JNumber n => TNumber n
  | JString s => TString s
  | JArray _ items =>
      TArray ((fix each (l : list value) :=
                 match l with
                 | [] => []
                 | x :: r => canon x :: each r
                 end) items)
  | JObject _ fields =>
      TObject (build (sort_keys (List.map fst fields))
                 ((fix each (l : list (string * value)) :=
                     match l with
                     | [] => []
                     | (k, x) :: r => (k, canon x) :: each r
                     end) fields) [])
  end.

End Notions.

(** ** lib/utils.ts: forecast points, their normalization and clipping *)

Module Forecast.
Import Utils NumOps.

(** [ForecastPointRaw]: the numbers may come as strings or be missing. *)
Module Raw.
Record ForecastPointRaw : Type := {
  ds : string;
  yhat : NumLike;
  yhat_lower : NumLike;
  yhat_upper : NumLike
}.
End Raw.

(** [ForecastPoint]; [None] is a bound that is [undefined]. *)
Record ForecastPoint : Type := {
  ds : string;
  yhat : num;
  yhat_lower : option num;
  yhat_upper : option num
}.

Definition normalizeForecastPoints (raw : opt (list Raw.ForecastPointRaw))
  : list ForecastPoint :=
  List.map (fun p =>
              {| ds := Raw.ds p;
                 yhat := toNumberStrict (Raw.yhat p) (Fin 0);
                 yhat_lower := toNumber (Raw.yhat_lower p);
                 yhat_upper := toNumber (Raw.yhat_upper p) |})
    (nullish raw []).

(** The options of [applyClip]. *)
Record ClipOptions : Type := {
  clipNonNegative : opt bool;
  floor : opt num
}.

(** [Boolean(opts?.clipNonNegative)]. *)
Definition clipNN (opts : opt ClipOptions) : bool :=
  match opts with
  | Val o => match clipNonNegative o with Val b => b | _ => false end
  | _ => false
  end.

(** The floor when [typeof opts?.floor === "number"], which is the test
    [hasFloor]. *)
Definition floor_of (opts : opt ClipOptions) : option num :=
  match opts with
  | Val o => match floor o with Val f => Some f | _ => None end
  | _ => None
  end.

(** The inner function [clamp] on a number: the two assignments to [y]. *)
Definition clamp_number (clipNN : bool) (floor : option num) (x : num) : num :=
  let y := x in
  let y := if clipNN && lt y (Fin 0) then Fin 0 else y in
  match floor with
  | Some f => if lt y f then f else y
  | None => y
  end.

(** The inner function [clamp]: [undefined] stays [undefined]. *)
Definition clamp (clipNN : bool) (floor : option num) (x : option num) : option num :=
  match x with
  | None => None
  | Some n => Some (clamp_number clipNN floor n)
  end.

(** [applyClip]; [yhat] is a number, so [clamp(p.yhat)!] is one. *)
Definition applyClip (points : opt (list ForecastPoint)) (opts : opt ClipOptions)
  : list ForecastPoint :=
  List.map (fun p =>
              {| ds := ds p;
                 yhat := clamp_number (clipNN opts) (floor_of opts) (yhat p);
                 yhat_lower := clamp (clipNN opts) (floor_of opts) (yhat_lower p);
                 yhat_upper := clamp (clipNN opts) (floor_of opts) (yhat_upper p) |})
    (nullish points []).

End Forecast.

(** ** The manual exogenous grid: its state and the import of CSV text *)

Module GridState.
Import Utils ManualExogGrid Csv.

(** [ManualExogValue]: the own properties of the object, each an array
    of numbers. *)
Abbreviation ManualExogValue := (gmap string (list num)).

(** [next[col] = arr] on an object that started as the literal [{}].  An
    assignment to the key [__proto__] reaches the prototype accessor and
    creates no own property. *)
Definition assign (next : ManualExogValue) (col : string) (arr : list num)
  : ManualExogValue :=
  if decide (col = Json.proto_key) then next else <[col := arr]> next.

(** [from?.[col] ?? []]. *)
Definition source (from : opt ManualExogValue) (col : string) : list num :=
  match from with
  | Val m => default [] (m !! col)
  | _ => []
  end.

(** [Array.from({ length: n }, (_, i) => f(i))], and an array filled by
    [push] in a loop over [0 .. n - 1]. *)
Definition tabulate {A} (n : nat) (f : nat -> A) : list A :=
  List.map f (seq 0 n).

Definition initGrid (columns : list string) (horizon : nat)
    (from : opt ManualExogValue) : ManualExogValue :=
  foldl (fun next col =>
           let src := source from col in
           assign next col (tabulate horizon (fun i => toNumberOrZero (at_index src i))))
    ∅ columns.

(** [clearAll] emits [initGrid(columns, horizon)]. *)
Definition clearAll (columns : list string) (horizon : nat) : ManualExogValue :=
  initGrid columns horizon Undefined.

(** [headers.forEach((h, i) => (headerIdx[h.trim()] = i))].  The
    assignment of a number to the key [__proto__] is dropped. *)
Definition headerIdx (headers : list text) : gmap string nat :=
  foldl (fun idx ih =>
           let k := string_of_list_ascii (trim (snd ih)) in
           if decide (k = Json.proto_key) then idx else <[k := fst ih]> idx)
    ∅ (zip (seq 0 (length headers)) headers).

(** [typeof idx === "number" ? srcRow[idx] : ""] with
    [srcRow = rows[r] ?? []].  The properties that [headerIdx] inherits
    are no numbers, so [idx] is a number exactly when the key is an own
    property. *)
Definition raw_cell (idx : option nat) (rows : list (list text)) (r : nat) : NumLike :=
  match idx with
  | Some i =>
      match default [] (rows !! r) !! i with
      | Some s => OfString (string_of_list_ascii s)
      | None => OfUndefined
      end
  | None => OfString EmptyString
  end.

(** What [onImportCSV] and [doPaste] do with the parsed text; [None]
    when they return without emitting a grid. *)
Definition align (parsed : Parsed) (columns : list string) (horizon : nat)
  : option ManualExogValue :=
  match headers parsed, data parsed with
  | [], _ | _, [] => None
  | hs, rows =>
      let idx := headerIdx hs in
      Some (foldl (fun next name =>
                     assign next name
                       (tabulate horizon
                          (fun r => toNumberOrZero (raw_cell (idx !! name) rows r))))
              ∅ columns)
  end.

Definition onImportCSV (text : Csv.text) (columns : list string) (horizon : nat)
  : option ManualExogValue :=
  align (parseCSV text [comma]) columns horizon.

Definition doPaste (pasteText : Csv.text) (columns : list string) (horizon : nat)
  : option ManualExogValue :=
  align (parseCSV (trim pasteText) [comma]) columns horizon.

End GridState.

(** ** components/charts/ErrorHistogram.tsx: the state of the component *)

Module HistogramView.
Import NumOps ErrorHistogram.
Local Open Scope Q_scope.

(** [ByPeriodPoint] as the component reads it: [y] and [yhat] may be
    missing, [abs_err] is optional. *)
Record ByPeriodPoint : Type := {
  ds : string;
  y : opt num;
  yhat : opt num;
  lower : opt num;
  upper : opt num;
  abs_err : opt num
}.

(** [(d.y ?? 0) - (d.yhat ?? 0)]. *)
Definition error_of (d : ByPeriodPoint) : num :=
  sub (nullish (y d) (Fin 0)) (nullish (yhat d) (Fin 0)).

(** The memo [values]. *)
Definition values (data : list ByPeriodPoint) (mode : Mode) : list num :=
  match mode with
  | absolute =>
      List.map (fun d =>
                  match abs_err d with
                  | Val e => Math_max (Fin 0) e
                  | _ => Math_abs (error_of d)
                  end) data
  | residual => List.map error_of data
  end.

(** The ceiling of the binary logarithm of a positive rational: the
    least [m] with [q <= 2 ^ m].  The logarithm is exact. *)
Definition ceil_log2 (q : Q) : Z :=
  if Qle_bool q 1 then (- Z.log2 (Qfloor (/ q)))%Z else Z.log2_up (Qceiling q).

(** [sturges]; [Math.ceil(Math.log2(n) + 1)] is [ceil_log2 n + 1]. *)
Definition sturges (n : num) : num :=
  match n with
  | Fin q =>
      if Qle_bool q 0 then Fin 20
      else clamp (Fin (inject_Z (ceil_log2 q + 1))) (Fin 5) (Fin 40)
  | _ => Fin 20
  end.

(** The initial state of [bins]: [binsProp ?? sturges(n)] with [n] the
    length of [data]. *)
Definition initial_bins (binsProp : opt num) (data : list ByPeriodPoint) : num :=
  nullish binsProp (sturges (Fin (inject_Z (Z.of_nat (length data))))).

(** The two buttons of the toolbar. *)
Inductive Press : Type := Minus | Plus.

(** [setBins((b) => clamp(b - 1, 5, 60))] and the same with [b + 1]. *)
Definition press (b : num) (p : Press) : num :=
  match p with
  | Minus => clamp (sub b (Fin 1)) (Fin 5) (Fin 60)
  | Plus => clamp (add b (Fin 1)) (Fin 5) (Fin 60)
  end.

(** The memo [hist]. *)
Definition hist (data : list ByPeriodPoint) (bins : num) (mode : Mode)
  : option (list HistRow) :=
  toHistogram (values data mode) bins mode.

End HistogramView.

(** ** lib/utils.ts: the message of an error *)

Module Errors.
Import Json.

(** What [getErrorMessage] is given: any value, or an instance of
    [Error] with its message. *)
Inductive Thrown : Type :=
  | ThrownValue (v : value)
  | ThrownError (message : string).

(** [!v]. *)
Definition falsy (v : value) : bool :=
  match v with
  | JUndefined | JNull => true
  | JBool b => negb b
  | JNumber (Fin q) => Qeq_bool q 0
  | JNumber NaN => true
  | JNumber _ => false
  | JString EmptyString => true
  | _ => false
  end.

(** The value as [JSON.stringify] walks it: the identity of arrays and
    objects plays no role. *)
Fixpoint as_tree (v : value) : tree :=
  match v with
  | JUndefined => TUndefined
  | JNull => TNull
  | JBool b => TBool b
  | JNumber n => TNumber n
  | JString s => TString s
  | JArray _ items =>
      TArray ((fix each (l : list value) :=
                 match l with
                 | [] => []
                 | x :: r => as_tree x :: each r
                 end) items)
  | JObject _ fields =>
      TObject ((fix each (l : list (string * value)) :=
                  match l with
                  | [] => []
                  | (k, x) :: r => (k, as_tree x) :: each r
                  end) fields)
  end.

Section Message.

Variable number_text : Q -> string.

(** [getErrorMessage]; [None] is the result [undefined] of
    [JSON.stringify].  A value is a finite tree, on which
    [JSON.stringify] does not throw. *)
Definition getErrorMessage (err : Thrown) (fallback : string) : option string :=
  match err with
  | ThrownError message =>
      Some match message with EmptyString => fallback | _ => message end
  | ThrownValue v =>
      if falsy v then Some fallback
      else
        match v with
        | JString s => Some s
        | _ => stringify number_text (as_tree v)
        end
  end.

End Message.

(** The default of [fallback]. *)
Definition default_fallback : string := "Request failed".

End Errors.

(** ** lib/utils.ts: the export of forecast points *)

Module ForecastExport.
Import Forecast Csv.

(** What [downloadFile] is asked to offer. *)
Record Download : Type := {
  filename : string;
  content : text;
  mime : string
}.

Section NumberText.

(** The text of a finite number: a parameter, as in [stringify]. *)
Variable number_text : Q -> string.

(** [String(n)] for a number. *)
Definition String_of_number (n : num) : text :=
  match n with
  | Fin q => txt (number_text q)
  | NaN => txt "NaN"
  | PInf => txt "Infinity"
  | NInf => txt "-Infinity"
  end.

(** [String(b ?? "")] for a bound. *)
Definition String_of_bound (b : option num) : text :=
  match b with
  | Some n => String_of_number n
  | None => []
  end.

(** The object built for a point, its keys in the order of the literal,
    each value with its string. *)
Definition export_row (p : ForecastPoint) : record :=
  [ (txt "ds", Val (txt (ds p)));
    (txt "yhat", Val (String_of_number (yhat p)));
    (txt "yhat_lower", Val (String_of_bound (yhat_lower p)));
    (txt "yhat_upper", Val (String_of_bound (yhat_upper p))) ].

(** [exportForecastCSV]: the download that it asks for; [None] when the
    text is empty. *)
Definition exportForecastCSV (points : opt (list ForecastPoint)) (name : string)
  : option Download :=
  let rows := List.map export_row (nullish points []) in
  let csv := toCSV rows [comma] in
  match csv with
  | [] => None
  | _ => Some {| filename := name; content := csv; mime := "text/csv" |}
  end.

End NumberText.

(** The default of [filename]. *)
Definition default_filename : string := "forecast.csv".

End ForecastExport.

(** ** Notions used to state the further properties *)

Module Readings.
Import Utils NumOps Forecast.

(** A normalized point read as a raw one: a number is a [NumLike]. *)
Definition as_raw (p : ForecastPoint) : Raw.ForecastPointRaw :=
  {| Raw.ds := ds p;
     Raw.yhat := OfNumber (yhat p);
     Raw.yhat_lower :=
       match yhat_lower p with Some n => OfNumber n | None => OfUndefined end;
     Raw.yhat_upper :=
       match yhat_upper p with Some n => OfNumber n | None => OfUndefined end |}.

(** A bound that is missing or finite. *)
Definition finite_or_missing (x : option num) : bool :=
  match x with Some n => isFinite n | None => true end.

(** A number that is not below the bounds of the options, in the sense
    of [<]. *)
Definition within (clipNN : bool) (floor : option num) (y : num) : bool :=
  negb (clipNN && lt y (Fin 0))
  && match floor with Some f => negb (lt y f) | None => true end.

(** The band of a point is in order: the bounds that are present lie
    around [yhat], in the sense of [<=]. *)
Definition ordered_band (p : ForecastPoint) : bool :=
  match yhat_lower p with Some l => le l (yhat p) | None => true end
  && match yhat_upper p with Some u => le (yhat p) u | None => true end.

(** The map that [from] stands for: none when it is missing. *)
Definition given (from : opt GridState.ManualExogValue) : GridState.ManualExogValue :=
  match from with Val m => m | _ => ∅ end.

(** The name of a header: its text without the white space around it. *)
Definition header_name (h : Csv.text) : string := string_of_list_ascii (trim h).

(** The header at position [j] is the last one with the name [name]. *)
Definition last_named (hs : list Csv.text) (name : string) (j : nat) : Prop :=
  (exists h, hs !! j = Some h /\ header_name h = name)
  /\ forall j' h', (j < j')%nat -> hs !! j' = Some h' -> header_name h' <> name.

(** No header has the name [name]. *)
Definition unnamed (hs : list Csv.text) (name : string) : Prop :=
  forall j h, hs !! j = Some h -> header_name h <> name.

(** [2 ^ m] for an integer [m]. *)
Definition pow2 (m : Z) : Q := Qpower 2 m.

(** The lines of a text: the pieces between its line breaks, a line
    break being a line feed, a carriage return, or a carriage return
    followed by a line feed. *)
Fixpoint break_lines (t : Csv.text) (cur : Csv.text) : list Csv.text :=
  match t with
  | [] => [cur]
  | c :: rest =>
      if Csv.is_char c Csv.CR then
        match rest with
        | n :: rest' =>
            if Csv.is_char n Csv.LF then cur :: break_lines rest' []
            else cur :: break_lines rest []
        | [] => cur :: break_lines rest []
        end
      else if Csv.is_char c Csv.LF then cur :: break_lines rest []
      else break_lines rest (cur ++ [c])
  end.

(** The cells of a line without quotes. *)
Definition cells (delimiter : Csv.text) (line : Csv.text) : list Csv.text :=
  Notions.split_on delimiter line [].

(** The table of a list of rows: the first row is the header. *)
Definition table_of (rows : list (list Csv.text)) : Csv.Parsed :=
  match rows with
  | [] => Notions.no_result
  | h :: rest => {| Csv.headers := h; Csv.data := rest |}
  end.

(** A text with every line feed replaced by a carriage return and a line
    feed. *)
Definition to_crlf (t : Csv.text) : Csv.text :=
  flat_map (fun c => if Csv.is_char c Csv.LF then [Csv.CR; Csv.LF] else [c]) t.

(** A text without double quotes. *)
Definition quote_free (t : Csv.text) : Prop := ~ In Csv.quote t.

(** The scanner with the one-character delimiter [dc] reads the encoded
    field [e] as the cell [v]. *)
Definition reads_as (dc : ascii) (e v : Csv.text) : Prop :=
  forall t R row cur, Notions.tail_ok t ->
    Csv.scan [dc] (e ++ t)
      {| Csv.rows := R; Csv.row := row; Csv.cur := cur; Csv.inQuotes := false |}
    = Csv.scan [dc] t
        {| Csv.rows := R; Csv.row := row; Csv.cur := cur ++ v; Csv.inQuotes := false |}.

(** A key that can be written as it is: no double quote, no delimiter,
    no line feed and no carriage return. *)
Definition plain_for (dc : ascii) (s : Csv.text) : bool :=
  forallb (fun c => negb (Csv.is_char c Csv.quote || Csv.is_char c dc
                          || Csv.is_char c Csv.LF || Csv.is_char c Csv.CR)) s.

(** A value that [esc] writes safely: a carriage return or the
    delimiter occurs only in a value that [esc] wraps in quotes. *)
Definition safe_for (dc : ascii) (v : opt Csv.text) : bool :=
  match v with
  | Val s =>
      negb (existsb (fun c => Csv.is_char c Csv.CR || Csv.is_char c dc) s)
      || Csv.needs_quotes s
  | _ => true
  end.

Definition well_formed_for (dc : ascii) (rs : list Csv.record) : bool :=
  forallb (fun r : Csv.record =>
             forallb (fun kv => plain_for dc (fst kv) && safe_for dc (snd kv)) r) rs.

(** No key names a member of [Object.prototype] whose text holds the
    delimiter: what a record inherits under a key that it lacks is
    written safely too. *)
Definition inherited_safe_for (dc : ascii) (rs : list Csv.record) : bool :=
  forallb (fun k => safe_for dc (Csv.inherited k)) (Notions.all_keys rs).

(** The keys of an exported point, in the order of the header. *)
Definition export_keys : list Csv.text :=
  [Csv.txt "ds"; Csv.txt "yhat"; Csv.txt "yhat_lower"; Csv.txt "yhat_upper"].

(** The decimal numeral of a natural number: its digits, without a
    sign and without leading zeros. *)
Definition numeral (n : N) : string :=
  DecimalString.NilZero.string_of_uint (N.to_uint n).

(** A decimal digit. *)
Definition is_digit (c : ascii) : bool :=
  ((48 <=? code c) && (code c <=? 57))%N.

End Readings.

(** * Properties *)

Import Notions.

Import Utils.

(** ** Binary64 rounding *)

Section Rounding.
Import NumOps.
Local Open Scope Q_scope.

(** *** Powers of two *)
Lemma exp2_pos e : 0 < exp2 e.
Proof. apply Qpower_0_lt. reflexivity. Qed.

Lemma exp2_plus a b : exp2 (a + b) == exp2 a * exp2 b.
Proof. apply Qpower_plus. discriminate. Qed.

Lemma exp2_minus a b : exp2 (a - b) == exp2 a / exp2 b.
Proof. apply Qpower_minus. discriminate. Qed.

Lemma exp2_le a b : (a <= b)%Z -> exp2 a <= exp2 b.
Proof. intros H. apply Qpower_le_compat_l; [exact H | discriminate]. Qed.

Lemma exp2_lt a b : (a < b)%Z -> exp2 a < exp2 b.
Proof. intros H. apply Qpower_lt_compat_l; [exact H | reflexivity]. Qed.

Lemma exp2_lt_inv a b : exp2 a < exp2 b -> (a < b)%Z.
Proof. intros H. apply (Qpower_lt_compat_l_inv 2); [exact H | reflexivity]. Qed.

Lemma exp2_Z n : (0 <= n)%Z -> exp2 n == inject_Z (2 ^ n).
Proof. intros H. unfold exp2. rewrite Zpower_Qpower by exact H. reflexivity. Qed.

Lemma exp2_succ e : exp2 (e + 1) == 2 * exp2 e.
Proof. rewrite exp2_plus. change (exp2 1) with 2. ring. Qed.

(** *** The binary exponent *)
Lemma ratio_bounds (A B N D : Q) :
  0 < A -> 0 < B -> A <= N -> N < 2 * A -> B <= D -> D < 2 * B ->
  A / B / 2 <= N / D /\ N / D < 2 * (A / B).
Proof.
  intros PA PB EA EA' EB EB'. split.
  - apply Qle_shift_div_l; [lra|].
    assert (A / B / 2 * D == A * (D / (2 * B))) as -> by (field; lra).
    assert (D / (2 * B) <= 1) by (apply Qle_shift_div_r; lra).
    nra.
  - apply Qlt_shift_div_r; [lra|].
    assert (2 * (A / B) * D == (2 * A) * (D / B)) as -> by (field; lra).
    assert (1 <= D / B) by (apply Qle_shift_div_l; lra).
    nra.
Qed.

Lemma ilog2_spec q : 0 < q -> exp2 (ilog2 q) <= q /\ q < exp2 (ilog2 q + 1).
Proof.
  intros Hq. unfold ilog2.
  destruct q as [n d]. cbn [Qnum Qden].
  assert (0 < n)%Z as Hn by (unfold Qlt in Hq; simpl in Hq; lia).
  set (a := Z.log2 n). set (b := Z.log2 (Z.pos d)).
  destruct (Z.log2_spec n Hn) as [Ha1 Ha2]. fold a in Ha1, Ha2.
  destruct (Z.log2_spec (Z.pos d) ltac:(lia)) as [Hb1 Hb2]. fold b in Hb1, Hb2.
  assert (0 <= a)%Z as Ha0 by apply Z.log2_nonneg.
  assert (0 <= b)%Z as Hb0 by apply Z.log2_nonneg.
  pose proof (exp2_pos a) as PA. pose proof (exp2_pos b) as PB.
  assert (EA : exp2 a <= inject_Z n).
  { rewrite exp2_Z by exact Ha0. rewrite <- Zle_Qle. exact Ha1. }
  assert (EA' : inject_Z n < 2 * exp2 a).
  { rewrite <- exp2_succ, exp2_Z by lia. rewrite <- Zlt_Qlt. exact Ha2. }
  assert (EB : exp2 b <= inject_Z (Z.pos d)).
  { rewrite exp2_Z by exact Hb0. rewrite <- Zle_Qle. exact Hb1. }
  assert (EB' : inject_Z (Z.pos d) < 2 * exp2 b).
  { rewrite <- exp2_succ, exp2_Z by lia. rewrite <- Zlt_Qlt. exact Hb2. }
  destruct (ratio_bounds _ _ _ _ PA PB EA EA' EB EB') as [Hlow Hup].
  rewrite <- (Qmake_Qdiv n d) in Hlow, Hup.
  rewrite <- exp2_minus in Hlow, Hup. rewrite <- exp2_succ in Hup.
  assert (E0 : exp2 (a - b - 1) == exp2 (a - b) / 2).
  { assert (exp2 (a - b) == 2 * exp2 (a - b - 1)) as ->; [|field].
    rewrite <- exp2_succ. replace (a - b - 1 + 1)%Z with (a - b)%Z by lia. reflexivity. }
  destruct (Qle_bool (exp2 (a - b)) (n # d)) eqn:E.
  - apply Qle_bool_iff in E. split; [exact E | exact Hup].
  - split; [rewrite E0; exact Hlow|].
    replace (a - b - 1 + 1)%Z with (a - b)%Z by lia.
    apply Qnot_le_lt. rewrite <- Qle_bool_iff. congruence.
Qed.

Lemma ilog2_unique q e : exp2 e <= q -> q < exp2 (e + 1) -> ilog2 q = e.
Proof.
  intros H1 H2.
  assert (0 < q) as Hq by (pose proof (exp2_pos e); lra).
  destruct (ilog2_spec q Hq) as [H3 H4].
  assert (ilog2 q < e + 1)%Z by (apply exp2_lt_inv; lra).
  assert (e < ilog2 q + 1)%Z by (apply exp2_lt_inv; lra).
  lia.
Qed.

Lemma ilog2_comp p q : 0 < p -> p == q -> ilog2 p = ilog2 q.
Proof.
  intros Hp E. destruct (ilog2_spec p Hp) as [H1 H2].
  symmetry. apply ilog2_unique; rewrite <- E; assumption.
Qed.

Lemma ilog2_mono p q : 0 < p -> p <= q -> (ilog2 p <= ilog2 q)%Z.
Proof.
  intros Hp Hpq. destruct (ilog2_spec p Hp) as [H1 _].
  destruct (ilog2_spec q ltac:(lra)) as [_ H2].
  assert (ilog2 p < ilog2 q + 1)%Z by (apply exp2_lt_inv; lra). lia.
Qed.

(** *** The nearest integer *)
Lemma nearest_even_cases x :
  (nearest_even x = Qfloor x /\ x - inject_Z (Qfloor x) <= 1 # 2
   /\ (x - inject_Z (Qfloor x) == 1 # 2 -> Z.even (Qfloor x) = true))
  \/ (nearest_even x = (Qfloor x + 1)%Z /\ 1 # 2 <= x - inject_Z (Qfloor x)
      /\ (x - inject_Z (Qfloor x) == 1 # 2 -> Z.even (Qfloor x) = false)).
Proof.
  unfold nearest_even. set (f := Qfloor x).
  destruct (Qcompare_spec (x - inject_Z f) (1 # 2)) as [E | E | E].
  - destruct (Z.even f) eqn:Ev; [left | right]; (split; [reflexivity|]); split; auto; lra.
  - left. split; [reflexivity|]. split; [lra|]. intros E'. lra.
  - right. split; [reflexivity|]. split; [lra|]. intros E'. lra.
Qed.

Lemma floor_bounds x : inject_Z (Qfloor x) <= x /\ x < inject_Z (Qfloor x) + 1.
Proof.
  split; [apply Qfloor_le|].
  pose proof (Qlt_floor x) as H. rewrite inject_Z_plus in H. exact H.
Qed.

Lemma nearest_even_near x :
  inject_Z (nearest_even x) - x <= 1 # 2 /\ x - inject_Z (nearest_even x) <= 1 # 2.
Proof.
  destruct (floor_bounds x) as [H1 H2].
  destruct (nearest_even_cases x) as [(-> & H & _) | (-> & H & _)].
  - split; lra.
  - rewrite inject_Z_plus. change (inject_Z 1) with 1. split; lra.
Qed.

Lemma nearest_even_Z n : nearest_even (inject_Z n) = n.
Proof.
  unfold nearest_even. rewrite Qfloor_Z.
  assert (Qcompare (inject_Z n - inject_Z n) (1 # 2) = Lt) as ->; [|reflexivity].
  rewrite <- Qlt_alt. lra.
Qed.

Lemma nearest_even_comp x y : x == y -> nearest_even x = nearest_even y.
Proof.
  intros E. unfold nearest_even. rewrite (Qfloor_comp _ _ E).
  assert (Qcompare (x - inject_Z (Qfloor y)) (1 # 2) = Qcompare (y - inject_Z (Qfloor y)) (1 # 2)) as ->;
    [|reflexivity].
  apply Qcompare_comp; [rewrite E; reflexivity | reflexivity].
Qed.

Lemma nearest_even_mono x y : x <= y -> (nearest_even x <= nearest_even y)%Z.
Proof.
  intros Hxy.
  pose proof (Qfloor_resp_le _ _ Hxy) as Hf.
  destruct (floor_bounds x) as [X1 X2]. destruct (floor_bounds y) as [Y1 Y2].
  destruct (nearest_even_cases x) as [(-> & Hx & Ex) | (-> & Hx & Ex)];
    destruct (nearest_even_cases y) as [(-> & Hy & Ey) | (-> & Hy & Ey)]; try lia.
  destruct (Z.eq_dec (Qfloor x) (Qfloor y)) as [E | Hne]; [|lia].
  exfalso. rewrite E in *.
  assert (x - inject_Z (Qfloor y) == 1 # 2) as E1 by lra.
  assert (y - inject_Z (Qfloor y) == 1 # 2) as E2 by lra.
  specialize (Ex E1). specialize (Ey E2). congruence.
Qed.

Lemma nearest_even_ge x n : inject_Z n <= x -> (n <= nearest_even x)%Z.
Proof. intros H. rewrite <- (nearest_even_Z n). apply nearest_even_mono. exact H. Qed.

Lemma nearest_even_le x n : x <= inject_Z n -> (nearest_even x <= n)%Z.
Proof. intros H. rewrite <- (nearest_even_Z n). apply nearest_even_mono. exact H. Qed.

(** *** The quantum and the nearest multiple *)
Lemma quantum_min q : (-1074 <= quantum q)%Z.
Proof. unfold quantum. lia. Qed.

Lemma quantum_upper q : 0 < q -> q < exp2 (quantum q + 53).
Proof.
  intros Hq. destruct (ilog2_spec q Hq) as [_ H].
  eapply Qlt_le_trans; [exact H|]. apply exp2_le. unfold quantum. lia.
Qed.

Lemma quantum_lower q : 0 < q -> (-1074 < quantum q)%Z -> exp2 (quantum q + 52) <= q.
Proof.
  intros Hq Hg. destruct (ilog2_spec q Hq) as [H _].
  eapply Qle_trans; [|exact H]. apply exp2_le. unfold quantum in *. lia.
Qed.

Lemma quantum_mono p q : 0 < p -> p <= q -> (quantum p <= quantum q)%Z.
Proof.
  intros Hp Hpq. pose proof (ilog2_mono p q Hp Hpq). unfold quantum. lia.
Qed.

Lemma quantum_comp p q : 0 < p -> p == q -> quantum p = quantum q.
Proof. intros Hp E. unfold quantum. rewrite (ilog2_comp p q Hp E). reflexivity. Qed.

Lemma scaled_lt q g n : q < exp2 (g + n) -> q / exp2 g < exp2 n.
Proof.
  intros H. pose proof (exp2_pos g). apply Qlt_shift_div_r; [assumption|].
  rewrite exp2_plus in H. rewrite Qmult_comm. exact H.
Qed.

Lemma scaled_ge q g n : exp2 (g + n) <= q -> exp2 n <= q / exp2 g.
Proof.
  intros H. pose proof (exp2_pos g). apply Qle_shift_div_l; [assumption|].
  rewrite exp2_plus in H. rewrite Qmult_comm. exact H.
Qed.

Lemma nearest_nonneg q : 0 <= q -> 0 <= nearest q.
Proof.
  intros Hq. unfold nearest. pose proof (exp2_pos (quantum q)) as P.
  assert (0 <= nearest_even (q / exp2 (quantum q)))%Z as Hm.
  { apply (nearest_even_ge _ 0). apply Qle_shift_div_l; [exact P|].
    change (inject_Z 0) with 0. lra. }
  assert (0 <= inject_Z (nearest_even (q / exp2 (quantum q)))) as Hm'.
  { change 0 with (inject_Z 0). rewrite <- Zle_Qle. exact Hm. }
  nra.
Qed.

Lemma nearest_upper q : 0 < q -> nearest q <= exp2 (quantum q + 53).
Proof.
  intros Hq. unfold nearest. pose proof (exp2_pos (quantum q)) as P.
  assert (nearest_even (q / exp2 (quantum q)) <= 2 ^ 53)%Z as Hm.
  { apply nearest_even_le. rewrite <- exp2_Z by lia.
    apply Qlt_le_weak, scaled_lt, quantum_upper, Hq. }
  rewrite Zle_Qle, <- exp2_Z in Hm by lia.
  rewrite exp2_plus. rewrite (Qmult_comm (exp2 (quantum q))).
  apply Qmult_le_compat_r; [exact Hm | lra].
Qed.

Lemma nearest_lower q : 0 < q -> (-1074 < quantum q)%Z -> exp2 (quantum q + 52) <= nearest q.
Proof.
  intros Hq Hg. unfold nearest. pose proof (exp2_pos (quantum q)) as P.
  assert (2 ^ 52 <= nearest_even (q / exp2 (quantum q)))%Z as Hm.
  { apply nearest_even_ge. rewrite <- exp2_Z by lia.
    apply scaled_ge, quantum_lower; assumption. }
  rewrite Zle_Qle, <- exp2_Z in Hm by lia.
  rewrite exp2_plus. rewrite (Qmult_comm (exp2 (quantum q))).
  apply Qmult_le_compat_r; [exact Hm | lra].
Qed.

Lemma nearest_mono p q : 0 < p -> p <= q -> nearest p <= nearest q.
Proof.
  intros Hp Hpq. pose proof (quantum_mono p q Hp Hpq) as Hg.
  destruct (Z.eq_dec (quantum p) (quantum q)) as [E | Hne].
  - unfold nearest. rewrite E. pose proof (exp2_pos (quantum q)) as P.
    apply Qmult_le_compat_r; [|lra]. rewrite <- Zle_Qle.
    apply nearest_even_mono. apply Qmult_le_compat_r; [exact Hpq|].
    apply Qlt_le_weak, Qinv_lt_0_compat, P.
  - eapply Qle_trans; [apply nearest_upper; exact Hp|].
    eapply Qle_trans; [|apply nearest_lower; [lra | pose proof (quantum_min p); lia]].
    apply exp2_le. lia.
Qed.

Lemma nearest_comp p q : 0 < p -> p == q -> nearest p = nearest q.
Proof.
  intros Hp E. unfold nearest. rewrite (quantum_comp p q Hp E).
  rewrite (nearest_even_comp (p / exp2 (quantum q)) (q / exp2 (quantum q))); [reflexivity|].
  rewrite E. reflexivity.
Qed.

(** The distance of a real number from its double: half a quantum. *)
Lemma nearest_error q :
  nearest q - q <= exp2 (quantum q) / 2 /\ q - nearest q <= exp2 (quantum q) / 2.
Proof.
  unfold nearest. set (g := quantum q). pose proof (exp2_pos g) as P.
  destruct (nearest_even_near (q / exp2 g)) as [H1 H2].
  set (m := inject_Z (nearest_even (q / exp2 g))) in *.
  assert (q == q / exp2 g * exp2 g) as E by (field; lra).
  set (x := q / exp2 g) in *. split.
  - assert (m * exp2 g - q == (m - x) * exp2 g) as -> by (rewrite E at 1; ring).
    assert (exp2 g / 2 == (1 # 2) * exp2 g) as -> by field.
    apply Qmult_le_compat_r; [exact H1 | lra].
  - assert (q - m * exp2 g == (x - m) * exp2 g) as -> by (rewrite E at 1; ring).
    assert (exp2 g / 2 == (1 # 2) * exp2 g) as -> by field.
    apply Qmult_le_compat_r; [exact H2 | lra].
Qed.

Lemma overflow_scaled : overflow_bound / exp2 971 == inject_Z (2 ^ 53) - (1 # 2).
Proof. vm_compute. reflexivity. Qed.

Lemma nearest_overflow_bound : exp2 1024 <= nearest overflow_bound.
Proof. apply Qle_bool_iff. vm_compute. reflexivity. Qed.

Lemma overflow_bound_lt : overflow_bound < exp2 1024.
Proof. vm_compute. reflexivity. Qed.

Lemma overflow_bound_pos : 0 < overflow_bound.
Proof. vm_compute. reflexivity. Qed.

Lemma largest_double :
  exp2 1023 <= exp2 1024 - exp2 971
  /\ inject_Z (2 ^ 53 - 1) * exp2 971 <= exp2 1024 - exp2 971
  /\ exp2 1024 - exp2 971 < overflow_bound.
Proof. repeat split; vm_compute; discriminate || reflexivity. Qed.

(** Below the bound the nearest multiple is at most the largest double. *)
Lemma nearest_finite q : 0 < q -> q < overflow_bound ->
  nearest q <= exp2 1024 - exp2 971.
Proof.
  intros Hq Hb. destruct largest_double as (L1 & L2 & _).
  destruct (Z_le_gt_dec (quantum q) 970) as [Hg | Hg].
  - eapply Qle_trans; [apply nearest_upper; exact Hq|].
    eapply Qle_trans; [|exact L1]. apply exp2_le. lia.
  - pose proof (quantum_lower q Hq ltac:(lia)) as Hl.
    pose proof overflow_bound_lt as Ho.
    assert (quantum q + 52 < 1024)%Z by (apply exp2_lt_inv; lra).
    assert (quantum q = 971%Z) as Eg by lia.
    unfold nearest. rewrite Eg.
    assert (q / exp2 971 < inject_Z (2 ^ 53) - (1 # 2)) as Hx.
    { rewrite <- overflow_scaled. apply Qmult_lt_compat_r; [|exact Hb].
      apply Qinv_lt_0_compat, exp2_pos. }
    destruct (nearest_even_near (q / exp2 971)) as [H1 _].
    assert (inject_Z (nearest_even (q / exp2 971)) < inject_Z (2 ^ 53)) as Hm by lra.
    rewrite <- Zlt_Qlt in Hm.
    assert (nearest_even (q / exp2 971) <= 2 ^ 53 - 1)%Z as Hm' by lia.
    rewrite Zle_Qle in Hm'.
    pose proof (exp2_pos 971).
    eapply Qle_trans; [|exact L2]. apply Qmult_le_compat_r; [exact Hm' | lra].
Qed.

Lemma nearest_infinite q : overflow_bound <= q -> exp2 1024 <= nearest q.
Proof.
  intros Hb. eapply Qle_trans; [apply nearest_overflow_bound|].
  apply nearest_mono; [apply overflow_bound_pos | exact Hb].
Qed.

(** *** What [round64] returns *)
Lemma round_pos_finite q : 0 < q -> q < overflow_bound ->
  round_pos q = Fin (Qred (nearest q)).
Proof.
  intros Hq Hb. unfold round_pos. cbv zeta.
  pose proof (nearest_finite q Hq Hb) as H. pose proof (exp2_pos 971) as P.
  destruct (Qle_bool (exp2 1024) (nearest q)) eqn:E; [|reflexivity].
  apply Qle_bool_iff in E. lra.
Qed.

Lemma round_pos_infinite q : overflow_bound <= q -> round_pos q = PInf.
Proof.
  intros Hb. unfold round_pos. cbv zeta.
  rewrite (proj2 (Qle_bool_iff _ _) (nearest_infinite q Hb)). reflexivity.
Qed.

Lemma round_pos_cases q : 0 < q ->
  (round_pos q = PInf /\ overflow_bound <= q)
  \/ (round_pos q = Fin (Qred (nearest q)) /\ q < overflow_bound).
Proof.
  intros Hq. destruct (Qlt_le_dec q overflow_bound) as [H | H].
  - right. split; [apply round_pos_finite; assumption | exact H].
  - left. split; [apply round_pos_infinite; exact H | exact H].
Qed.

Lemma le_refl_Fin q : le (Fin q) (Fin q) = true.
Proof. apply Qle_bool_iff. lra. Qed.

Lemma round_pos_mono p q : 0 < p -> p <= q -> le (round_pos p) (round_pos q) = true.
Proof.
  intros Hp Hpq. pose proof (nearest_mono p q Hp Hpq) as Hn.
  destruct (round_pos_cases p Hp) as [[-> Hb] | [-> Hb]];
    destruct (round_pos_cases q ltac:(lra)) as [[-> Hb'] | [-> Hb']]; try reflexivity.
  - lra.
  - cbn [le]. apply Qle_bool_iff. rewrite !Qred_correct. exact Hn.
Qed.

Lemma round_pos_comp p q : 0 < p -> p == q -> round_pos p = round_pos q.
Proof. intros Hp E. unfold round_pos. rewrite (nearest_comp p q Hp E). reflexivity. Qed.

Lemma round64_comp p q : p == q -> round64 p = round64 q.
Proof.
  intros E. unfold round64. rewrite (Qcompare_comp p q E 0 0 (Qeq_refl 0)).
  destruct (Qcompare_spec q 0) as [H | H | H]; [reflexivity | |].
  - f_equal. apply round_pos_comp; [lra | rewrite E; reflexivity].
  - apply round_pos_comp; [lra | exact E].
Qed.

Lemma round64_zero q : q == 0 -> round64 q = Fin 0.
Proof. intros E. rewrite (round64_comp q 0 E). reflexivity. Qed.

Lemma round64_pos q : 0 < q -> round64 q = round_pos q.
Proof. intros H. unfold round64. rewrite (proj1 (Qgt_alt _ _) H). reflexivity. Qed.

Lemma round64_neg q : q < 0 -> round64 q = negate (round_pos (- q)).
Proof. intros H. unfold round64. rewrite (proj1 (Qlt_alt _ _) H). reflexivity. Qed.

(** The three cases: the two infinities and the finite doubles. *)
Lemma round64_cases q :
  (round64 q = PInf /\ overflow_bound <= q)
  \/ (round64 q = NInf /\ q <= - overflow_bound)
  \/ (exists r, round64 q = Fin r /\ - overflow_bound < q /\ q < overflow_bound
                /\ (0 <= q -> 0 <= r) /\ (q <= 0 -> r <= 0)).
Proof.
  pose proof overflow_bound_pos as Po.
  destruct (Qcompare_spec q 0) as [H | H | H].
  - right. right. exists 0. rewrite (round64_zero q H). repeat split; lra.
  - rewrite (round64_neg q H).
    destruct (round_pos_cases (- q) ltac:(lra)) as [[-> Hb] | [-> Hb]].
    + right. left. split; [reflexivity | lra].
    + right. right. eexists. split; [reflexivity|].
      pose proof (nearest_nonneg (- q) ltac:(lra)) as Hn.
      repeat split; try lra; intros _; rewrite Qred_correct; lra.
  - rewrite (round64_pos q H).
    destruct (round_pos_cases q H) as [[-> Hb] | [-> Hb]].
    + left. split; [reflexivity | exact Hb].
    + right. right. eexists. split; [reflexivity|].
      pose proof (nearest_nonneg q ltac:(lra)) as Hn.
      repeat split; try lra; intros _; rewrite Qred_correct; lra.
Qed.

Lemma round64_not_NaN q : round64 q <> NaN.
Proof.
  destruct (round64_cases q) as [[-> _] | [[-> _] | (r & -> & _)]]; discriminate.
Qed.

Lemma round64_finite q : - overflow_bound < q -> q < overflow_bound ->
  exists r, round64 q = Fin r /\ (0 <= q -> 0 <= r) /\ (q <= 0 -> r <= 0).
Proof.
  intros H1 H2.
  destruct (round64_cases q) as [[_ H] | [[_ H] | (r & E & _ & _ & Hr)]]; try lra.
  exists r. split; [exact E | exact Hr].
Qed.

Lemma round64_PInf q : overflow_bound <= q -> round64 q = PInf.
Proof.
  intros H. pose proof overflow_bound_pos.
  destruct (round64_cases q) as [[E _] | [[_ H'] | (r & _ & _ & H' & _)]];
    [exact E | lra | lra].
Qed.

Lemma round64_PInf_inv q : round64 q = PInf -> overflow_bound <= q.
Proof.
  intros E.
  destruct (round64_cases q) as [[_ H] | [[E' _] | (r & E' & _)]];
    [exact H | congruence | congruence].
Qed.

Lemma round64_nonneg q : 0 <= q ->
  round64 q = PInf \/ exists r, round64 q = Fin r /\ 0 <= r.
Proof.
  intros H. pose proof overflow_bound_pos.
  destruct (round64_cases q) as [[E _] | [[_ H'] | (r & E & _ & _ & Hr & _)]].
  - left. exact E.
  - lra.
  - right. exists r. split; [exact E | apply Hr; exact H].
Qed.

Lemma le_negate a b : le a b = true -> le (negate b) (negate a) = true.
Proof.
  destruct a as [p| | |], b as [q| | |]; cbn [le negate]; try discriminate; try reflexivity.
  rewrite !Qle_bool_iff. lra.
Qed.

Lemma round64_mono p q : p <= q -> le (round64 p) (round64 q) = true.
Proof.
  intros Hpq.
  destruct (Qcompare_spec p 0) as [Hp | Hp | Hp];
    destruct (Qcompare_spec q 0) as [Hq | Hq | Hq]; try lra.
  - rewrite (round64_zero p Hp), (round64_zero q Hq). reflexivity.
  - rewrite (round64_zero p Hp).
    destruct (round64_nonneg q ltac:(lra)) as [-> | (r & -> & Hr)]; [reflexivity|].
    apply Qle_bool_iff. exact Hr.
  - rewrite (round64_zero q Hq), (round64_neg p Hp).
    destruct (round_pos_cases (- p) ltac:(lra)) as [[-> _] | [-> _]]; [reflexivity|].
    cbn [negate le]. apply Qle_bool_iff. rewrite Qred_correct.
    pose proof (nearest_nonneg (- p) ltac:(lra)). lra.
  - rewrite (round64_neg p Hp), (round64_neg q Hq).
    apply le_negate. apply round_pos_mono; lra.
  - rewrite (round64_neg p Hp).
    destruct (round64_nonneg q ltac:(lra)) as [-> | (r & -> & Hr)];
      destruct (round_pos_cases (- p) ltac:(lra)) as [[-> _] | [-> _]]; try reflexivity.
    cbn [negate le]. apply Qle_bool_iff. rewrite Qred_correct.
    pose proof (nearest_nonneg (- p) ltac:(lra)). lra.
  - rewrite (round64_pos p Hp), (round64_pos q Hq). apply round_pos_mono; lra.
Qed.

(** *** Whole numbers up to [2 ^ 53] are doubles *)
Lemma Qred_inject_Z z : Qred (inject_Z z) = inject_Z z.
Proof.
  unfold Qred, inject_Z. 
  pose proof (Z.ggcd_gcd z 1) as Hg. pose proof (Z.ggcd_correct_divisors z 1) as Hd.
  destruct (Z.ggcd z 1) as [g [aa bb]]. cbn [fst snd] in *.
  rewrite Z.gcd_1_r in Hg. subst g. destruct Hd as [Ha Hb].
  assert (aa = z) as -> by lia. assert (bb = 1%Z) as -> by lia. reflexivity.
Qed.

Lemma nearest_whole z : (0 < z < 2 ^ 53)%Z -> nearest (inject_Z z) == inject_Z z.
Proof.
  intros Hz. set (q := inject_Z z).
  assert (0 < q) as Hq by (unfold q; change 0 with (inject_Z 0); rewrite <- Zlt_Qlt; lia).
  assert (quantum q <= 0)%Z as Hg.
  { destruct (ilog2_spec q Hq) as [H _].
    assert (q < exp2 53) as Hlt.
    { rewrite exp2_Z by lia. unfold q. rewrite <- Zlt_Qlt. lia. }
    assert (ilog2 q < 53)%Z by (apply exp2_lt_inv; lra).
    unfold quantum. lia. }
  pose proof (quantum_min q) as Hg'.
  unfold nearest. set (g := quantum q) in *.
  assert (E : q / exp2 g == inject_Z (z * 2 ^ (- g))).
  { rewrite inject_Z_mult, <- exp2_Z by lia. unfold q.
    assert (exp2 (- g) == / exp2 g) as -> by (apply Qpower_opp). reflexivity. }
  rewrite (nearest_even_comp _ _ E), nearest_even_Z.
  rewrite inject_Z_mult, <- exp2_Z by lia.
  assert (exp2 (- g) == / exp2 g) as -> by (apply Qpower_opp).
  pose proof (exp2_pos g). unfold q. field. lra.
Qed.

Lemma round64_whole_pos z : (0 < z <= 2 ^ 53)%Z -> round64 (inject_Z z) = Fin (inject_Z z).
Proof.
  intros Hz. destruct (Z.eq_dec z (2 ^ 53)%Z) as [-> | Hne]; [vm_compute; reflexivity|].
  assert (0 < inject_Z z) as Hq by (change 0 with (inject_Z 0); rewrite <- Zlt_Qlt; lia).
  rewrite (round64_pos _ Hq), round_pos_finite.
  - rewrite (Qred_complete _ _ (nearest_whole z ltac:(lia))). f_equal. apply Qred_inject_Z.
  - exact Hq.
  - assert (exp2 53 < overflow_bound) as Hb by (vm_compute; reflexivity).
    eapply Qlt_trans; [|exact Hb].
    rewrite exp2_Z by lia. rewrite <- Zlt_Qlt. lia.
Qed.

Lemma round64_whole z : (- 2 ^ 53 <= z <= 2 ^ 53)%Z -> round64 (inject_Z z) = Fin (inject_Z z).
Proof.
  intros Hz. destruct (Z.lt_trichotomy z 0) as [H | [-> | H]].
  - assert (inject_Z z < 0) as Hq by (change 0 with (inject_Z 0); rewrite <- Zlt_Qlt; lia).
    rewrite (round64_neg _ Hq).
    assert (- inject_Z z == inject_Z (- z)) as E by (rewrite inject_Z_opp; reflexivity).
    assert (0 < - inject_Z z) as Hq' by lra.
    rewrite (round_pos_comp _ _ Hq' E), <- (round64_pos (inject_Z (- z))) by lra.
    rewrite round64_whole_pos by lia. cbn [negate]. f_equal.
    unfold inject_Z, Qopp. cbn [Qnum Qden]. rewrite Z.opp_involutive. reflexivity.
  - reflexivity.
  - apply round64_whole_pos. lia.
Qed.

(** *** The relative error in the normal range *)
Lemma nearest_relative q : exp2 (-1022) <= q ->
  nearest q <= q * (1 + exp2 (-53)) /\ q * (1 - exp2 (-53)) <= nearest q.
Proof.
  intros Hq. pose proof (exp2_pos (-1022)) as P0.
  assert (0 < q) as Hq0 by lra.
  destruct (nearest_error q) as [H1 H2].
  destruct (ilog2_spec q Hq0) as [He _].
  assert (-1022 <= ilog2 q)%Z as Hi.
  { destruct (ilog2_spec q Hq0) as [_ Hu].
    assert (-1022 < ilog2 q + 1)%Z by (apply exp2_lt_inv; lra). lia. }
  assert (quantum q = ilog2 q - 52)%Z as Eg by (unfold quantum; lia).
  assert (exp2 (quantum q) / 2 <= q * exp2 (-53)) as Hb.
  { rewrite Eg.
    assert (exp2 (ilog2 q - 52) / 2 == exp2 (ilog2 q) * exp2 (-53)) as ->.
    { replace (ilog2 q - 52)%Z with (ilog2 q + -53 + 1)%Z by lia.
      rewrite exp2_succ, exp2_plus. field. }
    apply Qmult_le_compat_r; [exact He|]. apply Qlt_le_weak, exp2_pos. }
  split; lra.
Qed.

(** A finite result is a double: it is at most the largest one in
    magnitude. *)
Lemma round64_bounded q r : round64 q = Fin r ->
  - overflow_bound < r /\ r < overflow_bound /\ r < exp2 1024.
Proof.
  destruct largest_double as (_ & _ & L3). pose proof overflow_bound_lt as Lo.
  pose proof overflow_bound_pos as Po.
  destruct (Qcompare_spec q 0) as [H | H | H].
  - rewrite (round64_zero q H). intros [= <-]. lra.
  - rewrite (round64_neg q H).
    destruct (round_pos_cases (- q) ltac:(lra)) as [[-> _] | [-> Hb]]; [discriminate|].
    cbn [negate]. intros [= <-]. rewrite Qred_correct.
    pose proof (nearest_finite (- q) ltac:(lra) Hb).
    pose proof (nearest_nonneg (- q) ltac:(lra)). lra.
  - rewrite (round64_pos q H).
    destruct (round_pos_cases q H) as [[-> _] | [-> Hb]]; [discriminate|].
    intros [= <-]. rewrite Qred_correct.
    pose proof (nearest_finite q H Hb). pose proof (nearest_nonneg q ltac:(lra)). lra.
Qed.

Lemma round64_relative q r : exp2 (-1022) <= q -> round64 q = Fin r ->
  r <= q * (1 + exp2 (-53)) /\ q * (1 - exp2 (-53)) <= r.
Proof.
  intros Hq E. pose proof (exp2_pos (-1022)) as P.
  rewrite round64_pos in E by lra.
  destruct (round_pos_cases q ltac:(lra)) as [[E' _] | [E' _]]; [congruence|].
  rewrite E' in E. injection E as <-. rewrite Qred_correct.
  apply nearest_relative. exact Hq.
Qed.

End Rounding.

(** ** Numeric coercion *)

Section Coercion.
Import ManualExogGrid.

Example Number_1234 : Number "1234" = Fin 1234. Proof. reflexivity. Qed.
Example Number_comma : Number "1,234" = NaN. Proof. reflexivity. Qed.
Example Number_frac : Number " -12.50e1 " = Fin (-125). Proof. reflexivity. Qed.
Example Number_half : Number ".5" = Fin (1#2). Proof. reflexivity. Qed.
Example Number_hex : Number "0x1F" = Fin 31. Proof. reflexivity. Qed.
Example Number_inf : Number "-Infinity" = NInf. Proof. reflexivity. Qed.
Example Number_blank : Number "  " = Fin 0. Proof. reflexivity. Qed.
Example Number_dot : Number "." = NaN. Proof. reflexivity. Qed.
Example Number_5dot : Number "5." = Fin 5. Proof. reflexivity. Qed.
Example Number_unit : Number "12px" = NaN. Proof. reflexivity. Qed.

Lemma toNumber_finite v n : toNumber v = Some n -> isFinite n = true.
Proof.
  destruct v as [m|s| |]; simpl; try discriminate.
  - destruct (isFinite m) eqn:E; intros [= <-]; exact E.
  - destruct (isFinite (Number s)) eqn:E; intros [= <-]; exact E.
Qed.

Lemma toNumber_of_finite (q : Q) : toNumber (OfNumber (Fin q)) = Some (Fin q).
Proof. reflexivity. Qed.

(** With a finite fallback the strict coercer returns a finite number. *)
Lemma toNumberStrict_finite v (x : Q) : isFinite (toNumberStrict v (Fin x)) = true.
Proof.
  unfold toNumberStrict. destruct (toNumber v) as [n|] eqn:E.
  - eapply toNumber_finite; eassumption.
  - reflexivity.
Qed.

(** C8, as stated, fails: with the fallback [NaN] (or an infinity) the
    strict coercer hands the fallback through and the optional coercer
    answers [undefined]. *)
Lemma toNumber_toNumberStrict_nan_fallback :
  toNumber (OfNumber (toNumberStrict OfNull NaN)) = None
  /\ toNumber (OfNumber (toNumberStrict (OfString "abc") PInf)) = None.
Proof. split; reflexivity. Qed.

(** C8, amended: for every raw value [v] and every finite fallback [x]
    (the default [0] among them), [toNumber(toNumberStrict(v, x))] is
    defined, and it is the number that [toNumberStrict] returned. *)
Theorem toNumber_toNumberStrict_defined (v : NumLike) (x : Q) :
  toNumber (OfNumber (toNumberStrict v (Fin x))) = Some (toNumberStrict v (Fin x))
  /\ toNumber (OfNumber (toNumberStrict0 v)) = Some (toNumberStrict0 v).
Proof.
  assert (H : forall y : Q,
    toNumber (OfNumber (toNumberStrict v (Fin y))) = Some (toNumberStrict v (Fin y))).
  { intros y. pose proof (toNumberStrict_finite v y) as F.
    destruct (toNumberStrict v (Fin y)); simpl in *; congruence. }
  split; [apply H | apply (H 0%Q)].
Qed.

Lemma toNumberOrZero_finite v : isFinite (toNumberOrZero v) = true.
Proof.
  destruct v as [n|s| |]; simpl; try reflexivity.
  - destruct (isFinite n) eqn:E; [exact E | reflexivity].
  - destruct s; [reflexivity|].
    destruct (isFinite (Number _)) eqn:E; [exact E | reflexivity].
Qed.

Lemma toNumberOrZero_string s :
  toNumberOrZero (OfString s) = or_zero (Number (strip_separators s)).
Proof. destruct s; reflexivity. Qed.

Lemma strip_separators_chars s :
  list_ascii_of_string (strip_separators s)
  = List.filter (fun c => negb ((code c =? 44) || (code c =? 32))%N)
      (list_ascii_of_string s).
Proof. unfold strip_separators. apply list_ascii_of_string_of_list_ascii. Qed.

Lemma strip_separators_idem s :
  strip_separators (strip_separators s) = strip_separators s.
Proof.
  unfold strip_separators at 1. rewrite strip_separators_chars.
  unfold strip_separators. f_equal.
  induction (list_ascii_of_string s) as [|c l IH]; simpl; [reflexivity|].
  destruct (negb _) eqn:E; simpl; rewrite ?E, IH; reflexivity.
Qed.

(** C10: the grid coercer parses a string with every comma and every
    space removed (so commas and spaces anywhere in the cell do not
    matter); [null], [undefined] and the empty string give [0]; a parse
    that is not finite gives [0], so the result is always finite; the
    general coercer instead maps the text 1,234 to its fallback. *)
Theorem toNumberOrZero_strips_separators :
  (forall s, toNumberOrZero (OfString s) = or_zero (Number (strip_separators s)))
  /\ (forall s c, In c (list_ascii_of_string (strip_separators s)) <->
                  In c (list_ascii_of_string s) /\ c <> ","%char /\ c <> " "%char)
  /\ (forall s, toNumberOrZero (OfString s) = toNumberOrZero (OfString (strip_separators s)))
  /\ toNumberOrZero (OfString "1,234") = Fin 1234
  /\ toNumberOrZero (OfString " 5 ") = Fin 5
  /\ toNumberOrZero OfNull = Fin 0
  /\ toNumberOrZero OfUndefined = Fin 0
  /\ toNumberOrZero (OfString EmptyString) = Fin 0
  /\ (forall s, isFinite (Number (strip_separators s)) = false ->
                toNumberOrZero (OfString s) = Fin 0)
  /\ (forall n, isFinite n = false -> toNumberOrZero (OfNumber n) = Fin 0)
  /\ (forall v, isFinite (toNumberOrZero v) = true)
  /\ toNumberStrict0 (OfString "1,234") = Fin 0
  /\ toNumber (OfString "1,234") = None.
Proof.
  repeat apply conj; try reflexivity.
  - apply toNumberOrZero_string.
  - intros s c. rewrite strip_separators_chars, filter_In.
    split; intros [H1 H2]; split; try exact H1.
    + apply negb_true_iff, orb_false_iff in H2 as [Hc Hs].
      apply N.eqb_neq in Hc, Hs.
      split; intros ->; [apply Hc | apply Hs]; reflexivity.
    + destruct H2 as [Hc Hs]. apply negb_true_iff, orb_false_iff.
      split; apply N.eqb_neq; intros E; [apply Hc | apply Hs];
        rewrite <- (ascii_N_embedding c); unfold code in E; rewrite E; reflexivity.
  - intros s. rewrite !toNumberOrZero_string, strip_separators_idem. reflexivity.
  - intros s H. rewrite toNumberOrZero_string. unfold or_zero. rewrite H. reflexivity.
  - intros n H. simpl. rewrite H. reflexivity.
  - apply toNumberOrZero_finite.
Qed.

End Coercion.

(** ** Request defaults *)

Section Defaults.
Import Constants Hooks.

(** C7: without an [exog] field ([undefined] or [null]) the result is the
    Auto body with [use_auto_exog] set and each of [alpha], [frequency],
    [horizon], [exog_strategy], [clip_non_negative] and [floor] taken
    from the caller when present and from the defaults 0.05, D, 14,
    smart, true and 0 otherwise; with an [exog] payload the input comes
    back unchanged. *)
Theorem withPredictDefaults_spec (input : PredictInput) :
  ((exog input = Undefined \/ exog input = Null) ->
     withPredictDefaults input =
       {| horizon := Val (nullish (horizon input) (Fin 14));
          frequency := Val (nullish (frequency input) "D"%string);
          alpha := Val (nullish (alpha input) (Fin (5 # 100)));
          flags := Val {|
            use_auto_exog := Val true;
            exog_strategy := Val (nullish (flag input exog_strategy) smart);
            clip_non_negative := Val (nullish (flag input clip_non_negative) true);
            floor := Val (nullish (flag input floor) (Fin 0)) |};
          exog := Undefined |})
  /\ (forall fl, flags input = Val fl ->
        flag input exog_strategy = exog_strategy fl
        /\ flag input clip_non_negative = clip_non_negative fl
        /\ flag input floor = floor fl)
  /\ (flags input = Undefined \/ flags input = Null ->
        flag input exog_strategy = Undefined
        /\ flag input clip_non_negative = Undefined
        /\ flag input floor = Undefined)
  /\ (forall e, exog input = Val e -> withPredictDefaults input = input)
  /\ withPredictDefaults
       {| horizon := Val (Fin 14); frequency := Val "D"%string;
          alpha := Undefined; flags := Undefined; exog := Undefined |}
     = {| horizon := Val (Fin 14); frequency := Val "D"%string;
          alpha := Val (Fin (5 # 100));
          flags := Val {| use_auto_exog := Val true;
                          exog_strategy := Val smart;
                          clip_non_negative := Val true;
                          floor := Val (Fin 0) |};
          exog := Undefined |}.
Proof.
  repeat apply conj.
  - intros H. unfold withPredictDefaults, hasExog.
    destruct H as [-> | ->]; simpl; destruct (alpha input); reflexivity.
  - intros fl H. unfold flag. rewrite H. auto.
  - intros H. unfold flag. destruct H as [-> | ->]; auto.
  - intros e H. unfold withPredictDefaults, hasExog. rewrite H. reflexivity.
  - reflexivity.
Qed.

End Defaults.

(** ** Alignment of the exogenous map *)

Section Alignment.
Import ManualExogGrid.

Lemma foldl_alter_seq {A} (g : nat -> A -> A) n : forall s (l : list A) i,
  foldl (fun l r => alter (g r) r l) l (seq s n) !! i
  = if decide (s <= i < s + n)%nat then g i <$> l !! i else l !! i.
Proof.
  induction n as [|n IH]; intros s l i; simpl.
  - case_decide; [lia | reflexivity].
  - rewrite IH. destruct (decide (i = s)) as [-> | Hne].
    + rewrite list_lookup_alter_eq. repeat case_decide; try lia; reflexivity.
    + rewrite list_lookup_alter_ne by congruence.
      repeat case_decide; try lia; reflexivity.
Qed.

Lemma foldl_alter_seq_length {A} (g : nat -> A -> A) n : forall s (l : list A),
  length (foldl (fun l r => alter (g r) r l) l (seq s n)) = length l.
Proof.
  induction n as [|n IH]; intros s l; simpl; [reflexivity|].
  rewrite IH. apply length_alter.
Qed.

Lemma fill_column_lookup col c h rows r :
  fill_column col c h rows !! r
  = if decide (r < h)%nat
    then (fun row => <[c := toNumberOrZero (at_index col r)]> row) <$> rows !! r
    else rows !! r.
Proof.
  unfold fill_column.
  rewrite (foldl_alter_seq (fun r row => <[c := toNumberOrZero (at_index col r)]> row)).
  repeat case_decide; try lia; reflexivity.
Qed.

Lemma at_index_map_cell (map : gmap string (list num)) name r :
  at_index (default [] (map !! name)) r = map_cell map name r.
Proof.
  unfold at_index, map_cell. destruct (map !! name) as [col|]; simpl; reflexivity.
Qed.

Lemma exogMapToMatrix_loop (map : gmap string (list num)) columns h j :
  (j <= length columns)%nat ->
  filled map columns h j
    (foldl (fun rows c =>
              match columns !! c with
              | Some name => fill_column (default [] (map !! name)) c h rows
              | None => rows
              end)
       (replicate h (replicate (length columns) zero)) (seq 0 j)).
Proof.
  induction j as [|j IH]; intros Hj.
  - simpl. split; [apply length_replicate|].
    intros r Hr. exists (replicate (length columns) zero).
    split; [apply lookup_replicate_2; exact Hr|].
    split; [apply length_replicate|].
    intros c name Hc. case_decide; [lia|].
    apply lookup_replicate_2. apply lookup_lt_Some in Hc. exact Hc.
  - rewrite seq_S, foldl_app. simpl.
    destruct (IH ltac:(lia)) as [Hlen Hrows].
    destruct (lookup_lt_is_Some_2 columns j ltac:(lia)) as [nm Hnm].
    rewrite Hnm. split.
    + unfold fill_column. rewrite foldl_alter_seq_length. exact Hlen.
    + intros r Hr. destruct (Hrows r Hr) as (row & Hrow & Hl & Hcells).
      exists (<[j := toNumberOrZero (at_index (default [] (map !! nm)) r)]> row).
      split; [|split].
      * rewrite fill_column_lookup. case_decide; [|lia]. rewrite Hrow. reflexivity.
      * rewrite length_insert. exact Hl.
      * intros c name Hc. destruct (decide (c = j)) as [-> | Hne].
        -- rewrite list_lookup_insert_eq by lia.
           case_decide; [|lia]. rewrite at_index_map_cell.
           congruence.
        -- rewrite list_lookup_insert_ne by congruence.
           rewrite (Hcells c name Hc). repeat case_decide; try lia; reflexivity.
Qed.

Lemma exogMapToMatrix_filled (map : gmap string (list num)) columns h :
  filled map columns h (length columns) (rows (exogMapToMatrix map columns h)).
Proof. apply exogMapToMatrix_loop. lia. Qed.

(** The rows are the comprehension over rows and declared columns. *)
Lemma exogMapToMatrix_rows (map : gmap string (list num)) columns h :
  rows (exogMapToMatrix map columns h)
  = List.map (fun r => List.map (fun name => toNumberOrZero (map_cell map name r)) columns)
      (seq 0 h).
Proof.
  destruct (exogMapToMatrix_filled map columns h) as [Hlen Hrows].
  apply list_eq. intros r.
  destruct (decide (r < h)%nat) as [Hr | Hr].
  - destruct (Hrows r Hr) as (row & -> & Hl & Hcells).
    change (List.map ?f ?l) with (f <$> l).
    rewrite list_lookup_fmap, lookup_seq_lt by exact Hr. simpl. f_equal.
    apply list_eq. intros c.
    change (List.map ?f ?l) with (f <$> l). rewrite list_lookup_fmap.
    destruct (columns !! c) as [name|] eqn:Hc; simpl.
    + rewrite (Hcells c name Hc). case_decide; [reflexivity|].
      apply lookup_lt_Some in Hc. lia.
    + apply lookup_ge_None. apply lookup_ge_None in Hc. lia.
  - rewrite (proj2 (lookup_ge_None _ _)) by lia.
    symmetry. apply lookup_ge_None. rewrite length_map, length_seq. lia.
Qed.

Lemma exogMapToMatrix_eq (map : gmap string (list num)) columns h :
  exogMapToMatrix map columns h
  = {| columns := columns;
       rows := List.map (fun r =>
                 List.map (fun name => toNumberOrZero (map_cell map name r)) columns)
                 (seq 0 h) |}.
Proof.
  rewrite <- exogMapToMatrix_rows. reflexivity.
Qed.

(** C1: the result carries the declared columns in their order; it has
    [horizon] rows of [columns.length] entries; the entry at row [r] and
    column [c] is the coercion of [map[columns[c]][r]]; keys of the map
    outside [columns] do not matter; a declared column that the map lacks
    is all zero; on the cells of a map of number arrays the coercer of the
    grid and the general coercer with the fallback 0 agree; and the
    example of the specification. *)
Theorem exogMapToMatrix_spec (map : gmap string (list num))
    (cols : list string) (horizon : nat) :
  let out := exogMapToMatrix map cols horizon in
  columns out = cols
  /\ length (rows out) = horizon
  /\ Forall (fun row => length row = length cols) (rows out)
  /\ (forall r c name, (r < horizon)%nat -> cols !! c = Some name ->
        entry (rows out) r c = Some (toNumberOrZero (map_cell map name r)))
  /\ (forall map' : gmap string (list num),
        (forall name, In name cols -> map' !! name = map !! name) ->
        exogMapToMatrix map' cols horizon = out)
  /\ (forall r c name, (r < horizon)%nat -> cols !! c = Some name ->
        map !! name = None -> entry (rows out) r c = Some (Fin 0))
  /\ (forall name r,
        toNumberOrZero (map_cell map name r) = toNumberStrict0 (map_cell map name r))
  /\ exogMapToMatrix {[ "ADR"%string := [Fin 1; Fin 2; Fin 3] ]}
       ["ADR"%string; "RoomNights"%string] 3
     = {| columns := ["ADR"%string; "RoomNights"%string];
          rows := [[Fin 1; Fin 0]; [Fin 2; Fin 0]; [Fin 3; Fin 0]] |}.
Proof.
  intros out.
  destruct (exogMapToMatrix_filled map cols horizon) as [Hlen Hrows].
  assert (Hentry : forall r c name, (r < horizon)%nat -> cols !! c = Some name ->
    entry (rows out) r c = Some (toNumberOrZero (map_cell map name r))).
  { intros r c name Hr Hc. unfold entry.
    destruct (Hrows r Hr) as (row & Hrow & Hl & Hcells).
    subst out. rewrite Hrow, (Hcells c name Hc).
    case_decide; [reflexivity|]. apply lookup_lt_Some in Hc. lia. }
  repeat apply conj.
  - reflexivity.
  - exact Hlen.
  - apply Forall_forall. intros row Hin.
    apply list_elem_of_lookup in Hin as [r Hr].
    assert (r < horizon)%nat as Hlt.
    { apply lookup_lt_Some in Hr. subst out. lia. }
    destruct (Hrows r Hlt) as (row' & Hrow & Hl & _).
    subst out. rewrite Hrow in Hr. congruence.
  - exact Hentry.
  - intros map' Hagree. subst out. rewrite !exogMapToMatrix_eq. f_equal.
    apply map_ext. intros r. apply map_ext_in. intros name Hin.
    unfold map_cell. rewrite (Hagree name Hin). reflexivity.
  - intros r c name Hr Hc Hnone. rewrite (Hentry r c name Hr Hc).
    unfold map_cell. rewrite Hnone. reflexivity.
  - intros name r. unfold map_cell.
    destruct (map !! name) as [col|]; [|reflexivity].
    destruct (col !! r) as [[q| | |]|]; reflexivity.
  - reflexivity.
Qed.

End Alignment.

(** ** The error histogram *)

Section Histogram.
Import NumOps ErrorHistogram.
Local Open Scope Q_scope.

Example clamp_round : clamp (Fin (76 # 10)) (Fin 5) (Fin 60) = Fin 8.
Proof. reflexivity. Qed.

Lemma clamp_cases bins : bins <> NaN ->
  exists k : Z, clamp bins (Fin 5) (Fin 60) = Fin (inject_Z k) /\ (5 <= k <= 60)%Z.
Proof.
  intros Hb. destruct bins as [q| | |]; try congruence.
  - unfold clamp, Math_round, Math_min.
    set (z := Qfloor (q + (1 # 2))).
    destruct (Qle_bool 60 (inject_Z z)) eqn:E1.
    + exists 60%Z. split; [reflexivity | lia].
    + unfold Math_max. destruct (Qle_bool 5 (inject_Z z)) eqn:E2.
      * exists z. split; [reflexivity|].
        apply Qle_bool_iff in E2.
        assert (~ 60 <= inject_Z z) as E1' by (rewrite <- Qle_bool_iff; congruence).
        unfold Qle in *. simpl in *. lia.
      * exists 5%Z. split; [reflexivity | lia].
  - exists 60%Z. split; [reflexivity | lia].
  - exists 5%Z. split; [reflexivity | lia].
Qed.

Lemma Qltb_spec a b : Qltb a b = true <-> a < b.
Proof.
  unfold Qltb. rewrite negb_true_iff. split.
  - intros H. apply Qnot_le_lt. rewrite <- Qle_bool_iff. congruence.
  - intros H. apply not_true_is_false. rewrite Qle_bool_iff. lra.
Qed.

Lemma Qltb_false a b : Qltb a b = false <-> b <= a.
Proof.
  unfold Qltb. rewrite negb_false_iff. apply Qle_bool_iff.
Qed.

Lemma domain_ordered mode a b lo hi : domain mode a b = (lo, hi) -> lo <= hi.
Proof.
  destruct mode; simpl; intros [= <- <-].
  - pose proof (Qabs_nonneg a). pose proof (Q.le_max_l (Qabs a) (Qabs b)). lra.
  - apply Q.le_max_l.
Qed.

(** *** The order of numbers under the rounded operations *)

Lemma le_PInf n : n <> NaN -> le n PInf = true.
Proof. destruct n; intros H; try reflexivity. congruence. Qed.

Lemma le_NInf n : n <> NaN -> le NInf n = true.
Proof. destruct n; intros H; try reflexivity. congruence. Qed.

Lemma add_mono lo a b : le a b = true -> le (add (Fin lo) a) (add (Fin lo) b) = true.
Proof.
  destruct a as [x| | |], b as [y| | |]; cbn [le add]; try discriminate; try reflexivity.
  - rewrite Qle_bool_iff. intros H. apply round64_mono. lra.
  - intros _. apply le_PInf, round64_not_NaN.
  - intros _. apply le_NInf, round64_not_NaN.
Qed.

Lemma whole_nonneg (i : nat) : 0 <= inject_Z (Z.of_nat i).
Proof. change 0 with (inject_Z 0). rewrite <- Zle_Qle. apply Nat2Z.is_nonneg. Qed.

Lemma inject_Z_succ i : inject_Z (Z.of_nat (S i)) == inject_Z (Z.of_nat i) + 1.
Proof. rewrite Nat2Z.inj_succ. unfold Z.succ. rewrite inject_Z_plus. reflexivity. Qed.

(** The edges never decrease. *)
Lemma edge_mono lo w i : 0 < w -> le (edge lo (Fin w) i) (edge lo (Fin w) (S i)) = true.
Proof.
  intros Hw. unfold edge. cbn [mul]. apply add_mono, round64_mono.
  rewrite inject_Z_succ. pose proof (whole_nonneg i) as Hi.
  revert Hi. generalize (inject_Z (Z.of_nat i)). intros n Hn. nra.
Qed.

(** *** The span and the width *)

Lemma sub_cases a b : b <= a ->
  (sub (Fin a) (Fin b) = PInf /\ overflow_bound <= a - b)
  \/ (exists d, sub (Fin a) (Fin b) = Fin d /\ 0 <= d /\ d < exp2 1024
                /\ a - b < overflow_bound).
Proof.
  intros H. cbn [sub]. pose proof overflow_bound_pos as Po.
  destruct (round64_cases (a - b)) as [[E Hb] | [[E Hb] | (d & E & _ & Hb & Hd & _)]].
  - left. split; assumption.
  - lra.
  - right. exists d. split; [exact E|]. split; [apply Hd; lra|].
    split; [apply (round64_bounded _ _ E) | exact Hb].
Qed.

Lemma whole_pos (k : Z) : (0 < k)%Z -> 0 < inject_Z k.
Proof. intros H. change 0 with (inject_Z 0). rewrite <- Zlt_Qlt. exact H. Qed.

Lemma div_pos_cases d w : 0 <= d -> 0 < w ->
  div (Fin d) (Fin w) = round64 (d / w)
  /\ (div (Fin d) (Fin w) = PInf \/ exists x, div (Fin d) (Fin w) = Fin x /\ 0 <= x).
Proof.
  intros Hd Hw. cbn [div]. rewrite (proj1 (Qgt_alt _ _) Hw). split; [reflexivity|].
  apply round64_nonneg. apply Qle_shift_div_l; lra.
Qed.

Lemma fifth_finite : exp2 1024 / 5 < overflow_bound.
Proof. vm_compute. reflexivity. Qed.

(** The width is [Infinity] when the span overflows, and a positive
    double otherwise. *)
Lemma bin_width_cases lo hi (k : Z) : lo <= hi -> (5 <= k <= 60)%Z ->
  (bin_width lo hi (Fin (inject_Z k)) = PInf /\ overflow_bound <= hi - lo)
  \/ (exists w, bin_width lo hi (Fin (inject_Z k)) = Fin w /\ 0 < w
                /\ hi - lo < overflow_bound).
Proof.
  intros Hle Hk. unfold bin_width. cbv zeta.
  pose proof (whole_pos k ltac:(lia)) as Hkq.
  destruct (sub_cases hi lo Hle) as [[-> Hs] | (s & -> & Hs0 & Hs1 & Hs)].
  - left. cbn [div]. rewrite (proj2 (Qle_bool_iff 0 (inject_Z k))) by lra.
    split; [reflexivity | exact Hs].
  - right. destruct (div_pos_cases s (inject_Z k) Hs0 Hkq) as [Ed _]. rewrite Ed.
    assert (s / inject_Z k < overflow_bound) as Hq.
    { pose proof fifth_finite as Hf. pose proof (exp2_pos 1024) as P.
      eapply Qle_lt_trans; [|exact Hf].
      apply Qle_shift_div_r; [exact Hkq|].
      assert (5 <= inject_Z k) as H5 by (change 5 with (inject_Z 5); rewrite <- Zle_Qle; lia).
      revert H5 Hkq. generalize (inject_Z k). intros K H5 HK.
      assert (exp2 1024 / 5 * K == exp2 1024 * (K / 5)) as -> by field.
      assert (1 <= K / 5) by (apply Qle_shift_div_l; lra). nra. }
    assert (0 <= s / inject_Z k) as Hq0 by (apply Qle_shift_div_l; lra).
    pose proof overflow_bound_pos as Po.
    destruct (round64_finite (s / inject_Z k) ltac:(lra) Hq) as (w & -> & Hw & _).
    specialize (Hw Hq0). cbn [falsy_number].
    destruct (Qeq_bool w 0) eqn:E.
    + exists 1. split; [reflexivity|]. split; [reflexivity | exact Hs].
    + apply Qeq_bool_neq in E. exists w. split; [reflexivity|]. split; [lra | exact Hs].
Qed.

(** *** The index of a value *)

Lemma as_index_Z q z : q == inject_Z z -> (0 <= z)%Z -> as_index (Fin q) = Some (Z.to_nat z).
Proof.
  intros Hq Hz. unfold as_index.
  assert (Qfloor q = z) as -> by (rewrite Hq; apply Qfloor_Z).
  assert (Qeq_bool (inject_Z z) q = true) as -> by (apply Qeq_bool_iff; symmetry; exact Hq).
  assert ((0 <=? z)%Z = true) as -> by lia.
  reflexivity.
Qed.

Lemma sub_one (k : Z) : (- 2 ^ 53 < k <= 2 ^ 53)%Z ->
  sub (Fin (inject_Z k)) (Fin 1) = Fin (inject_Z (k - 1)).
Proof.
  intros Hk. cbn [sub]. rewrite (round64_comp _ (inject_Z (k - 1))).
  - apply round64_whole. lia.
  - unfold Z.sub. rewrite inject_Z_plus. reflexivity.
Qed.

Lemma valid_place (t : num) (k : Z) : (1 <= k)%Z ->
  (t = PInf \/ exists x, t = Fin x /\ 0 <= x) -> (0 <= place t k < k)%Z.
Proof.
  intros Hk [-> | (x & -> & Hx)]; cbn [place]; [lia|].
  assert (0 <= Qfloor x)%Z by (change 0%Z with (Qfloor 0); apply Qfloor_resp_le; exact Hx).
  lia.
Qed.

(** The three steps after the division, on a quotient that is no [NaN]
    and not negative. *)
Lemma index_of (t : num) (k : Z) : (1 <= k <= 2 ^ 53)%Z ->
  (t = PInf \/ exists x, t = Fin x /\ 0 <= x) ->
  as_index (let idx := Math_floor t in
            let idx := if lt idx (Fin 0) then Fin 0 else idx in
            if le (Fin (inject_Z k)) idx then sub (Fin (inject_Z k)) (Fin 1) else idx)
  = Some (Z.to_nat (place t k)).
Proof.
  intros Hk [-> | (x & -> & Hx)]; cbv zeta; cbn [Math_floor place].
  - cbn [lt le]. rewrite sub_one by lia. apply as_index_Z; [reflexivity | lia].
  - set (z := Qfloor x).
    assert (0 <= z)%Z as Hz
      by (change 0%Z with (Qfloor 0); apply Qfloor_resp_le; exact Hx).
    cbn [lt].
    assert (Qle_bool 0 (inject_Z z) = true) as ->.
    { apply Qle_bool_iff. change 0 with (inject_Z 0). rewrite <- Zle_Qle. exact Hz. }
    cbn [negb le].
    destruct (Qle_bool (inject_Z k) (inject_Z z)) eqn:E.
    + apply Qle_bool_iff in E. rewrite <- Zle_Qle in E. rewrite sub_one by lia.
      rewrite Z.min_l by lia. apply as_index_Z; [reflexivity | lia].
    + assert (~ (k <= z)%Z) as E' by (rewrite Zle_Qle, <- Qle_bool_iff; congruence).
      rewrite Z.min_r by lia. apply as_index_Z; [reflexivity | exact Hz].
Qed.

(** The quotient [(v - min) / width] of a value of the domain: [NaN]
    exactly when [v - min] overflows. *)
Lemma quotient_cases lo hi (k : Z) v :
  lo <= hi -> (5 <= k <= 60)%Z -> lo <= v -> v <= hi ->
  let t := div (sub (Fin v) (Fin lo)) (bin_width lo hi (Fin (inject_Z k))) in
  (t = NaN /\ overflow_bound <= v - lo)
  \/ ((t = PInf \/ exists x, t = Fin x /\ 0 <= x) /\ v - lo < overflow_bound).
Proof.
  intros Hle Hk Hlo Hhi. cbv zeta.
  destruct (bin_width_cases lo hi k Hle Hk) as [[-> Hs] | (w & -> & Hw & Hs)];
    destruct (sub_cases v lo Hlo) as [[-> Hd] | (d & -> & Hd & _ & Hd')].
  - left. split; [reflexivity | exact Hd].
  - right. split; [|exact Hd']. right. exists 0. split; [reflexivity | lra].
  - lra.
  - right. split; [|exact Hd']. apply div_pos_cases; assumption.
Qed.

Lemma bin_index_cases lo hi (k : Z) v :
  lo <= hi -> (5 <= k <= 60)%Z -> lo <= v -> v <= hi ->
  let width := bin_width lo hi (Fin (inject_Z k)) in
  let t := div (sub (Fin v) (Fin lo)) width in
  (bin_index lo width (Fin (inject_Z k)) v = None /\ overflow_bound <= v - lo)
  \/ (bin_index lo width (Fin (inject_Z k)) v = Some (Z.to_nat (place t k))
      /\ (t = PInf \/ exists x, t = Fin x /\ 0 <= x)
      /\ v - lo < overflow_bound).
Proof.
  intros Hle Hk Hlo Hhi. cbv zeta. unfold bin_index. cbv zeta.
  destruct (quotient_cases lo hi k v Hle Hk Hlo Hhi) as [[-> Hd] | [Ht Hd]].
  - left. split; [reflexivity | exact Hd].
  - right. split; [|split; [exact Ht | exact Hd]].
    apply (index_of _ k); [lia | exact Ht].
Qed.

Lemma in_domain_spec lo hi v : in_domain lo hi v = true <-> lo <= v /\ v <= hi.
Proof. unfold in_domain. rewrite andb_true_iff, !Qle_bool_iff. reflexivity. Qed.

Lemma skip_test lo hi v : Qltb v lo || Qltb hi v = negb (in_domain lo hi v).
Proof.
  unfold in_domain, Qltb. rewrite negb_andb. reflexivity.
Qed.

(** *** The rows before counting *)

Lemma make_edges_lookup lo w n i : (i < n)%nat ->
  make_edges lo w n !! i = Some (edge lo w i).
Proof.
  intros Hi. unfold make_edges.
  change (List.map ?f ?l) with (f <$> l).
  rewrite list_lookup_fmap, lookup_seq_lt by exact Hi. reflexivity.
Qed.

Lemma make_rows_fresh lo w n ixs :
  Forall (fun i => S i < n)%nat ixs ->
  make_rows (make_edges lo w n) ixs = Some (List.map (fresh_row lo w) ixs).
Proof.
  induction 1 as [|i ixs Hi _ IH]; simpl; [reflexivity|].
  unfold make_row. rewrite !make_edges_lookup by lia. rewrite IH. reflexivity.
Qed.

Lemma lookup_frame (rows rows' : list HistRow) i r :
  List.map frame rows = List.map frame rows' -> rows !! i = Some r ->
  exists r', rows' !! i = Some r' /\ frame r = frame r'.
Proof.
  intros Hf Hr.
  assert (List.map frame rows !! i = Some (frame r)) as H.
  { change (List.map ?f ?l) with (f <$> l). rewrite list_lookup_fmap, Hr. reflexivity. }
  rewrite Hf in H. change (List.map ?f ?l) with (f <$> l) in H.
  rewrite list_lookup_fmap in H.
  destruct (rows' !! i) as [r'|]; simpl in H; [|discriminate].
  exists r'. split; [reflexivity | congruence].
Qed.

Lemma fresh_rows_lookup lo w n i r :
  List.map (fresh_row lo w) (seq 0 n) !! i = Some r -> (i < n)%nat /\ r = fresh_row lo w i.
Proof.
  change (List.map ?f ?l) with (f <$> l). rewrite list_lookup_fmap.
  destruct (decide (i < n)%nat) as [Hi|Hi].
  - rewrite lookup_seq_lt by exact Hi. simpl. intros [= <-]. split; [exact Hi | reflexivity].
  - rewrite lookup_seq_ge by lia. discriminate.
Qed.

Lemma sum_counts_fresh lo w ixs : sum_counts (List.map (fresh_row lo w) ixs) = O.
Proof. induction ixs as [|i l IH]; simpl; [reflexivity | exact IH]. Qed.

(** *** The counting loop *)

Lemma sum_counts_alter rows i r :
  rows !! i = Some r -> sum_counts (alter bump i rows) = S (sum_counts rows).
Proof.
  revert i. induction rows as [|a rows IH]; intros [|i] H; try discriminate.
  - injection H as ->. reflexivity.
  - change (alter bump (S i) (a :: rows)) with (a :: alter bump i rows).
    change (sum_counts (a :: alter bump i rows))
      with (count a + sum_counts (alter bump i rows))%nat.
    rewrite (IH i H). simpl. lia.
Qed.

Lemma frame_alter rows i : List.map frame (alter bump i rows) = List.map frame rows.
Proof.
  revert i. induction rows as [|a rows IH]; intros [|i]; try reflexivity.
  change (alter bump (S i) (a :: rows)) with (a :: alter bump i rows).
  simpl. rewrite IH. reflexivity.
Qed.

Lemma count_if_cons p v vs :
  count_if p (v :: vs) = ((if p v then 1 else 0) + count_if p vs)%nat.
Proof. unfold count_if. simpl. destruct (p v); reflexivity. Qed.

(** The loop returns when every value of the domain has an index among
    the rows; every row then counts the values with its index. *)
Lemma count_values_spec lo hi width k (n : nat) :
  forall vs rows, length rows = n ->
  (forall v, In v vs -> in_domain lo hi v = true ->
     exists i, bin_index lo width k v = Some i /\ (i < n)%nat) ->
  exists rows',
    count_values lo hi width k rows vs = Some rows'
    /\ List.map frame rows' = List.map frame rows
    /\ sum_counts rows' = (sum_counts rows + count_if (in_domain lo hi) vs)%nat
    /\ forall i r, rows !! i = Some r ->
         exists r', rows' !! i = Some r'
           /\ count r' = (count r + count_if (lands_in lo hi width k i) vs)%nat.
Proof.
  induction vs as [|v vs IH]; intros rows Hlen Hall.
  - exists rows. split; [reflexivity|]. split; [reflexivity|].
    split; [unfold count_if; simpl; lia|].
    intros i r Hr. exists r. split; [exact Hr | unfold count_if; simpl; lia].
  - assert (Hrest : forall x, In x vs -> in_domain lo hi x = true ->
              exists i, bin_index lo width k x = Some i /\ (i < n)%nat)
      by (intros x Hx; apply Hall; right; exact Hx).
    cbn [count_values]. unfold count_value. rewrite skip_test.
    destruct (in_domain lo hi v) eqn:Hd; cbn [negb].
    + destruct (Hall v (or_introl eq_refl) Hd) as (i & Hi & Hlt).
      rewrite Hi.
      destruct (lookup_lt_is_Some_2 rows i ltac:(lia)) as [ri Hri]. rewrite Hri.
      destruct (IH (alter bump i rows)) as (rows' & Hrun & Hfr & Hsum & Hcnt).
      { rewrite length_alter. exact Hlen. }
      { exact Hrest. }
      exists rows'. split; [exact Hrun|]. split; [rewrite Hfr; apply frame_alter|].
      split.
      * rewrite Hsum, (sum_counts_alter rows i ri Hri), count_if_cons, Hd. lia.
      * intros j r Hr. rewrite count_if_cons. unfold lands_in at 1. rewrite Hd, Hi.
        destruct (decide (i = j)) as [<- | Hne].
        -- destruct (Hcnt i (bump r)) as (r' & Hr' & Hc).
           { rewrite list_lookup_alter_eq, Hr. reflexivity. }
           exists r'. split; [exact Hr'|]. rewrite Hc.
           rewrite bool_decide_true by reflexivity. simpl. lia.
        -- destruct (Hcnt j r) as (r' & Hr' & Hc).
           { rewrite list_lookup_alter_ne by exact Hne. exact Hr. }
           exists r'. split; [exact Hr'|]. rewrite Hc.
           rewrite bool_decide_false by congruence. simpl. lia.
    + destruct (IH rows Hlen Hrest) as (rows' & Hrun & Hfr & Hsum & Hcnt).
      exists rows'. split; [exact Hrun|]. split; [exact Hfr|].
      split; [rewrite Hsum, count_if_cons, Hd; lia|].
      intros j r Hr. destruct (Hcnt j r Hr) as (r' & Hr' & Hc).
      exists r'. split; [exact Hr'|].
      rewrite Hc, count_if_cons. unfold lands_in at 2. rewrite Hd. simpl. lia.
Qed.

(** The loop throws at a value of the domain without an index. *)
Lemma count_values_fail lo hi width k v :
  in_domain lo hi v = true -> bin_index lo width k v = None ->
  forall vs rows, In v vs -> count_values lo hi width k rows vs = None.
Proof.
  intros Hd Hnone. induction vs as [|x vs IH]; intros rows Hin; [destruct Hin|].
  cbn [count_values]. destruct Hin as [-> | Hin].
  - unfold count_value. rewrite skip_test, Hd. cbn [negb]. rewrite Hnone. reflexivity.
  - destruct (count_value lo hi width k rows x); [apply IH; exact Hin | reflexivity].
Qed.

Lemma count_if_le p vs : (count_if p vs <= length vs)%nat.
Proof. unfold count_if. apply List.filter_length_le. Qed.

Lemma count_if_mono (p q : Q -> bool) vs :
  (forall v, p v = true -> q v = true) -> (count_if p vs <= count_if q vs)%nat.
Proof.
  intros H. induction vs as [|v vs IH]; [reflexivity|].
  rewrite !count_if_cons. destruct (p v) eqn:E.
  - rewrite (H v E). lia.
  - destruct (q v); lia.
Qed.

Lemma count_if_ext (p q : Q -> bool) vs :
  (forall v, p v = q v) -> count_if p vs = count_if q vs.
Proof.
  intros H. induction vs as [|v vs IH]; [reflexivity|].
  rewrite !count_if_cons, H, IH. reflexivity.
Qed.

(** *** The run of [toHistogram] *)

Lemma hist_domain_eq values mode v vs :
  finite_values values = v :: vs ->
  hist_domain values mode = Some (domain mode (min_of v vs) (max_of v vs)).
Proof. intros H. unfold hist_domain. rewrite H. reflexivity. Qed.

(** The run on a sample with a finite value, for a bin count that
    [clamp] maps to [k], when no distance [v - min] overflows. *)
Lemma toHistogram_run values bins mode (k : Z) v vs lo hi :
  clamp bins (Fin 5) (Fin 60) = Fin (inject_Z k) -> (5 <= k <= 60)%Z ->
  finite_values values = v :: vs ->
  domain mode (min_of v vs) (max_of v vs) = (lo, hi) ->
  (forall x, In x (v :: vs) -> in_domain lo hi x = true -> x - lo < overflow_bound) ->
  let width := bin_width lo hi (Fin (inject_Z k)) in
  exists rows,
    toHistogram values bins mode = Some rows
    /\ length rows = Z.to_nat k
    /\ sum_counts rows = count_if (in_domain lo hi) (v :: vs)
    /\ forall i r, rows !! i = Some r ->
         (i < Z.to_nat k)%nat
         /\ frame r = frame (fresh_row lo width i)
         /\ count r = count_if (lands_in lo hi width (Fin (inject_Z k)) i) (v :: vs).
Proof.
  intros Hk Hrange Hclean Hdom Hfin width. unfold toHistogram. rewrite Hclean, Hdom, Hk.
  pose proof (domain_ordered _ _ _ _ _ Hdom) as Hle.
  cbn [iterations_le iterations_lt]. rewrite Qfloor_Z, Qceiling_Z. fold width.
  replace (Z.to_nat (k + 1)) with (S (Z.to_nat k)) by lia.
  rewrite make_rows_fresh.
  2:{ apply Forall_forall. intros i Hi. apply list_elem_of_In, in_seq in Hi. lia. }
  destruct (count_values_spec lo hi width (Fin (inject_Z k)) (Z.to_nat k) (v :: vs)
              (List.map (fresh_row lo width) (seq 0 (Z.to_nat k))))
    as (rows & Hrun & Hfr & Hsum & Hcnt).
  { rewrite length_map, length_seq. reflexivity. }
  { intros x Hx Hd. pose proof Hd as Hd'. apply in_domain_spec in Hd' as [Hlo Hhi].
    destruct (bin_index_cases lo hi k x Hle Hrange Hlo Hhi) as [[_ Hov] | (Hi & Ht & _)].
    - specialize (Hfin x Hx Hd). lra.
    - eexists. split; [exact Hi|].
      pose proof (valid_place _ k ltac:(lia) Ht). lia. }
  exists rows. split; [exact Hrun|].
  assert (Hlen : length rows = Z.to_nat k).
  { rewrite <- (length_map frame), Hfr, !length_map, length_seq. reflexivity. }
  split; [exact Hlen|]. split.
  - rewrite Hsum, sum_counts_fresh. reflexivity.
  - intros i r Hr.
    destruct (lookup_frame _ _ i r Hfr Hr) as (r0 & Hr0 & Hf).
    pose proof Hr0 as Hr0'. apply fresh_rows_lookup in Hr0' as [Hi ->].
    split; [exact Hi|]. split; [exact Hf|].
    destruct (Hcnt _ _ Hr0) as (r' & Hr' & Hc).
    rewrite Hr in Hr'. injection Hr' as <-. rewrite Hc. reflexivity.
Qed.

(** The run throws when the distance [v - min] of a value of the domain
    overflows. *)
Lemma toHistogram_throws values bins mode (k : Z) v vs lo hi x :
  clamp bins (Fin 5) (Fin 60) = Fin (inject_Z k) -> (5 <= k <= 60)%Z ->
  finite_values values = v :: vs ->
  domain mode (min_of v vs) (max_of v vs) = (lo, hi) ->
  In x (v :: vs) -> in_domain lo hi x = true -> overflow_bound <= x - lo ->
  toHistogram values bins mode = None.
Proof.
  intros Hk Hrange Hclean Hdom Hx Hd Hov. unfold toHistogram. rewrite Hclean, Hdom, Hk.
  pose proof (domain_ordered _ _ _ _ _ Hdom) as Hle.
  cbn [iterations_le iterations_lt]. rewrite Qfloor_Z, Qceiling_Z.
  replace (Z.to_nat (k + 1)) with (S (Z.to_nat k)) by lia.
  rewrite make_rows_fresh.
  2:{ apply Forall_forall. intros i Hi. apply list_elem_of_In, in_seq in Hi. lia. }
  apply (count_values_fail lo hi _ _ x Hd); [|exact Hx].
  pose proof Hd as Hd'. apply in_domain_spec in Hd' as [Hlo Hhi].
  destruct (bin_index_cases lo hi k x Hle Hrange Hlo Hhi) as [[Hi _] | (_ & _ & Hfin)];
    [exact Hi | lra].
Qed.

Lemma overflows_false values mode v vs lo hi :
  finite_values values = v :: vs ->
  domain mode (min_of v vs) (max_of v vs) = (lo, hi) ->
  overflows values mode = false ->
  forall x, In x (v :: vs) -> in_domain lo hi x = true -> x - lo < overflow_bound.
Proof.
  intros Hclean Hdom Hov x Hx Hd. unfold overflows in Hov.
  rewrite (hist_domain_eq _ _ _ _ Hclean), Hdom, Hclean in Hov.
  apply Qnot_le_lt. intros Hle. apply Qle_bool_iff in Hle.
  assert (existsb (fun v0 => in_domain lo hi v0 && Qle_bool overflow_bound (v0 - lo)) (v :: vs)
          = true); [|congruence].
  apply existsb_exists. exists x. split; [exact Hx|]. rewrite Hd, Hle. reflexivity.
Qed.

Lemma overflows_true values mode v vs lo hi :
  finite_values values = v :: vs ->
  domain mode (min_of v vs) (max_of v vs) = (lo, hi) ->
  overflows values mode = true ->
  exists x, In x (v :: vs) /\ in_domain lo hi x = true /\ overflow_bound <= x - lo.
Proof.
  intros Hclean Hdom Hov. unfold overflows in Hov.
  rewrite (hist_domain_eq _ _ _ _ Hclean), Hdom, Hclean in Hov.
  apply existsb_exists in Hov as (x & Hx & Hb). apply andb_true_iff in Hb as [Hd Hle].
  exists x. split; [exact Hx|]. split; [exact Hd|]. apply Qle_bool_iff. exact Hle.
Qed.

Lemma finite_span_no_overflow values mode v vs lo hi :
  finite_values values = v :: vs ->
  domain mode (min_of v vs) (max_of v vs) = (lo, hi) ->
  finite_span values mode ->
  hi - lo < overflow_bound
  /\ forall x, In x (v :: vs) -> in_domain lo hi x = true -> x - lo < overflow_bound.
Proof.
  intros Hclean Hdom Hspan. unfold finite_span in Hspan.
  rewrite (hist_domain_eq _ _ _ _ Hclean), Hdom in Hspan.
  split; [exact Hspan|]. intros x _ Hd. apply in_domain_spec in Hd as [_ Hhi]. lra.
Qed.

(** *** The two ends of the domain *)

Lemma bin_index_place lo width (k : Z) v t : (1 <= k <= 2 ^ 53)%Z ->
  div (sub (Fin v) (Fin lo)) width = t ->
  (t = PInf \/ exists x, t = Fin x /\ 0 <= x) ->
  bin_index lo width (Fin (inject_Z k)) v = Some (Z.to_nat (place t k)).
Proof.
  intros Hk <- Ht. unfold bin_index. cbv zeta. apply (index_of _ k Hk Ht).
Qed.

(** With an empty span the width is [1] and the values of the domain
    get the first place. *)
Lemma bin_index_first lo hi (k : Z) v : lo == hi -> (5 <= k <= 60)%Z -> v == lo ->
  bin_width lo hi (Fin (inject_Z k)) = Fin 1
  /\ bin_index lo (Fin 1) (Fin (inject_Z k)) v = Some O.
Proof.
  intros Heq Hk Hv. pose proof (whole_pos k ltac:(lia)) as Hkq. split.
  - unfold bin_width. cbv zeta. cbn [sub]. rewrite (round64_zero (hi - lo)) by lra.
    cbn [div]. rewrite (proj1 (Qgt_alt _ _) Hkq).
    rewrite round64_zero; [reflexivity|]. field. lra.
  - rewrite (bin_index_place lo (Fin 1) k v (Fin 0)).
    + cbn [place]. change (Qfloor 0) with 0%Z. f_equal. lia.
    + lia.
    + cbn [sub]. rewrite (round64_zero (v - lo)) by lra. reflexivity.
    + right. exists 0. split; [reflexivity | lra].
Qed.

Lemma tiny_part : exp2 (-1022) <= exp2 (-1016) * (1 - exp2 (-53)) / 60.
Proof. vm_compute. discriminate. Qed.

Lemma unit_roundoff : 0 < exp2 (-53) /\ exp2 (-53) <= 1 # 64.
Proof. split; [reflexivity | vm_compute; discriminate]. Qed.

(** With a span that is neither tiny nor too large for a double, a
    value at the upper end of the domain gets the last place. *)
Lemma bin_index_last lo hi (k : Z) v :
  (5 <= k <= 60)%Z -> exp2 (-1016) <= hi - lo -> hi - lo < overflow_bound -> v == hi ->
  bin_index lo (bin_width lo hi (Fin (inject_Z k))) (Fin (inject_Z k)) v
  = Some (Z.to_nat (k - 1)).
Proof.
  intros Hk Hlow Hup Hv.
  pose proof (exp2_pos (-1016)) as P16. pose proof (exp2_pos (-1022)) as P22.
  destruct unit_roundoff as [Hu0 Hu]. pose proof tiny_part as Htiny.
  pose proof overflow_bound_pos as Po.
  pose proof (whole_pos k ltac:(lia)) as Hkq.
  assert (5 <= inject_Z k) as H5 by (change 5 with (inject_Z 5); rewrite <- Zle_Qle; lia).
  assert (inject_Z k <= 60) as H60 by (change 60 with (inject_Z 60); rewrite <- Zle_Qle; lia).
  assert (Hle : lo <= hi) by lra.
  (* the span *)
  destruct (round64_finite (hi - lo) ltac:(lra) Hup) as (s & Es & _).
  assert (exp2 (-1022) <= hi - lo) as Hnormal.
  { eapply Qle_trans; [|exact Hlow]. apply exp2_le. lia. }
  destruct (round64_relative (hi - lo) s Hnormal Es) as [_ Hs].
  destruct (round64_bounded _ _ Es) as (_ & _ & Hs').
  assert (exp2 (-1016) * (1 - exp2 (-53)) <= s) as Hs16.
  { eapply Qle_trans; [|exact Hs]. apply Qmult_le_compat_r; [exact Hlow | lra]. }
  assert (0 < s) as Hs0.
  { eapply Qlt_le_trans; [|exact Hs16].
    apply Qmult_lt_0_compat; [exact P16 | lra]. }
  (* the width *)
  assert (exp2 (-1022) <= s / inject_Z k) as Hq.
  { eapply Qle_trans; [exact Htiny|].
    apply Qle_shift_div_l; [exact Hkq|].
    assert (0 < exp2 (-1016) * (1 - exp2 (-53))) as Hc0
      by (apply Qmult_lt_0_compat; lra).
    revert Hc0 Hs16 H5 H60 Hkq.
    generalize (exp2 (-1016) * (1 - exp2 (-53))) (inject_Z k).
    clear. intros c K Hc0 Hc H5 H60 HK.
    assert (c / 60 * K == c * (K / 60)) as -> by field.
    assert (K / 60 <= 1) by (apply Qle_shift_div_r; lra).
    assert (0 <= K / 60) by (apply Qle_shift_div_l; lra).
    nra. }
  assert (s / inject_Z k < overflow_bound) as Hq'.
  { pose proof fifth_finite as Hf. pose proof (exp2_pos 1024) as P.
    eapply Qle_lt_trans; [|exact Hf].
    apply Qle_shift_div_r; [exact Hkq|].
    revert H5 Hkq Hs' P. generalize (inject_Z k) (exp2 1024). clear.
    intros K E H5' HK Hs' P.
    assert (E / 5 * K == E * (K / 5)) as -> by field.
    assert (1 <= K / 5) by (apply Qle_shift_div_l; lra). nra. }
  destruct (round64_finite (s / inject_Z k) ltac:(lra) Hq') as (w & Ew & _).
  destruct (round64_relative _ _ Hq Ew) as [Hw1 Hw2].
  assert (0 < w) as Hw0.
  { eapply Qlt_le_trans; [|exact Hw2].
    apply Qmult_lt_0_compat; [lra | lra]. }
  assert (Ewidth : bin_width lo hi (Fin (inject_Z k)) = Fin w).
  { unfold bin_width. cbv zeta. cbn [sub]. rewrite Es.
    cbn [div]. rewrite (proj1 (Qgt_alt _ _) Hkq), Ew. cbn [falsy_number].
    assert (Qeq_bool w 0 = false) as ->; [|reflexivity].
    apply not_true_is_false. rewrite Qeq_bool_iff. lra. }
  rewrite Ewidth.
  (* the quotient *)
  assert (Esub : sub (Fin v) (Fin lo) = Fin s).
  { cbn [sub]. rewrite (round64_comp (v - lo) (hi - lo)) by (rewrite Hv; reflexivity).
    exact Es. }
  assert (Hquot : inject_Z (k - 1) <= s / w).
  { apply Qle_shift_div_l; [exact Hw0|].
    assert (inject_Z (k - 1) == inject_Z k - 1) as ->.
    { unfold Z.sub. rewrite inject_Z_plus. reflexivity. }
    assert (s == s / inject_Z k * inject_Z k) as Es' by (field; lra).
    revert Hw1 Es' Hw0 Hq H5 H60 P22.
    generalize (inject_Z k) (s / inject_Z k) (exp2 (-1022)) (exp2 (-53)) Hu0 Hu.
    clear. intros K X e u Hu0 Hu Hw1 Es' Hw0 Hq H5 H60 P22.
    rewrite Es'.
    assert (0 <= X) by lra.
    assert ((K - 1) * w <= (K - 1) * (X * (1 + u))) by nra.
    assert ((K - 1) * (1 + u) <= K) by nra.
    nra. }
  pose proof (round64_mono _ _ Hquot) as Hmono.
  rewrite round64_whole in Hmono by lia.
  destruct (div_pos_cases s w ltac:(lra) Hw0) as [Ed Hcases].
  rewrite (bin_index_place lo (Fin w) k v (round64 (s / w))).
  - f_equal. f_equal. destruct (round64 (s / w)) as [x| | |] eqn:Ex; cbn [place];
      try reflexivity.
    cbn [le] in Hmono. apply Qle_bool_iff in Hmono.
    assert (k - 1 <= Qfloor x)%Z.
    { rewrite <- (Qfloor_Z (k - 1)). apply Qfloor_resp_le. exact Hmono. }
    lia.
  - lia.
  - rewrite Esub. exact Ed.
  - rewrite <- Ed. exact Hcases.
Qed.

(** C6, amended: for every list of numbers, every bin count other than
    [NaN] and either mode, when the span of the domain does not overflow
    (it is below [2^1024 - 2^970], as the difference of two doubles is
    unless they are some [9e307] apart), [toHistogram] returns rows.
    Without a finite value it returns none.  Otherwise the number of rows
    is the bin count rounded and clamped into [5, 60]; the width is a
    positive double; row [i] spans the doubles [lo + i * width] and
    [lo + (i + 1) * width], so the edges adjoin and never decrease (they
    need not increase); the counts add up to the number of finite values
    inside the domain, hence to at most the number of finite values; with
    a span of at least [2^-1016] every value equal to the upper end of
    the domain is counted by the last row, and with an empty span all
    values of the domain are counted by the first row. *)
Theorem toHistogram_spec (values : list num) (bins : num) (mode : Mode) :
  bins <> NaN ->
  finite_span values mode ->
  exists (k : Z) (rows : list HistRow),
    clamp bins (Fin 5) (Fin 60) = Fin (inject_Z k) /\ (5 <= k <= 60)%Z
    /\ toHistogram values bins mode = Some rows
    /\ Forall (fun r => le (x0 r) (x1 r) = true) rows
    /\ (forall i a b, rows !! i = Some a -> rows !! S i = Some b -> x1 a = x0 b)
    /\ (sum_counts rows <= length (finite_values values))%nat
    /\ match hist_domain values mode with
       | None => rows = []
       | Some (lo, hi) =>
           lo <= hi
           /\ length rows = Z.to_nat k
           /\ (exists w, bin_width lo hi (Fin (inject_Z k)) = Fin w /\ 0 < w
                 /\ forall i r, rows !! i = Some r ->
                      x0 r = add (Fin lo) (mul (Fin (inject_Z (Z.of_nat i))) (Fin w))
                      /\ x1 r = add (Fin lo) (mul (Fin (inject_Z (Z.of_nat (S i)))) (Fin w)))
           /\ sum_counts rows = count_if (in_domain lo hi) (finite_values values)
           /\ (exp2 (-1016) <= hi - lo ->
               forall r, rows !! Z.to_nat (k - 1) = Some r ->
                 (count_if (fun v => Qeq_bool v hi) (finite_values values) <= count r)%nat)
           /\ (lo == hi -> forall r, rows !! 0%nat = Some r ->
                 count r = count_if (in_domain lo hi) (finite_values values))
       end.
Proof.
  intros Hb Hspan. destruct (clamp_cases bins Hb) as (k & Hk & Hrange).
  exists k.
  destruct (finite_values values) as [|v vs] eqn:Hclean.
  - exists []. unfold toHistogram, hist_domain. rewrite Hclean.
    repeat split; try assumption; try lia; try constructor.
    intros i a b H. rewrite lookup_nil in H. discriminate.
  - rewrite (hist_domain_eq values mode v vs Hclean).
    destruct (domain mode (min_of v vs) (max_of v vs)) as [lo hi] eqn:Hdom.
    pose proof (domain_ordered _ _ _ _ _ Hdom) as Hle.
    destruct (finite_span_no_overflow values mode v vs lo hi Hclean Hdom Hspan)
      as [Hfin Hall].
    destruct (toHistogram_run values bins mode k v vs lo hi Hk Hrange Hclean Hdom Hall)
      as (rows & Hrun & Hlen & Hsum & Hrows).
    destruct (bin_width_cases lo hi k Hle Hrange) as [[_ Hov] | (w & Ew & Hw & _)];
      [lra|].
    rewrite Ew in Hrows.
    exists rows. split; [exact Hk|]. split; [exact Hrange|]. split; [exact Hrun|].
    repeat apply conj.
    + apply Forall_forall. intros r Hin. apply list_elem_of_lookup in Hin as [i Hr].
      destruct (Hrows i r Hr) as (_ & Hf & _). injection Hf as -> -> _.
      cbn [fresh_row x0 x1]. apply edge_mono. exact Hw.
    + intros i a b Ha Hb'.
      destruct (Hrows i a Ha) as (_ & Hfa & _). destruct (Hrows (S i) b Hb') as (_ & Hfb & _).
      injection Hfa as _ -> _. injection Hfb as -> _ _. reflexivity.
    + rewrite Hsum. apply count_if_le.
    + exact Hle.
    + exact Hlen.
    + exists w. split; [exact Ew|]. split; [exact Hw|].
      intros i r Hr. destruct (Hrows i r Hr) as (_ & Hf & _). injection Hf as -> -> _.
      split; reflexivity.
    + exact Hsum.
    + intros Hlow r Hr.
      destruct (Hrows _ r Hr) as (_ & _ & ->).
      apply count_if_mono. intros x Hx. apply Qeq_bool_iff in Hx.
      unfold lands_in.
      assert (in_domain lo hi x = true) as -> by (apply in_domain_spec; lra).
      apply bool_decide_eq_true. cbn [andb]. rewrite <- Ew.
      apply bin_index_last; assumption.
    + intros Heq r Hr.
      destruct (Hrows _ r Hr) as (_ & _ & ->).
      apply count_if_ext. intros x. unfold lands_in.
      destruct (in_domain lo hi x) eqn:Hd; [|reflexivity].
      apply in_domain_spec in Hd as [H1 H2].
      apply bool_decide_eq_true.
      destruct (bin_index_first lo hi k x Heq Hrange ltac:(lra)) as [Ew1 Hi].
      rewrite Ew1 in Ew. injection Ew as <-. exact Hi.
Qed.

(** The theorem applies to a sample with a non-finite entry and the bin
    count 7. *)
Lemma toHistogram_spec_witness :
  exists (k : Z) (rows : list HistRow),
    clamp (Fin 7) (Fin 5) (Fin 60) = Fin (inject_Z k) /\ (5 <= k <= 60)%Z
    /\ toHistogram [Fin 1; NaN; Fin (5 # 2); Fin (-4)] (Fin 7) absolute = Some rows
    /\ length rows = 7%nat
    /\ sum_counts rows = 2%nat.
Proof.
  destruct (toHistogram_spec [Fin 1; NaN; Fin (5 # 2); Fin (-4)] (Fin 7) absolute)
    as (k & rows & Hk & Hr & Hrun & _).
  - discriminate.
  - vm_compute. reflexivity.
  - exists k, rows. split; [exact Hk|]. split; [exact Hr|]. split; [exact Hrun|].
    vm_compute in Hrun. injection Hrun as <-. split; reflexivity.
Defined.

(** C6, as stated, fails in several places.  A value equal to the upper
    end of the domain is counted by the first row, not the last, when
    the span of the domain is empty: the values [[3]] in absolute mode
    have the domain [3, 3] and five rows from 3 to 8.  The bin count
    [NaN] is not clamped: [clamp] returns [NaN], no row is built, and
    counting the first value throws.  The edges do not always increase:
    for the doubles [1e16] and [1e16 + 2] in absolute mode the width is
    the double next to 0.4, and adding it to [1e16] gives [1e16] again.
    And not every list of numbers is binned: for the double [2^1023] in
    residual mode the span [2^1024] is rounded to [Infinity], so is the
    distance of the value from the lower end, their quotient is [NaN],
    and counting the value throws. *)
Lemma toHistogram_claim_fails :
  hist_domain [Fin 3] absolute = Some (3, 3)
  /\ option_map summary (toHistogram [Fin 3] (Fin 5) absolute)
     = Some [(Fin 3, Fin 4, 1%nat); (Fin 4, Fin 5, O); (Fin 5, Fin 6, O);
             (Fin 6, Fin 7, O); (Fin 7, Fin 8, O)]
  /\ clamp NaN (Fin 5) (Fin 60) = NaN
  /\ toHistogram [Fin 1] NaN residual = None
  /\ option_map summary
       (toHistogram [Fin 10000000000000000; Fin 10000000000000002] (Fin 5) absolute)
     = Some [(Fin 10000000000000000, Fin 10000000000000000, 1%nat);
             (Fin 10000000000000000, Fin 10000000000000000, O);
             (Fin 10000000000000000, Fin 10000000000000002, O);
             (Fin 10000000000000002, Fin 10000000000000002, O);
             (Fin 10000000000000002, Fin 10000000000000002, 1%nat)]
  /\ round64 (exp2 1023) = Fin (exp2 1023)
  /\ toHistogram [Fin (exp2 1023)] (Fin 5) residual = None.
Proof. repeat split; vm_compute; reflexivity. Qed.

(** More of the same.  The double nearest to [1e308] cannot be binned
    in residual mode either.  When the span overflows but no distance
    does, rows come back whose edges are [NaN] and [Infinity].  With a
    span of one or a few quanta of the subnormal range the width
    underflows (to [0], replaced by [1]; or to one quantum), and the
    value at the upper end of the domain is not counted by the last
    row. *)
Example toHistogram_overflow_and_underflow :
  toHistogram [Number "1e308"] (Fin 5) residual = None
  /\ option_map summary (toHistogram [Fin (- exp2 1023)] (Fin 5) residual)
     = Some [(NaN, PInf, 1%nat); (PInf, PInf, O); (PInf, PInf, O);
             (PInf, PInf, O); (PInf, PInf, O)]
  /\ option_map summary (toHistogram [Fin 0; Fin (exp2 (-1074))] (Fin 5) absolute)
     = Some [(Fin 0, Fin 1, 2%nat); (Fin 1, Fin 2, O); (Fin 2, Fin 3, O);
             (Fin 3, Fin 4, O); (Fin 4, Fin 5, O)]
  /\ option_map (List.map count)
       (toHistogram [Fin 0; Fin (3 * exp2 (-1074))] (Fin 5) absolute)
     = Some [1; 0; 0; 1; 0]%nat.
Proof. repeat split; vm_compute; reflexivity. Qed.

(** C2, as stated, fails: the requested bin count 2 is clamped to 5, so
    the sample of the example gets five rows, with the counts 1, 0, 2, 1
    and 1. *)
Lemma toHistogram_example_not_two_bins :
  option_map (@length HistRow)
    (toHistogram [Fin (-5); Fin (-1); Fin 0; Fin 1; Fin 5] (Fin 2) residual)
  = Some 5%nat
  /\ option_map (List.map count)
       (toHistogram [Fin (-5); Fin (-1); Fin 0; Fin 1; Fin 5] (Fin 2) residual)
     = Some [1; 0; 2; 1; 1]%nat.
Proof. split; vm_compute; reflexivity. Qed.

(** C2, amended: for the sample -5, -1, 0, 1, 5 with the requested bin
    count 2 in residual mode the bin count is clamped to 5; the domain is
    the symmetric [-5, 5]; the five rows have the edges -5, -3, -1, 1, 3
    and 5 and the counts 1, 0, 2, 1 and 1, the value 0 falling into the
    middle row from -1 to 1. *)
Theorem toHistogram_example_five_bins :
  clamp (Fin 2) (Fin 5) (Fin 60) = Fin 5
  /\ hist_domain [Fin (-5); Fin (-1); Fin 0; Fin 1; Fin 5] residual = Some (-5, 5)
  /\ option_map summary
       (toHistogram [Fin (-5); Fin (-1); Fin 0; Fin 1; Fin 5] (Fin 2) residual)
     = Some [(Fin (-5), Fin (-3), 1%nat); (Fin (-3), Fin (-1), O);
             (Fin (-1), Fin 1, 2%nat); (Fin 1, Fin 3, 1%nat); (Fin 3, Fin 5, 1%nat)]
  /\ toHistogram [Fin (-5); Fin (-1); Fin 0; Fin 1; Fin 5] (Fin 2) residual
     = toHistogram [Fin (-5); Fin (-1); Fin 0; Fin 1; Fin 5] (Fin 5) residual.
Proof. repeat split; vm_compute; reflexivity. Qed.

End Histogram.

(** ** The CSV codec *)

Section CsvCodec.
Import Csv.

Example parseCSV_example2 :
  parseCSV (txt "a,b" ++ [LF] ++ [ascii_of_N 49; comma; quote] ++ txt "x,y" ++ [quote; LF]
            ++ txt "2,z") [comma]
  = {| headers := [txt "a"; txt "b"];
       data := [[txt "1"; txt "x,y"]; [txt "2"; txt "z"]] |}.
Proof. reflexivity. Qed.

Lemma is_char_true a b : is_char a b = true <-> a = b.
Proof. apply Ascii.eqb_eq. Qed.

Lemma is_char_false a b : is_char a b = false <-> a <> b.
Proof. apply Ascii.eqb_neq. Qed.

Lemma is_char_refl a : is_char a a = true.
Proof. apply Ascii.eqb_refl. Qed.

(** The scanner in front of a character that is neither a quote nor, out
    of quotes, a delimiter or a line terminator. *)
Lemma scan_ordinary d c t st :
  c <> quote ->
  (inQuotes st = true \/ ([c] <> d /\ c <> LF /\ c <> CR)) ->
  scan d (c :: t) st = scan d t (append c st).
Proof.
  intros Hq H. cbn [scan].
  rewrite (proj2 (is_char_false c quote) Hq).
  destruct H as [H | (Hd & Hl & Hr)].
  - rewrite H. cbn [negb]. rewrite !andb_false_r. reflexivity.
  - rewrite (bool_decide_eq_false_2 _ Hd).
    rewrite (proj2 (is_char_false c LF) Hl), (proj2 (is_char_false c CR) Hr).
    reflexivity.
Qed.

Lemma scan_plain d s : forall t R row cur,
  (forall c, In c s -> c <> quote /\ [c] <> d /\ c <> LF /\ c <> CR) ->
  scan d (s ++ t) {| rows := R; row := row; cur := cur; inQuotes := false |}
  = scan d t {| rows := R; row := row; cur := cur ++ s; inQuotes := false |}.
Proof.
  induction s as [|c s IH]; intros t R row cur H.
  - rewrite app_nil_r. reflexivity.
  - destruct (H c (or_introl eq_refl)) as (Hq & Hd & Hl & Hr).
    change ((c :: s) ++ t) with (c :: (s ++ t)).
    rewrite scan_ordinary by (auto; right; auto).
    unfold append. cbn [rows Csv.row Csv.cur inQuotes].
    rewrite IH by (intros c' Hc'; apply H; right; exact Hc').
    rewrite <- app_assoc. reflexivity.
Qed.

Lemma scan_quoted_body d s : forall t R row cur,
  tail_ok t ->
  scan d (double_quotes s ++ quote :: t)
    {| rows := R; row := row; cur := cur; inQuotes := true |}
  = scan d t {| rows := R; row := row; cur := cur ++ s; inQuotes := false |}.
Proof.
  induction s as [|c s IH]; intros t R row cur Ht.
  - rewrite app_nil_r. cbn [double_quotes flat_map app scan].
    rewrite is_char_refl. destruct t as [|n t']; [reflexivity|].
    cbn [inQuotes andb]. simpl in Ht.
    rewrite (proj2 (is_char_false n quote) Ht). reflexivity.
  - cbn [double_quotes flat_map]. fold (double_quotes s).
    destruct (is_char c quote) eqn:E.
    + apply is_char_true in E. subst c.
      change (([quote; quote] ++ double_quotes s) ++ quote :: t)
        with (quote :: quote :: (double_quotes s ++ quote :: t)).
      cbn [scan]. rewrite is_char_refl. cbn [inQuotes andb].
      unfold append. cbn [rows Csv.row Csv.cur inQuotes].
      rewrite IH by exact Ht. rewrite <- app_assoc. reflexivity.
    + apply is_char_false in E.
      change (([c] ++ double_quotes s) ++ quote :: t)
        with (c :: (double_quotes s ++ quote :: t)).
      rewrite scan_ordinary by (auto; left; reflexivity).
      unfold append. cbn [rows Csv.row Csv.cur inQuotes].
      rewrite IH by exact Ht. rewrite <- app_assoc. reflexivity.
Qed.

Lemma needs_quotes_false s :
  needs_quotes s = false -> forall c, In c s -> c <> quote /\ c <> comma /\ c <> LF.
Proof.
  unfold needs_quotes. intros H c Hc.
  assert (is_char c quote || is_char c comma || is_char c LF = false) as E.
  { destruct (is_char c quote || is_char c comma || is_char c LF) eqn:E; [|reflexivity].
    rewrite <- H. symmetry. apply existsb_exists. exists c. split; assumption. }
  apply orb_false_iff in E as [E E3]. apply orb_false_iff in E as [E1 E2].
  rewrite !is_char_false in *. auto.
Qed.

(** One serialized cell in front of the scanner: its text ends up in
    [cur]. *)
Lemma scan_esc v : forall t R row cur,
  match v with Val s => no_bare_CR s | _ => True end ->
  tail_ok t ->
  scan [comma] (esc v ++ t) {| rows := R; row := row; cur := cur; inQuotes := false |}
  = scan [comma] t
      {| rows := R; row := row;
         cur := cur ++ match v with Val s => s | _ => [] end; inQuotes := false |}.
Proof.
  intros t R row cur Hv Ht. destruct v as [| |s]; cbn [esc].
  1,2: rewrite app_nil_r; reflexivity.
  destruct (needs_quotes s) eqn:E.
  - change ((quote :: double_quotes s ++ [quote]) ++ t)
      with (quote :: ((double_quotes s ++ [quote]) ++ t)).
    rewrite <- app_assoc. change ([quote] ++ t) with (quote :: t).
    cbn [scan]. rewrite is_char_refl.
    assert (Hnext : forall l, scan [comma] l (toggle {| rows := R; row := row; cur := cur; inQuotes := false |})
                   = scan [comma] l {| rows := R; row := row; cur := cur; inQuotes := true |})
      by reflexivity.
    destruct (double_quotes s ++ quote :: t) as [|n l] eqn:El.
    { destruct (double_quotes s); discriminate. }
    cbn [inQuotes andb]. rewrite Hnext, <- El. apply scan_quoted_body. exact Ht.
  - apply scan_plain. intros c Hc.
    destruct (needs_quotes_false s E c Hc) as (H1 & H2 & H3).
    repeat split; auto.
    + intros [= ->]. apply H2. reflexivity.
    + intros ->. specialize (Hv Hc). congruence.
Qed.

Lemma scan_LF t R row cur :
  scan [comma] (LF :: t) {| rows := R; row := row; cur := cur; inQuotes := false |}
  = scan [comma] t {| rows := R ++ [row ++ [cur]]; row := []; cur := []; inQuotes := false |}.
Proof.
  cbn [scan]. change (is_char LF quote) with false. cbn match.
  rewrite bool_decide_eq_false_2 by discriminate.
  change (is_char LF LF) with true. change (is_char LF CR) with false.
  cbn [inQuotes negb andb orb]. destruct t; reflexivity.
Qed.

Lemma scan_comma t R row cur :
  scan [comma] (comma :: t) {| rows := R; row := row; cur := cur; inQuotes := false |}
  = scan [comma] t {| rows := R; row := row ++ [cur]; cur := []; inQuotes := false |}.
Proof.
  cbn [scan]. change (is_char comma quote) with false. cbn match.
  rewrite bool_decide_eq_true_2 by reflexivity. reflexivity.
Qed.

(** A line of fields in front of a line feed becomes one more row. *)
Lemma scan_line fields : fields <> [] ->
  Forall (fun f => field_ok (fst f) (snd f)) fields ->
  forall t R row,
    scan [comma] (line_text fields ++ LF :: t)
      {| rows := R; row := row; cur := []; inQuotes := false |}
    = scan [comma] t
        {| rows := R ++ [row ++ List.map snd fields]; row := []; cur := [];
           inQuotes := false |}.
Proof.
  induction fields as [|[e v] rest IH]; intros Hne Hok t R row; [congruence|].
  apply Forall_cons in Hok as [Hf Hok]. unfold line_text in *.
  destruct rest as [|f2 rest'].
  - cbn [List.map join fst snd]. rewrite (Hf (LF :: t)) by discriminate.
    rewrite scan_LF. reflexivity.
  - change (join [comma] (List.map fst ((e, v) :: f2 :: rest')))
      with (e ++ [comma] ++ join [comma] (List.map fst (f2 :: rest'))).
    rewrite <- !app_assoc. change ([comma] ++ ?l) with (comma :: l).
    rewrite (Hf (comma :: _)) by discriminate.
    rewrite scan_comma, IH by (congruence || assumption).
    cbn [List.map snd app]. rewrite <- app_assoc. reflexivity.
Qed.

(** The last line of a text, followed by the final [pushCell]. *)
Lemma scan_last_line fields : fields <> [] ->
  Forall (fun f => field_ok (fst f) (snd f)) fields ->
  forall R row,
    pushCell (scan [comma] (line_text fields)
                {| rows := R; row := row; cur := []; inQuotes := false |})
    = {| rows := R; row := row ++ List.map snd fields; cur := []; inQuotes := false |}.
Proof.
  induction fields as [|[e v] rest IH]; intros Hne Hok R row; [congruence|].
  apply Forall_cons in Hok as [Hf Hok]. unfold line_text in *.
  destruct rest as [|f2 rest'].
  - cbn [List.map join fst snd]. rewrite <- (app_nil_r e), (Hf []) by exact I.
    reflexivity.
  - change (join [comma] (List.map fst ((e, v) :: f2 :: rest')))
      with (e ++ [comma] ++ join [comma] (List.map fst (f2 :: rest'))).
    change ([comma] ++ ?l) with (comma :: l).
    rewrite (Hf (comma :: _)) by discriminate.
    rewrite scan_comma, IH by (congruence || assumption).
    cbn [List.map snd app]. rewrite <- app_assoc. reflexivity.
Qed.

(** A text of lines, followed by the final [pushCell] and [pushRow]. *)
Lemma scan_lines lines : lines <> [] ->
  Forall (fun fields => fields <> []
            /\ Forall (fun f => field_ok (fst f) (snd f)) fields) lines ->
  forall R,
    pushRow (pushCell (scan [comma] (join [LF] (List.map line_text lines))
                         {| rows := R; row := []; cur := []; inQuotes := false |}))
    = {| rows := R ++ List.map (List.map snd) lines; row := []; cur := [];
         inQuotes := false |}.
Proof.
  induction lines as [|l rest IH]; intros Hne Hok R; [congruence|].
  apply Forall_cons in Hok as [[Hl Hf] Hok].
  destruct rest as [|l2 rest'].
  - cbn [List.map join]. rewrite scan_last_line by assumption. reflexivity.
  - change (join [LF] (List.map line_text (l :: l2 :: rest')))
      with (line_text l ++ [LF] ++ join [LF] (List.map line_text (l2 :: rest'))).
    change ([LF] ++ ?x) with (LF :: x).
    rewrite scan_line by assumption.
    rewrite IH by (congruence || assumption).
    cbn [List.map app]. rewrite <- app_assoc. reflexivity.
Qed.

Lemma parseCSV_unfold t d :
  parseCSV t d
  = match drop_trailing_empty (rows (pushRow (pushCell (scan d t start)))) with
    | [] => no_result
    | h :: rest => {| headers := h; data := rest |}
    end.
Proof.
  unfold parseCSV.
  assert (forall x, match row (pushCell x) with [] => pushCell x | _ => pushRow (pushCell x) end
                    = pushRow (pushCell x)) as ->; [|reflexivity].
  intros x. unfold pushCell at 1. cbn [row Csv.row]. destruct (Csv.row x); reflexivity.
Qed.

Lemma drop_trailing_empty_keep R last :
  all_empty last = false -> drop_trailing_empty (R ++ [last]) = R ++ [last].
Proof.
  intros H. unfold drop_trailing_empty. rewrite rev_unit. cbn [pop_empty].
  rewrite H. rewrite <- rev_unit. apply rev_involutive.
Qed.

(** *** The header set *)

Lemma filter_filter_key (hs : list text) k l :
  k ∈ hs ->
  List.filter (fun x => negb (bool_decide (x ∈ hs)))
    (List.filter (fun k' => negb (bool_decide (k' = k))) l)
  = List.filter (fun x => negb (bool_decide (x ∈ hs))) l.
Proof.
  intros Hk. induction l as [|x l IH]; [reflexivity|].
  cbn [List.filter]. destruct (bool_decide (x = k)) eqn:E; cbn [negb].
  - apply bool_decide_eq_true in E. subst x.
    rewrite (bool_decide_eq_true_2 _ Hk). cbn [negb]. exact IH.
  - cbn [List.filter]. rewrite IH. reflexivity.
Qed.

Lemma filter_snoc_key (hs : list text) k l :
  List.filter (fun x => negb (bool_decide (x ∈ hs ++ [k]))) l
  = List.filter (fun x => negb (bool_decide (x ∈ hs)))
      (List.filter (fun k' => negb (bool_decide (k' = k))) l).
Proof.
  induction l as [|x l IHl]; [reflexivity|].
  cbn [List.filter].
  destruct (bool_decide (x = k)) eqn:E; cbn [negb].
  - apply bool_decide_eq_true in E. subst x.
    rewrite bool_decide_eq_true_2
      by (apply elem_of_app; right; apply list_elem_of_singleton; reflexivity).
    cbn [negb]. exact IHl.
  - apply bool_decide_eq_false in E. cbn [List.filter].
    destruct (bool_decide (x ∈ hs)) eqn:E2.
    + apply bool_decide_eq_true in E2.
      rewrite bool_decide_eq_true_2 by (apply elem_of_app; left; exact E2).
      cbn [negb]. exact IHl.
    + apply bool_decide_eq_false in E2.
      rewrite bool_decide_eq_false_2
        by (rewrite elem_of_app, list_elem_of_singleton; intros [?|?]; contradiction).
      cbn [negb]. rewrite IHl. reflexivity.
Qed.

Lemma foldl_add_key ks : forall hs,
  foldl add_key hs ks
  = hs ++ List.filter (fun x => negb (bool_decide (x ∈ hs))) (first_seen ks).
Proof.
  induction ks as [|k ks IH]; intros hs.
  - cbn. rewrite app_nil_r. reflexivity.
  - cbn [foldl first_seen List.filter]. rewrite IH. unfold add_key.
    destruct (decide (k ∈ hs)) as [Hin | Hnin].
    + rewrite (bool_decide_eq_true_2 _ Hin). cbn [negb].
      rewrite filter_filter_key by exact Hin. reflexivity.
    + rewrite (bool_decide_eq_false_2 _ Hnin). cbn [negb].
      rewrite <- app_assoc. cbn [app]. do 2 f_equal. apply filter_snoc_key.
Qed.

Lemma foldl_records (rs : list record) : forall hs,
  foldl (fun hs (r : record) => foldl add_key hs (List.map fst r)) hs rs
  = foldl add_key hs (all_keys rs).
Proof.
  induction rs as [|r rs IH]; intros hs; [reflexivity|].
  cbn [foldl]. rewrite IH. unfold all_keys. cbn [List.map List.concat].
  rewrite foldl_app. reflexivity.
Qed.

(** The headers are the keys of all records in the order in which they
    are first seen. *)
Lemma collect_headers_first_seen (rs : list record) :
  collect_headers rs = first_seen (all_keys rs).
Proof.
  unfold collect_headers. rewrite foldl_records, foldl_add_key.
  cbn [app]. induction (first_seen (all_keys rs)) as [|x l IH]; [reflexivity|].
  cbn [List.filter]. rewrite bool_decide_eq_false_2 by apply not_elem_of_nil.
  cbn [negb]. rewrite IH. reflexivity.
Qed.

Lemma first_seen_In k l : In k (first_seen l) <-> In k l.
Proof.
  induction l as [|x l IH]; [reflexivity|].
  cbn [first_seen]. split.
  - intros [-> | H]; [left; reflexivity|].
    apply filter_In in H as [H _]. right. apply IH. exact H.
  - intros [-> | H]; [left; reflexivity|].
    destruct (decide (k = x)) as [-> | Hne]; [left; reflexivity|].
    right. apply filter_In. split; [apply IH; exact H|].
    rewrite bool_decide_eq_false_2 by exact Hne. reflexivity.
Qed.

(** *** From the decidable conditions to the propositions *)

Lemma plainb_plain s : plainb s = true -> plain s.
Proof.
  unfold plainb, plain. rewrite forallb_forall. intros H c Hc.
  specialize (H c Hc). apply negb_true_iff in H.
  apply orb_false_iff in H as [H H4]. apply orb_false_iff in H as [H H3].
  apply orb_false_iff in H as [H1 H2]. rewrite !is_char_false in *. auto.
Qed.

Lemma safe_value_no_bare_CR s : safe_value (Val s) = true -> no_bare_CR s.
Proof.
  unfold safe_value, no_bare_CR. intros H Hin.
  apply orb_true_iff in H as [H | H]; [|exact H].
  apply negb_true_iff in H.
  assert (existsb (fun c => is_char c CR) s = true); [|congruence].
  apply existsb_exists. exists CR. split; [exact Hin | apply is_char_refl].
Qed.

Lemma get_own (r : record) h :
  get r h = match own_value r h with Some v => v | None => inherited h end.
Proof.
  induction r as [|[k x] r IH]; cbn [get own_value]; [reflexivity|].
  destruct (decide (k = h)); [reflexivity | exact IH].
Qed.

Lemma own_value_In (r : record) h v : own_value r h = Some v -> In (h, v) r.
Proof.
  induction r as [|[k x] r IH]; cbn [own_value]; [discriminate|].
  destruct (decide (k = h)) as [-> | Hne].
  - intros [= ->]. left. reflexivity.
  - intros H. right. apply IH. exact H.
Qed.

Lemma member_In table h s : member table h = Val s -> In (h, s) table.
Proof.
  induction table as [|[k x] table IH]; cbn [member]; [discriminate|].
  destruct (decide (k = h)) as [-> | Hne].
  - intros [= ->]. left. reflexivity.
  - intros H. right. apply IH. exact H.
Qed.

(** The texts of the inherited members hold no comma, double quote, line
    feed or carriage return. *)
Lemma inherited_plain h s : inherited h = Val s -> plain s.
Proof.
  intros H. apply member_In in H. apply plainb_plain.
  assert (Hall : forallb (fun kv : text * text => plainb (snd kv)) Object_prototype = true)
    by (vm_compute; reflexivity).
  rewrite forallb_forall in Hall. apply (Hall (h, s) H).
Qed.

Lemma member_missing table h :
  member table h = Undefined <-> ~ In h (List.map fst table).
Proof.
  induction table as [|[k x] table IH]; cbn [member List.map fst In].
  - split; [intros _ [] | reflexivity].
  - destruct (decide (k = h)) as [-> | Hne].
    + split; [discriminate | intros H; exfalso; apply H; left; reflexivity].
    + rewrite IH. split; [intros H [E | Hin]; [congruence | apply H; exact Hin]
                        | intros H Hin; apply H; right; exact Hin].
Qed.

Lemma inherited_missing h :
  inherited h = Undefined <-> ~ In h (List.map fst Object_prototype).
Proof. apply member_missing. Qed.

Lemma get_cases (r : record) h s :
  get r h = Val s -> In (h, Val s) r \/ inherited h = Val s.
Proof.
  rewrite get_own. destruct (own_value r h) as [v|] eqn:E.
  - intros ->. left. apply own_value_In. exact E.
  - intros H. right. exact H.
Qed.

Lemma well_formed_key rs r k v :
  well_formed rs = true -> In r rs -> In (k, v) r -> plain k.
Proof.
  unfold well_formed. rewrite forallb_forall. intros H Hr Hkv.
  specialize (H r Hr). rewrite forallb_forall in H. specialize (H (k, v) Hkv).
  apply andb_true_iff in H as [H _]. apply plainb_plain. exact H.
Qed.

Lemma well_formed_value rs r k s :
  well_formed rs = true -> In r rs -> In (k, Val s) r -> no_bare_CR s.
Proof.
  unfold well_formed. rewrite forallb_forall. intros H Hr Hkv.
  specialize (H r Hr). rewrite forallb_forall in H. specialize (H (k, Val s) Hkv).
  apply andb_true_iff in H as [_ H]. apply safe_value_no_bare_CR. exact H.
Qed.

Lemma all_keys_In (rs : list record) k :
  In k (all_keys rs) -> exists r v, In r rs /\ In (k, v) r.
Proof.
  unfold all_keys. rewrite in_concat. intros (ks & Hks & Hk).
  apply in_map_iff in Hks as (r & <- & Hr).
  apply in_map_iff in Hk as ([k' v] & Hfst & Hkv). cbn in Hfst. subst k'.
  exists r, v. split; assumption.
Qed.

(** *** The fields of a header line and of a record line *)

Lemma field_ok_plain k : plain k -> field_ok k k.
Proof.
  intros Hk t R row cur _. apply scan_plain. intros c Hc.
  destruct (Hk c Hc) as (H1 & H2 & H3 & H4). repeat split; auto.
  intros [= ->]. apply H2. reflexivity.
Qed.

Lemma field_ok_esc (r : record) h :
  (forall s, get r h = Val s -> no_bare_CR s) ->
  field_ok (esc (get r h)) (cell_text r h).
Proof.
  intros Hv t R row cur Ht. unfold cell_text.
  apply scan_esc; [|exact Ht].
  destruct (get r h) as [| |s]; [exact I | exact I | apply Hv; reflexivity].
Qed.

Lemma toCSV_lines r0 rs :
  toCSV (r0 :: rs) [comma]
  = join [LF] (List.map line_text
      (header_fields (collect_headers (r0 :: rs))
       :: List.map (record_fields (collect_headers (r0 :: rs))) (r0 :: rs))).
Proof.
  unfold toCSV. set (hs := collect_headers (r0 :: rs)).
  f_equal. change (List.map line_text (?a :: ?l)) with (line_text a :: List.map line_text l).
  f_equal.
  - unfold line_text, header_fields. rewrite List.map_map. cbn [fst].
    rewrite List.map_id. reflexivity.
  - rewrite List.map_map. apply map_ext. intros r.
    unfold line_of, line_text, record_fields. rewrite List.map_map. reflexivity.
Qed.

(** A key that a record lacks and that names a member of
    [Object.prototype] is written with the text of that member. *)
Example toCSV_inherited_member :
  toCSV [[(txt "constructor", Val (txt "x"))]; [(txt "a", Val (txt "y"))]] [comma]
  = txt "constructor,a" ++ [LF] ++ txt "x," ++ [LF]
    ++ txt "function Object() { [native code] },y".
Proof. vm_compute. reflexivity. Qed.

(** C3, as stated, fails: a last record whose cells are all empty is
    serialized as an empty last line, which [parseCSV] drops as a trailing
    empty row.  Two records come back as one, and a single record with
    empty cells comes back as a header without rows. *)
Lemma parseCSV_toCSV_loses_empty_last_record :
  parseCSV (toCSV [[(txt "a", Val (txt "x"))]; [(txt "a", Val [])]] [comma]) [comma]
  = {| headers := [txt "a"]; data := [[txt "x"]] |}
  /\ parseCSV (toCSV [[(txt "a", Val []); (txt "b", Val [])]] [comma]) [comma]
     = {| headers := [txt "a"; txt "b"]; data := [] |}.
Proof. split; reflexivity. Qed.

(** Two more losses, both outside the amended statement: a value with a
    bare carriage return is not quoted and splits the row, and a key is
    written without quoting. *)
Example parseCSV_toCSV_bare_CR :
  parseCSV (toCSV [[(txt "a", Val (txt "x" ++ [CR] ++ txt "y"))]] [comma]) [comma]
  = {| headers := [txt "a"]; data := [[txt "x"]; [txt "y"]] |}.
Proof. reflexivity. Qed.

Example parseCSV_toCSV_comma_in_key :
  parseCSV (toCSV [[(txt "a,b", Val (txt "x"))]] [comma]) [comma]
  = {| headers := [txt "a"; txt "b"]; data := [[txt "x"]] |}.
Proof. reflexivity. Qed.

(** C3, amended: for every list of string-keyed records whose keys hold
    no comma, double quote, line feed or carriage return, whose values
    hold a carriage return only together with a comma, a double quote or a
    line feed, and whose last record has a cell that is not empty,
    [parseCSV(toCSV(rows))] returns as headers the keys of all records in
    first-seen order and as rows, record by record, the string of [r[h]]
    for every header [h]: the string of the value of an own key (empty
    for [null] and [undefined]); for a key that the record lacks the
    empty string, unless the key names a member of [Object.prototype]
    ([constructor], [toString], ...), whose text is written then; values
    with commas, double quotes and line feeds come back exactly. *)
Theorem parseCSV_toCSV_round_trip (rs : list record) :
  well_formed rs = true ->
  last_has_text rs = true ->
  parseCSV (toCSV rs [comma]) [comma]
  = {| headers := first_seen (all_keys rs);
       data := List.map (fun r => List.map (cell_text r) (first_seen (all_keys rs))) rs |}
  /\ (forall r h,
        cell_text r h
        = text_of match own_value r h with Some v => v | None => inherited h end)
  /\ (forall h, inherited h = Undefined <-> ~ In h (List.map fst Object_prototype)).
Proof.
  intros Hwf Hlast.
  split; [|split; [intros r h; unfold cell_text; rewrite get_own; reflexivity
                  | apply inherited_missing]].
  destruct rs as [|r0 rs']; [discriminate|].
  set (rs := r0 :: rs') in *.
  rewrite <- collect_headers_first_seen. set (hs := collect_headers rs).
  unfold last_has_text in Hlast.
  destruct (last rs) as [rl|] eqn:Hl; [|discriminate].
  apply existsb_exists in Hlast as (h & Hh & Htext).
  apply negb_true_iff, bool_decide_eq_false in Htext.
  assert (Hhs : In h hs).
  { unfold hs. rewrite collect_headers_first_seen. apply first_seen_In. exact Hh. }
  assert (Hkeys : forall k, In k hs -> plain k).
  { intros k Hk. unfold hs in Hk. rewrite collect_headers_first_seen in Hk.
    apply first_seen_In, all_keys_In in Hk as (r & v & Hr & Hkv).
    eapply well_formed_key; eassumption. }
  assert (Hvals : forall r k s, In r rs -> get r k = Val s -> no_bare_CR s).
  { intros r k s Hr Hg. apply get_cases in Hg as [Hown | Hinh].
    - eapply well_formed_value; [exact Hwf | exact Hr | exact Hown].
    - intros Hcr. destruct (inherited_plain k s Hinh CR Hcr) as (_ & _ & _ & Hne).
      congruence. }
  rewrite parseCSV_unfold. unfold rs at 1. rewrite toCSV_lines. fold rs hs.
  unfold start. rewrite scan_lines.
  - cbn [rows app List.map].
    assert (Hh_cells : List.map snd (header_fields hs) = hs).
    { unfold header_fields. rewrite List.map_map. apply List.map_id. }
    assert (Hr_cells : forall r, List.map snd (record_fields hs r) = List.map (cell_text r) hs).
    { intros r. unfold record_fields. rewrite List.map_map. reflexivity. }
    rewrite Hh_cells, List.map_map.
    rewrite (map_ext _ _ Hr_cells).
    apply last_Some in Hl as [init Hinit].
    change (hs :: List.map (fun r => List.map (cell_text r) hs) rs)
      with ([hs] ++ List.map (fun r => List.map (cell_text r) hs) rs).
    rewrite Hinit, List.map_app, app_assoc. cbn [List.map].
    rewrite drop_trailing_empty_keep.
    + rewrite <- app_assoc. reflexivity.
    + unfold all_empty. apply not_true_is_false. rewrite forallb_forall. intros Hall.
      specialize (Hall (cell_text rl h) (in_map _ _ _ Hhs)).
      apply bool_decide_eq_true in Hall. contradiction.
  - discriminate.
  - apply Forall_cons. split.
    + split; [destruct hs; [destruct Hhs | discriminate]|].
      apply Forall_forall. intros f Hf. apply list_elem_of_In in Hf.
      unfold header_fields in Hf. apply in_map_iff in Hf as (k & <- & Hk).
      apply field_ok_plain, Hkeys. exact Hk.
    + apply Forall_forall. intros fields Hf. apply list_elem_of_In in Hf.
      apply in_map_iff in Hf as (r & <- & Hr). split.
      * unfold record_fields. destruct hs; [destruct Hhs | discriminate].
      * apply Forall_forall. intros f Hf. apply list_elem_of_In in Hf.
        unfold record_fields in Hf. apply in_map_iff in Hf as (k & <- & Hk).
        apply field_ok_esc. intros s Hs. eapply Hvals; eassumption.
Qed.

(** The theorem applies to two records with a comma, a double quote and
    line breaks inside their values, and with a key missing from the
    second record. *)
Lemma parseCSV_toCSV_round_trip_witness :
  parseCSV
    (toCSV [[(txt "name", Val (txt "Doe, Jane")); (txt "note", Val (txt "6" ++ [quote]))];
            [(txt "name", Val (txt "a" ++ [CR; LF] ++ txt "b"))]] [comma]) [comma]
  = {| headers := [txt "name"; txt "note"];
       data := [[txt "Doe, Jane"; txt "6" ++ [quote]];
                [txt "a" ++ [CR; LF] ++ txt "b"; []]] |}.
Proof.
  apply (parseCSV_toCSV_round_trip
    [[(txt "name", Val (txt "Doe, Jane")); (txt "note", Val (txt "6" ++ [quote]))];
     [(txt "name", Val (txt "a" ++ [CR; LF] ++ txt "b"))]]); reflexivity.
Defined.

(** *** Header-only input *)

Lemma scan_single_line d t : forall R row cur,
  (forall c, In c t -> c <> quote /\ c <> LF /\ c <> CR) ->
  pushCell (scan d t {| rows := R; row := row; cur := cur; inQuotes := false |})
  = {| rows := R; row := row ++ split_on d t cur; cur := []; inQuotes := false |}.
Proof.
  induction t as [|c t IH]; intros R row cur H; [reflexivity|].
  destruct (H c (or_introl eq_refl)) as (Hq & Hl & Hr).
  assert (Ht : forall c', In c' t -> c' <> quote /\ c' <> LF /\ c' <> CR)
    by (intros c' Hc'; apply H; right; exact Hc').
  cbn [scan split_on]. rewrite (proj2 (is_char_false c quote) Hq).
  destruct (bool_decide ([c] = d)) eqn:E; cbn [inQuotes negb andb].
  - unfold pushCell at 2. cbn [rows Csv.row Csv.cur inQuotes].
    rewrite IH by exact Ht. rewrite <- app_assoc. reflexivity.
  - rewrite (proj2 (is_char_false c LF) Hl), (proj2 (is_char_false c CR) Hr).
    cbn [orb andb]. unfold append. cbn [rows Csv.row Csv.cur inQuotes].
    apply IH. exact Ht.
Qed.

Lemma scan_single_line_LF t : forall u R row cur,
  (forall c, In c t -> c <> quote /\ c <> LF /\ c <> CR) ->
  scan [comma] (t ++ LF :: u) {| rows := R; row := row; cur := cur; inQuotes := false |}
  = scan [comma] u
      {| rows := R ++ [row ++ split_on [comma] t cur]; row := []; cur := [];
         inQuotes := false |}.
Proof.
  induction t as [|c t IH]; intros u R row cur H.
  - apply scan_LF.
  - destruct (H c (or_introl eq_refl)) as (Hq & Hl & Hr).
    assert (Ht : forall c', In c' t -> c' <> quote /\ c' <> LF /\ c' <> CR)
      by (intros c' Hc'; apply H; right; exact Hc').
    change ((c :: t) ++ LF :: u) with (c :: (t ++ LF :: u)). cbn [split_on].
    destruct (bool_decide ([c] = [comma])) eqn:E.
    + apply bool_decide_eq_true in E. injection E as ->.
      rewrite scan_comma, IH by exact Ht. rewrite <- app_assoc. reflexivity.
    + apply bool_decide_eq_false in E.
      rewrite scan_ordinary by (auto; right; auto).
      unfold append. cbn [rows Csv.row Csv.cur inQuotes]. apply IH. exact Ht.
Qed.

Lemma drop_trailing_empty_single cells :
  drop_trailing_empty [cells] = if all_empty cells then [] else [cells].
Proof. unfold drop_trailing_empty. cbn. destruct (all_empty cells); reflexivity. Qed.

(** C5, as stated, fails for a header-only input: the header row comes
    back as the headers. *)
Lemma parseCSV_header_row_kept :
  parseCSV (txt "a,b") [comma] = {| headers := [txt "a"; txt "b"]; data := [] |}
  /\ parseCSV (txt "a,b" ++ [LF]) [comma] = {| headers := [txt "a"; txt "b"]; data := [] |}.
Proof. split; reflexivity. Qed.

(** C5, amended: the empty input yields no headers and no rows.  An input
    that is a single row without quotes and line breaks, alone or
    followed by one line feed, yields no rows and, as headers, the cells
    of that row; the headers are empty only when every cell of the row is
    empty. *)
Theorem parseCSV_header_only :
  (forall d, parseCSV [] d = no_result)
  /\ (forall d t, (forall c, In c t -> c <> quote /\ c <> LF /\ c <> CR) ->
        parseCSV t d
        = if all_empty (split_on d t []) then no_result
          else {| headers := split_on d t []; data := [] |})
  /\ (forall t, (forall c, In c t -> c <> quote /\ c <> LF /\ c <> CR) ->
        parseCSV (t ++ [LF]) [comma]
        = if all_empty (split_on [comma] t []) then no_result
          else {| headers := split_on [comma] t []; data := [] |}).
Proof.
  repeat apply conj.
  - reflexivity.
  - intros d t Ht. rewrite parseCSV_unfold. unfold start.
    rewrite scan_single_line by exact Ht. cbn [pushRow rows row app].
    rewrite drop_trailing_empty_single.
    destruct (all_empty (split_on d t [])); reflexivity.
  - intros t Ht. rewrite parseCSV_unfold. unfold start.
    rewrite scan_single_line_LF by exact Ht.
    cbn [scan pushCell pushRow rows row cur inQuotes app].
    assert (drop_trailing_empty [split_on [comma] t []; [[]]]
            = drop_trailing_empty [split_on [comma] t []]) as -> by reflexivity.
    rewrite drop_trailing_empty_single.
    destruct (all_empty (split_on [comma] t [])); reflexivity.
Qed.

(** *** Quoting and the delimiter *)

(** C4 at the delimiter [;]: a value that holds the delimiter is written
    without quotes, so the parser with the same delimiter splits it, while
    a comma is quoted under every delimiter. *)
Lemma toCSV_delimiter_not_quoted :
  toCSV [[(txt "a", Val (txt "x;y"))]] (txt ";") = txt "a" ++ [LF] ++ txt "x;y"
  /\ parseCSV (toCSV [[(txt "a", Val (txt "x;y"))]] (txt ";")) (txt ";")
     = {| headers := [txt "a"]; data := [[txt "x"; txt "y"]] |}
  /\ toCSV [[(txt "a", Val (txt "x,y"))]] (txt ";")
     = txt "a" ++ [LF; quote] ++ txt "x,y" ++ [quote].
Proof. repeat split; reflexivity. Qed.

(** What [esc] does under every delimiter: a value with a comma, a double
    quote or a line feed is wrapped in quotes with its quotes doubled, any
    other value is written as it is, and a key that the record neither
    has nor inherits gives the empty text. *)
Lemma esc_cases (r : record) h :
  (get r h = Undefined -> esc (get r h) = [])
  /\ (forall s, get r h = Val s ->
        esc (get r h)
        = if needs_quotes s then quote :: double_quotes s ++ [quote] else s).
Proof. split; [intros -> | intros s ->]; reflexivity. Qed.

End CsvCodec.

(** ** Stable keys *)

Import Json.

Section StableKey.

(** *** The order of the keys *)

Lemma ascii_compare_N a b :
  Ascii.compare a b = N.compare (N_of_ascii a) (N_of_ascii b).
Proof. reflexivity. Qed.

Lemma string_compare_trans_le s1 : forall s2 s3,
  String.compare s1 s2 <> Gt -> String.compare s2 s3 <> Gt -> String.compare s1 s3 <> Gt.
Proof.
  induction s1 as [|a s1 IH]; intros [|b s2] [|c s3]; cbn; try congruence.
  rewrite !ascii_compare_N.
  destruct (N.compare_spec (N_of_ascii a) (N_of_ascii b)) as [E1|E1|E1];
    destruct (N.compare_spec (N_of_ascii b) (N_of_ascii c)) as [E2|E2|E2];
    destruct (N.compare_spec (N_of_ascii a) (N_of_ascii c)) as [E3|E3|E3];
    try congruence; try lia.
  apply IH.
Qed.

#[local] Instance key_le_trans : Transitive key_le.
Proof.
  intros a b c. unfold key_le, String.leb. intros H1 H2.
  pose proof (string_compare_trans_le a b c) as T.
  destruct (String.compare a b); destruct (String.compare b c);
    destruct (String.compare a c); try discriminate; try reflexivity;
    exfalso; apply T; congruence.
Qed.

#[local] Instance key_le_total : Total key_le.
Proof. intros a b. apply String.leb_total. Qed.

#[local] Instance key_le_antisym : AntiSymm (=) key_le.
Proof. intros a b. apply String.leb_antisym. Qed.

(** Sorting forgets the order of the keys. *)
Lemma sort_keys_perm ks1 ks2 : ks1 ≡ₚ ks2 -> sort_keys ks1 = sort_keys ks2.
Proof.
  intros H. unfold sort_keys. apply (Sorted_unique key_le).
  - apply Sorted_merge_sort. apply _.
  - apply Sorted_merge_sort. apply _.
  - rewrite !merge_sort_Permutation. exact H.
Qed.

Lemma sort_keys_In ks k : In k (sort_keys ks) <-> In k ks.
Proof.
  unfold sort_keys. rewrite <- !list_elem_of_In, merge_sort_Permutation. reflexivity.
Qed.

Lemma sort_keys_NoDup ks : NoDup ks -> NoDup (sort_keys ks).
Proof. unfold sort_keys. rewrite merge_sort_Permutation. auto. Qed.

(** *** Induction over values and the equations of the nested loops *)

Lemma value_induction (P : value -> Prop) :
  P JUndefined -> P JNull -> (forall b, P (JBool b)) -> (forall n, P (JNumber n)) ->
  (forall s, P (JString s)) ->
  (forall ref items, Forall P items -> P (JArray ref items)) ->
  (forall ref fields, Forall (fun kv => P (snd kv)) fields -> P (JObject ref fields)) ->
  forall v, P v.
Proof.
  intros H1 H2 H3 H4 H5 HA HO.
  fix IH 1. intros [| | b | n | s | ref items | ref fields].
  - exact H1.
  - exact H2.
  - apply H3.
  - apply H4.
  - apply H5.
  - apply HA. induction items as [|x r IHr]; constructor; [apply IH | exact IHr].
  - apply HO. induction fields as [|[k x] r IHr]; constructor; [apply IH | exact IHr].
Qed.

Lemma sorter_array ref items seen :
  sorter (JArray ref items) seen
  = if decide (ref ∈ seen) then (TUndefined, seen)
    else let '(ts, seen') := run_items (List.map sorter items) ({[ref]} ∪ seen) in
         (TArray ts, seen').
Proof.
  assert (E : forall l,
    (fix each (l : list value) :=
       match l with [] => [] | x :: r => sorter x :: each r end) l
    = List.map sorter l).
  { induction l as [|x r IH]; cbn; [reflexivity | rewrite IH; reflexivity]. }
  cbn [sorter]. rewrite E. reflexivity.
Qed.

Lemma sorter_object ref fields seen :
  sorter (JObject ref fields) seen
  = if decide (ref ∈ seen) then (TUndefined, seen)
    else let '(out, seen') :=
           run_fields (sort_keys (List.map fst fields))
             (List.map (on_value sorter) fields) [] ({[ref]} ∪ seen) in
         (TObject out, seen').
Proof.
  assert (E : forall l,
    (fix each (l : list (string * value)) :=
       match l with [] => [] | (k, x) :: r => (k, sorter x) :: each r end) l
    = List.map (on_value sorter) l).
  { induction l as [|[k x] r IH]; cbn; [reflexivity | rewrite IH; reflexivity]. }
  cbn [sorter]. rewrite E. reflexivity.
Qed.

Lemma canon_array ref items : canon (JArray ref items) = TArray (List.map canon items).
Proof.
  assert (E : forall l,
    (fix each (l : list value) :=
       match l with [] => [] | x :: r => canon x :: each r end) l
    = List.map canon l).
  { induction l as [|x r IH]; cbn; [reflexivity | rewrite IH; reflexivity]. }
  cbn [canon]. rewrite E. reflexivity.
Qed.

Lemma canon_object ref fields :
  canon (JObject ref fields)
  = TObject (build (sort_keys (List.map fst fields)) (List.map (on_value canon) fields) []).
Proof.
  assert (E : forall l,
    (fix each (l : list (string * value)) :=
       match l with [] => [] | (k, x) :: r => (k, canon x) :: each r end) l
    = List.map (on_value canon) l).
  { induction l as [|[k x] r IH]; cbn; [reflexivity | rewrite IH; reflexivity]. }
  cbn [canon]. rewrite E. reflexivity.
Qed.

Lemma refs_array ref items : refs (JArray ref items) = ref :: flat_map refs items.
Proof.
  assert (E : forall l,
    (fix each (l : list value) :=
       match l with [] => [] | x :: r => refs x ++ each r end) l
    = flat_map refs l).
  { induction l as [|x r IH]; cbn; [reflexivity | rewrite IH; reflexivity]. }
  cbn [refs]. rewrite E. reflexivity.
Qed.

Lemma refs_object ref fields :
  refs (JObject ref fields) = ref :: flat_map (fun kv => refs (snd kv)) fields.
Proof.
  assert (E : forall l,
    (fix each (l : list (string * value)) :=
       match l with [] => [] | (_, x) :: r => refs x ++ each r end) l
    = flat_map (fun kv => refs (snd kv)) l).
  { induction l as [|[k x] r IH]; cbn; [reflexivity | rewrite IH; reflexivity]. }
  cbn [refs]. rewrite E. reflexivity.
Qed.

Lemma keys_distinct_array ref items :
  keys_distinct (JArray ref items) = forallb keys_distinct items.
Proof.
  assert (E : forall l,
    (fix each (l : list value) :=
       match l with [] => true | x :: r => keys_distinct x && each r end) l
    = forallb keys_distinct l).
  { induction l as [|x r IH]; cbn; [reflexivity | rewrite IH; reflexivity]. }
  cbn [keys_distinct]. rewrite E. reflexivity.
Qed.

Lemma keys_distinct_object ref fields :
  keys_distinct (JObject ref fields)
  = bool_decide (NoDup (List.map fst fields))
    && forallb (fun kv => keys_distinct (snd kv)) fields.
Proof.
  assert (E : forall l,
    (fix each (l : list (string * value)) :=
       match l with [] => true | (_, x) :: r => keys_distinct x && each r end) l
    = forallb (fun kv => keys_distinct (snd kv)) l).
  { induction l as [|[k x] r IH]; cbn; [reflexivity | rewrite IH; reflexivity]. }
  cbn [keys_distinct]. rewrite E. reflexivity.
Qed.

Lemma lookup_field_map {A B} (f : A -> B) (fields : list (string * A)) k :
  lookup_field (List.map (on_value f) fields) k = option_map f (lookup_field fields k).
Proof.
  induction fields as [|[k' x] r IH]; cbn; [reflexivity|].
  destruct (decide (k' = k)); [reflexivity | exact IH].
Qed.

Lemma lookup_field_In {A} (fields : list (string * A)) k x :
  lookup_field fields k = Some x -> In (k, x) fields.
Proof.
  induction fields as [|[k' y] r IH]; cbn; [discriminate|].
  destruct (decide (k' = k)) as [-> | Hne].
  - intros [= ->]. left. reflexivity.
  - intros H. right. apply IH. exact H.
Qed.

Lemma lookup_field_key {A} (fields : list (string * A)) k :
  In k (List.map fst fields) -> exists x, lookup_field fields k = Some x.
Proof.
  induction fields as [|[k' y] r IH]; cbn; [intros []|].
  destruct (decide (k' = k)) as [-> | Hne]; [eauto|].
  intros [H | H]; [congruence | apply IH; exact H].
Qed.

(** Two fields under different keys hold values without a common
    reference, when no reference occurs twice among the fields. *)
Lemma fields_refs_disjoint (fields : list (string * value)) k1 k2 x1 x2 r :
  NoDup (flat_map (fun kv => refs (snd kv)) fields) ->
  lookup_field fields k1 = Some x1 -> lookup_field fields k2 = Some x2 ->
  k1 <> k2 -> In r (refs x1) -> In r (refs x2) -> False.
Proof.
  induction fields as [|[k x] rest IH]; cbn [flat_map lookup_field snd]; [discriminate|].
  intros Hnd H1 H2 Hne Hr1 Hr2.
  apply NoDup_app in Hnd as (Hx & Hdisj & Hrest).
  assert (Hin : forall k' x', lookup_field rest k' = Some x' -> In r (refs x') ->
                 r ∈ flat_map (fun kv => refs (snd kv)) rest).
  { intros k' x' Hl Hr. apply list_elem_of_In, in_flat_map.
    exists (k', x'). split; [apply lookup_field_In; exact Hl | exact Hr]. }
  destruct (decide (k = k1)) as [E1 | Hk1]; destruct (decide (k = k2)) as [E2 | Hk2].
  - congruence.
  - injection H1 as ->. apply (Hdisj r); [apply list_elem_of_In; exact Hr1|].
    eapply Hin; eassumption.
  - injection H2 as ->. apply (Hdisj r); [apply list_elem_of_In; exact Hr2|].
    eapply Hin; eassumption.
  - eapply IH; eassumption.
Qed.

Lemma field_refs_NoDup (fields : list (string * value)) k x :
  NoDup (flat_map (fun kv => refs (snd kv)) fields) ->
  lookup_field fields k = Some x -> NoDup (refs x).
Proof.
  induction fields as [|[k' y] rest IH]; cbn [flat_map lookup_field snd]; [discriminate|].
  intros Hnd H. apply NoDup_app in Hnd as (Hx & _ & Hrest).
  destruct (decide (k' = k)); [injection H as ->; exact Hx | apply IH; assumption].
Qed.

(** *** [sorter] on a tree *)

Lemma run_items_canon items :
  Forall (sorts_to canon) items ->
  forall seen : gset positive,
    NoDup (flat_map refs items) -> forallb keys_distinct items = true ->
    (forall r, In r (flat_map refs items) -> r ∉ seen) ->
    exists seen' : gset positive,
      run_items (List.map sorter items) seen = (List.map canon items, seen')
      /\ forall r, r ∈ seen' -> r ∈ seen \/ In r (flat_map refs items).
Proof.
  induction 1 as [|x rest Hx _ IH]; intros seen Hnd Hkd Hfresh.
  - exists seen. split; [reflexivity | auto].
  - cbn [flat_map forallb] in *. apply NoDup_app in Hnd as (Hndx & Hdisj & Hndr).
    apply andb_true_iff in Hkd as [Hkx Hkr].
    destruct (Hx seen Hndx Hkx) as (s1 & Hs1 & Hb1).
    { intros r Hr. apply Hfresh, in_or_app. left. exact Hr. }
    destruct (IH s1 Hndr Hkr) as (s2 & Hs2 & Hb2).
    { intros r Hr Hin. destruct (Hb1 r Hin) as [Hseen | Hrx].
      - revert Hseen. apply Hfresh, in_or_app. right. exact Hr.
      - apply (Hdisj r); apply list_elem_of_In; assumption. }
    exists s2. split.
    + cbn [List.map run_items]. rewrite Hs1, Hs2. reflexivity.
    + intros r Hr. destruct (Hb2 r Hr) as [Hin | Hin].
      * destruct (Hb1 r Hin) as [? | ?]; [left; assumption|].
        right. apply in_or_app. left. assumption.
      * right. apply in_or_app. right. exact Hin.
Qed.

Lemma run_fields_canon (fields : list (string * value)) :
  Forall (fun kv => sorts_to canon (snd kv)) fields ->
  NoDup (flat_map (fun kv => refs (snd kv)) fields) ->
  forallb (fun kv => keys_distinct (snd kv)) fields = true ->
  forall ks out (seen : gset positive),
    NoDup ks -> (forall k, In k ks -> In k (List.map fst fields)) ->
    (forall k x r, In k ks -> lookup_field fields k = Some x -> In r (refs x) -> r ∉ seen) ->
    exists seen' : gset positive,
      run_fields ks (List.map (on_value sorter) fields) out seen
      = (build ks (List.map (on_value canon) fields) out, seen')
      /\ forall r, r ∈ seen' ->
           r ∈ seen \/ In r (flat_map (fun kv => refs (snd kv)) fields).
Proof.
  intros HP Hnd Hkd. induction ks as [|k ks IH]; intros out seen Hks Hsub Hfresh.
  - exists seen. split; [reflexivity | auto].
  - apply NoDup_cons in Hks as [Hk Hks].
    destruct (lookup_field_key fields k (Hsub k (or_introl eq_refl))) as [x Hx].
    pose proof (lookup_field_In _ _ _ Hx) as Hin.
    assert (Px : sorts_to canon x).
    { rewrite Forall_forall in HP. apply (HP (k, x)). apply list_elem_of_In. exact Hin. }
    assert (Hkx : keys_distinct x = true).
    { rewrite forallb_forall in Hkd. apply (Hkd (k, x) Hin). }
    destruct (Px seen (field_refs_NoDup _ _ _ Hnd Hx) Hkx) as (s1 & Hs1 & Hb1).
    { intros r Hr. apply (Hfresh k x r); [left; reflexivity | exact Hx | exact Hr]. }
    destruct (IH (set_prop out k (canon x)) s1 Hks) as (s2 & Hs2 & Hb2).
    { intros k' Hk'. apply Hsub. right. exact Hk'. }
    { intros k' x' r Hk' Hx' Hr Hs. destruct (Hb1 r Hs) as [Hseen | Hrx].
      - revert Hseen. apply (Hfresh k' x' r); [right; exact Hk' | exact Hx' | exact Hr].
      - apply (fields_refs_disjoint fields k k' x x' r); try assumption.
        intros ->. apply Hk. apply list_elem_of_In. exact Hk'. }
    exists s2. split.
    + cbn [run_fields build]. rewrite !lookup_field_map, Hx. cbn [option_map default].
      rewrite Hs1. exact Hs2.
    + intros r Hr. destruct (Hb2 r Hr) as [Hs | ?]; [|right; assumption].
      destruct (Hb1 r Hs) as [? | Hrx]; [left; assumption|].
      right. apply in_flat_map. exists (k, x). split; assumption.
Qed.

(** On a tree the set of seen references never matters: [sorter] returns
    the canonical form. *)
Lemma sorter_canon v : sorts_to canon v.
Proof.
  induction v as [| | b | n | s | ref items IH | ref fields IH] using value_induction;
    intros seen Hnd Hkd Hfresh;
    try (exists seen; split; [reflexivity | auto]).
  - rewrite refs_array in *. rewrite keys_distinct_array in Hkd.
    apply NoDup_cons in Hnd as [Href Hnd].
    rewrite sorter_array, canon_array.
    destruct (decide (ref ∈ seen)) as [Hin | _].
    { exfalso. revert Hin. apply Hfresh. left. reflexivity. }
    destruct (run_items_canon items IH ({[ref]} ∪ seen) Hnd Hkd) as (s & Hs & Hb).
    { intros r Hr. apply not_elem_of_union. split.
      - apply not_elem_of_singleton. intros ->. apply Href, list_elem_of_In. exact Hr.
      - apply Hfresh. right. exact Hr. }
    exists s. rewrite Hs. split; [reflexivity|].
    intros r Hr. destruct (Hb r Hr) as [Hu | ?]; [|right; right; assumption].
    apply elem_of_union in Hu as [Hu | ?]; [|left; assumption].
    apply elem_of_singleton in Hu. right. left. congruence.
  - rewrite refs_object in *. rewrite keys_distinct_object in Hkd.
    apply andb_true_iff in Hkd as [Hkeys Hkd]. apply bool_decide_eq_true in Hkeys.
    apply NoDup_cons in Hnd as [Href Hnd].
    rewrite sorter_object, canon_object.
    destruct (decide (ref ∈ seen)) as [Hin | _].
    { exfalso. revert Hin. apply Hfresh. left. reflexivity. }
    destruct (run_fields_canon fields IH Hnd Hkd (sort_keys (List.map fst fields)) []
                ({[ref]} ∪ seen)) as (s & Hs & Hb).
    { apply sort_keys_NoDup. exact Hkeys. }
    { intros k. apply sort_keys_In. }
    { intros k x r _ Hx Hr. apply not_elem_of_union.
      assert (In r (flat_map (fun kv => refs (snd kv)) fields)) as Hall.
      { apply in_flat_map. exists (k, x). split; [apply lookup_field_In; exact Hx | exact Hr]. }
      split.
      - apply not_elem_of_singleton. intros ->. apply Href, list_elem_of_In. exact Hall.
      - apply Hfresh. right. exact Hall. }
    exists s. rewrite Hs. split; [reflexivity|].
    intros r Hr. destruct (Hb r Hr) as [Hu | ?]; [|right; right; assumption].
    apply elem_of_union in Hu as [Hu | ?]; [|left; assumption].
    apply elem_of_singleton in Hu. right. left. congruence.
Qed.

Lemma sorter_json_like v : json_like v = true -> fst (sorter v ∅) = canon v.
Proof.
  unfold json_like. intros H. apply andb_true_iff in H as [Hnd Hkd].
  apply bool_decide_eq_true in Hnd.
  destruct (sorter_canon v ∅ Hnd Hkd) as (s & Hs & _).
  - intros r _. apply not_elem_of_empty.
  - rewrite Hs. reflexivity.
Qed.

(** *** The canonical form forgets the order of the keys *)

Lemma similar_array r1 l1 r2 l2 :
  similar (JArray r1 l1) (JArray r2 l2) = all2 similar l1 l2.
Proof.
  assert (E : forall l1 l2,
    (fix each (l1 : list value) (l2 : list value) :=
       match l1, l2 with
       | [], [] => true
       | x :: r1, y :: r2 => similar x y && each r1 r2
       | _, _ => false
       end) l1 l2
    = all2 similar l1 l2).
  { clear. induction l1 as [|x r IH]; intros [|y s]; cbn; try reflexivity.
    rewrite IH. reflexivity. }
  cbn [similar]. rewrite E. reflexivity.
Qed.

Lemma similar_object r1 f1 r2 f2 :
  similar (JObject r1 f1) (JObject r2 f2)
  = Nat.eqb (length f1) (length f2)
    && forallb (fun kv => match lookup_field f2 (fst kv) with
                          | Some y => similar (snd kv) y
                          | None => false
                          end) f1.
Proof.
  assert (E : forall l,
    (fix each (l : list (string * value)) :=
       match l with
       | [] => true
       | (k, x) :: r =>
           match lookup_field f2 k with
           | Some y => similar x y
           | None => false
           end && each r
       end) l
    = forallb (fun kv => match lookup_field f2 (fst kv) with
                         | Some y => similar (snd kv) y
                         | None => false
                         end) l).
  { induction l as [|[k x] r IH]; cbn; [reflexivity | rewrite IH; reflexivity]. }
  cbn [similar]. rewrite E. reflexivity.
Qed.

Lemma build_ext ks : forall (c1 c2 : list (string * tree)) out,
  (forall k, In k ks -> lookup_field c1 k = lookup_field c2 k) ->
  build ks c1 out = build ks c2 out.
Proof.
  induction ks as [|k ks IH]; intros c1 c2 out H; [reflexivity|].
  cbn [build]. rewrite (H k (or_introl eq_refl)).
  apply IH. intros k' Hk'. apply H. right. exact Hk'.
Qed.

(** Values that are equal up to the order of keys have the same canonical
    form. *)
Lemma canon_similar v1 : forall v2,
  similar v1 v2 = true -> keys_distinct v1 = true -> keys_distinct v2 = true ->
  canon v1 = canon v2.
Proof.
  induction v1 as [| | b | n | s | r1 l1 IH | r1 f1 IH] using value_induction;
    intros [| | b' | n' | s' | r2 l2 | r2 f2] Hsim Hk1 Hk2;
    try discriminate; try reflexivity;
    try (cbn in Hsim; apply bool_decide_eq_true in Hsim; subst; reflexivity).
  - rewrite similar_array in Hsim. rewrite keys_distinct_array in Hk1, Hk2.
    rewrite !canon_array. f_equal.
    revert l2 Hsim Hk1 Hk2. induction IH as [|x rest Hx _ IHrest]; intros [|y l2] Hsim Hk1 Hk2;
      try discriminate; [reflexivity|].
    cbn [all2 forallb List.map] in *.
    apply andb_true_iff in Hsim as [Hxy Hrest].
    apply andb_true_iff in Hk1 as [Hkx Hkr]. apply andb_true_iff in Hk2 as [Hky Hkl].
    rewrite (Hx y Hxy Hkx Hky), (IHrest l2 Hrest Hkr Hkl). reflexivity.
  - rewrite similar_object in Hsim. rewrite keys_distinct_object in Hk1, Hk2.
    apply andb_true_iff in Hsim as [Hlen Hall]. apply Nat.eqb_eq in Hlen.
    apply andb_true_iff in Hk1 as [Hnd1 Hkd1]. apply bool_decide_eq_true in Hnd1.
    apply andb_true_iff in Hk2 as [Hnd2 Hkd2]. apply bool_decide_eq_true in Hnd2.
    rewrite forallb_forall in Hall, Hkd1, Hkd2. rewrite Forall_forall in IH.
    assert (Hpair : forall k x, In (k, x) f1 ->
              exists y, lookup_field f2 k = Some y /\ canon x = canon y).
    { intros k x Hin. specialize (Hall (k, x) Hin). cbn [fst snd] in Hall.
      destruct (lookup_field f2 k) as [y|] eqn:Hy; [|discriminate].
      exists y. split; [reflexivity|].
      apply (IH (k, x)); [apply list_elem_of_In; exact Hin | exact Hall | |].
      - apply (Hkd1 (k, x) Hin).
      - apply (Hkd2 (k, y)). apply lookup_field_In. exact Hy. }
    assert (Hperm : List.map fst f1 ≡ₚ List.map fst f2).
    { apply NoDup_Permutation_bis.
      - apply NoDup_ListNoDup. exact Hnd1.
      - rewrite !length_map. lia.
      - intros k Hk. apply in_map_iff in Hk as ([k' x] & <- & Hin).
        destruct (Hpair k' x Hin) as (y & Hy & _).
        apply in_map_iff. exists (k', y). split; [reflexivity|].
        apply lookup_field_In. exact Hy. }
    rewrite !canon_object. f_equal.
    rewrite <- (sort_keys_perm _ _ Hperm).
    apply build_ext. intros k Hk. apply (proj1 (sort_keys_In _ _)) in Hk.
    rewrite !lookup_field_map.
    destruct (lookup_field_key f1 k Hk) as [x Hx]. rewrite Hx.
    destruct (Hpair k x (lookup_field_In _ _ _ Hx)) as (y & Hy & Hc).
    rewrite Hy. cbn [option_map]. rewrite Hc. reflexivity.
Qed.

(** *** What the relation holds of *)

Lemma lookup_field_NoDup {A} (fields : list (string * A)) k x :
  NoDup (List.map fst fields) -> In (k, x) fields -> lookup_field fields k = Some x.
Proof.
  induction fields as [|[k' y] rest IH]; cbn [List.map fst lookup_field]; [intros _ []|].
  intros Hnd Hin. apply NoDup_cons in Hnd as [Hk' Hnd].
  destruct (decide (k' = k)) as [-> | Hne].
  - destruct Hin as [[= ->] | Hin]; [reflexivity|].
    exfalso. apply Hk'. apply list_elem_of_In, in_map_iff. exists (k, x). auto.
  - destruct Hin as [[= -> _] | Hin]; [congruence | apply IH; assumption].
Qed.

(** Every value with distinct keys is equal to itself. *)
Lemma similar_refl v : keys_distinct v = true -> similar v v = true.
Proof.
  induction v as [| | b | n | s | ref items IH | ref fields IH] using value_induction;
    intros Hk; try reflexivity;
    try (cbn [similar]; apply bool_decide_eq_true; reflexivity).
  - rewrite similar_array. rewrite keys_distinct_array in Hk.
    induction IH as [|x rest Hx _ IHrest]; [reflexivity|].
    cbn [all2 forallb] in *. apply andb_true_iff in Hk as [Hkx Hkr].
    rewrite (Hx Hkx), (IHrest Hkr). reflexivity.
  - rewrite similar_object. rewrite keys_distinct_object in Hk.
    apply andb_true_iff in Hk as [Hnd Hkd]. apply bool_decide_eq_true in Hnd.
    rewrite Nat.eqb_refl. cbn [andb]. apply forallb_forall. intros [k x] Hin.
    cbn [fst snd]. rewrite (lookup_field_NoDup fields k x Hnd Hin).
    rewrite Forall_forall in IH. rewrite forallb_forall in Hkd.
    apply (IH (k, x)); [apply list_elem_of_In; exact Hin | apply (Hkd (k, x) Hin)].
Qed.

(** An object is equal, up to the order of keys, to every object with the
    same fields in another order. *)
Lemma similar_reorder r1 r2 (f1 f2 : list (string * value)) :
  keys_distinct (JObject r1 f1) = true -> f1 ≡ₚ f2 ->
  similar (JObject r1 f1) (JObject r2 f2) = true.
Proof.
  intros Hk Hperm. rewrite similar_object. rewrite keys_distinct_object in Hk.
  apply andb_true_iff in Hk as [Hnd Hkd]. apply bool_decide_eq_true in Hnd.
  rewrite (Permutation_length Hperm), Nat.eqb_refl. cbn [andb].
  apply forallb_forall. intros [k x] Hin. cbn [fst snd].
  assert (NoDup (List.map fst f2)) as Hnd2.
  { rewrite <- Hperm. exact Hnd. }
  rewrite (lookup_field_NoDup f2 k x Hnd2).
  - apply similar_refl. rewrite forallb_forall in Hkd. apply (Hkd (k, x) Hin).
  - apply (Permutation_in _ Hperm). exact Hin.
Qed.

(** *** Hashing *)

Variable number_text : Q -> string.

Lemma stableStringify_canon v :
  json_like v = true -> stableStringify number_text v = stringify number_text (canon v).
Proof. intros H. unfold stableStringify. rewrite sorter_json_like by exact H. reflexivity. Qed.

Lemma stringify_defined t :
  t <> TUndefined -> exists s, stringify number_text t = Some s.
Proof.
  destruct t as [| | [|] | [q| | |] | s | items | fields]; intros H;
    try congruence; cbn [stringify]; eauto.
Qed.

Lemma canon_defined v : v <> JUndefined -> canon v <> TUndefined.
Proof.
  destruct v as [| | b | n | s | ref items | ref fields]; intros H;
    try congruence; rewrite ?canon_array, ?canon_object; cbn [canon]; discriminate.
Qed.

(** C9, amended: two JSON-like values in which no array or object is
    referenced twice, and that are equal up to the order of the keys of
    their objects, arrays being compared element by element in order, have
    the same stable text and the same hash; the hash exists unless the
    value is [undefined] itself. *)
Theorem hashObject_key_order (v1 v2 : value) :
  json_like v1 = true -> json_like v2 = true -> similar v1 v2 = true ->
  stableStringify number_text v1 = stableStringify number_text v2
  /\ hashObject number_text v1 = hashObject number_text v2
  /\ (v1 <> JUndefined -> exists h, hashObject number_text v1 = Some h).
Proof.
  intros H1 H2 Hsim.
  assert (E : stableStringify number_text v1 = stableStringify number_text v2).
  { rewrite !stableStringify_canon by assumption. f_equal.
    unfold json_like in H1, H2.
    apply andb_true_iff in H1 as [_ Hk1]. apply andb_true_iff in H2 as [_ Hk2].
    apply canon_similar; assumption. }
  split; [exact E|]. split; [unfold hashObject; rewrite E; reflexivity|].
  intros Hdef. unfold hashObject. rewrite stableStringify_canon by exact H1.
  destruct (stringify_defined (canon v1) (canon_defined v1 Hdef)) as [s ->]. eauto.
Qed.

End StableKey.

(** The two objects of the specification, with the keys [a] and [b] in
    either order. *)
Lemma hashObject_key_order_witness :
  hashObject whole_number_text
    (JObject 1 [("a"%string, JNumber (Fin 1)); ("b"%string, JNumber (Fin 2))])
  = hashObject whole_number_text
      (JObject 2 [("b"%string, JNumber (Fin 2)); ("a"%string, JNumber (Fin 1))]).
Proof.
  apply (hashObject_key_order whole_number_text
           (JObject 1 [("a"%string, JNumber (Fin 1)); ("b"%string, JNumber (Fin 2))])
           (JObject 2 [("b"%string, JNumber (Fin 2)); ("a"%string, JNumber (Fin 1))]));
    reflexivity.
Defined.

Example hashObject_example :
  hashObject whole_number_text
    (JObject 2 [("b"%string, JNumber (Fin 2)); ("a"%string, JNumber (Fin 1))])
  = Some (hashString ("{" +:+ dquote +:+ "a" +:+ dquote +:+ ":1,"
                      +:+ dquote +:+ "b" +:+ dquote +:+ ":2}")).
Proof. vm_compute. reflexivity. Qed.

Example stableStringify_sorted :
  stableStringify whole_number_text
    (JObject 2 [("b"%string, JArray 3 [JNumber (Fin 2); JNull; JUndefined]);
                ("a"%string, JString "x"); ("10"%string, JBool true);
                ("9"%string, JUndefined)])
  = Some ("{" +:+ dquote +:+ "10" +:+ dquote +:+ ":true,"
          +:+ dquote +:+ "a" +:+ dquote +:+ ":" +:+ dquote +:+ "x" +:+ dquote +:+ ","
          +:+ dquote +:+ "b" +:+ dquote +:+ ":[2,null,null]}").
Proof. vm_compute. reflexivity. Qed.

Example hashString_a : hashString "a" = "2b5c4"%string.
Proof. vm_compute. reflexivity. Qed.

(** A reference that occurs twice is written once: the [WeakSet] of
    [sorter] is never emptied, so the second occurrence is taken for a
    cycle and dropped. *)
Example stableStringify_shared_reference :
  stableStringify whole_number_text
    (JObject 1 [("a"%string, JArray 7 [JNumber (Fin 1)]);
                ("b"%string, JArray 7 [JNumber (Fin 1)])])
  = Some ("{" +:+ dquote +:+ "a" +:+ dquote +:+ ":[1]}").
Proof. vm_compute. reflexivity. Qed.

(** C9, as stated, fails: the object [{a: r, b: r}], whose two fields hold
    the same array [r = [1]], and the object [{b: [1], a: [1]}] with two
    arrays are equal up to the order of their keys, and both have distinct
    keys; the first is written without its field [b], and the hashes
    differ. *)
Lemma hashObject_shared_reference_differs :
  let shared :=
    JObject 1 [("a"%string, JArray 7 [JNumber (Fin 1)]);
               ("b"%string, JArray 7 [JNumber (Fin 1)])] in
  let unshared :=
    JObject 2 [("b"%string, JArray 8 [JNumber (Fin 1)]);
               ("a"%string, JArray 9 [JNumber (Fin 1)])] in
  similar shared unshared = true
  /\ keys_distinct shared = true
  /\ json_like unshared = true
  /\ stableStringify whole_number_text shared
     = Some ("{" +:+ dquote +:+ "a" +:+ dquote +:+ ":[1]}")
  /\ stableStringify whole_number_text unshared
     = Some ("{" +:+ dquote +:+ "a" +:+ dquote +:+ ":[1],"
             +:+ dquote +:+ "b" +:+ dquote +:+ ":[1]}")
  /\ hashObject whole_number_text shared = Some "33e6288f"%string
  /\ hashObject whole_number_text unshared = Some "5a7d7f0c"%string.
Proof. cbv zeta. repeat split; vm_compute; reflexivity. Qed.

(** ** Forecast points: normalization and clipping *)

Section ForecastPoints.
Import NumOps Forecast Readings.
Local Open Scope Q_scope.

Lemma toNumber_fixed n : isFinite n = true -> toNumber (OfNumber n) = Some n.
Proof. intros H. simpl. rewrite H. reflexivity. Qed.

Lemma toNumber_as_bound v :
  toNumber match toNumber v with Some n => OfNumber n | None => OfUndefined end
  = toNumber v.
Proof.
  destruct (toNumber v) as [n|] eqn:E; [|reflexivity].
  apply toNumber_fixed. eapply toNumber_finite. exact E.
Qed.

(** X1: [normalizeForecastPoints] keeps the dates in their order (a
    missing list gives no points); every [yhat] it returns is finite and
    every bound is finite or [undefined]; and normalizing its own output
    again changes nothing. *)
Theorem normalizeForecastPoints_normal (raw : opt (list Raw.ForecastPointRaw)) :
  let out := normalizeForecastPoints raw in
  List.map ds out = List.map Raw.ds (nullish raw [])
  /\ Forall (fun p => isFinite (yhat p) = true
                      /\ finite_or_missing (yhat_lower p) = true
                      /\ finite_or_missing (yhat_upper p) = true) out
  /\ normalizeForecastPoints (Val (List.map as_raw out)) = out.
Proof.
  cbv zeta. unfold normalizeForecastPoints. cbn [nullish].
  induction (nullish raw []) as [|p l (IH1 & IH2 & IH3)].
  - repeat split; constructor.
  - cbn [List.map]. repeat apply conj.
    + f_equal. exact IH1.
    + constructor; [|exact IH2]. cbn [yhat yhat_lower yhat_upper]. repeat apply conj.
      * apply (toNumberStrict_finite _ 0).
      * unfold finite_or_missing. destruct (toNumber (Raw.yhat_lower p)) eqn:E; [|reflexivity].
        eapply toNumber_finite. exact E.
      * unfold finite_or_missing. destruct (toNumber (Raw.yhat_upper p)) eqn:E; [|reflexivity].
        eapply toNumber_finite. exact E.
    + f_equal; [|exact IH3].
      unfold as_raw. cbn [Raw.ds Raw.yhat Raw.yhat_lower Raw.yhat_upper ds yhat yhat_lower yhat_upper].
      rewrite !toNumber_as_bound. f_equal.
      unfold toNumberStrict at 1.
      rewrite toNumber_fixed by apply (toNumberStrict_finite _ 0). reflexivity.
Qed.

(** Comparisons of rationals, decided and then settled by arithmetic. *)
Ltac settle_order :=
  repeat match goal with
  | H : Qle_bool _ _ = true |- _ => apply Qle_bool_iff in H
  | H : Qle_bool ?a ?b = false |- _ =>
      assert (b < a) by (apply Qnot_le_lt; rewrite <- Qle_bool_iff; congruence);
      clear H
  end;
  try reflexivity; try discriminate;
  try (exfalso; lra);
  try (apply Qle_bool_iff; lra);
  try (apply not_true_is_false; rewrite Qle_bool_iff; lra).

Ltac split_order :=
  unfold within, clamp_number;
  cbn [lt le andb negb];
  repeat (match goal with
          | |- context [Qle_bool ?a ?b] =>
              let E := fresh "E" in destruct (Qle_bool a b) eqn:E
          end;
          cbn [lt le andb negb]).

Lemma clamp_number_within c f x : within c f (clamp_number c f x) = true.
Proof.
  destruct c, f as [[fq| | |]|], x as [q| | |]; split_order; settle_order.
Qed.

Lemma clamp_number_not_below c f x : lt (clamp_number c f x) x = false.
Proof.
  destruct c, f as [[fq| | |]|], x as [q| | |]; split_order; settle_order.
Qed.

Lemma clamp_number_fixed c f x : within c f x = true -> clamp_number c f x = x.
Proof.
  unfold within, clamp_number. intros H. apply andb_true_iff in H as [H1 H2].
  apply negb_true_iff in H1. rewrite H1.
  destruct f as [fl|]; [|reflexivity].
  apply negb_true_iff in H2. rewrite H2. reflexivity.
Qed.

Lemma clamp_number_monotone c f a b :
  le a b = true -> le (clamp_number c f a) (clamp_number c f b) = true.
Proof.
  destruct c, f as [[fq| | |]|], a as [p| | |], b as [q| | |];
    cbn [le]; try discriminate; try reflexivity; intros H;
    split_order; settle_order.
Qed.

Lemma clamp_within c f x :
  match clamp c f x with Some y => within c f y | None => true end = true.
Proof. destruct x; cbn; [apply clamp_number_within | reflexivity]. Qed.

Lemma clamp_idem c f x : clamp c f (clamp c f x) = clamp c f x.
Proof.
  destruct x as [n|]; cbn; [|reflexivity].
  rewrite clamp_number_fixed by apply clamp_number_within. reflexivity.
Qed.

(** X2: [applyClip] keeps the number of points, their dates and which
    bounds are [undefined]; with [clipNonNegative] no number it returns is
    below [0], with a numeric [floor] none is below the floor, and no
    number is lower than it was; points that already respect the options
    come back unchanged, so clipping twice is clipping once. *)
Theorem applyClip_bounds (points : opt (list ForecastPoint)) (opts : opt ClipOptions) :
  let c := clipNN opts in
  let f := floor_of opts in
  let out := applyClip points opts in
  List.map ds out = List.map ds (nullish points [])
  /\ (forall i p, nullish points [] !! i = Some p ->
        exists p', out !! i = Some p'
          /\ within c f (yhat p') = true
          /\ lt (yhat p') (yhat p) = false
          /\ match yhat_lower p, yhat_lower p' with
             | Some l, Some l' => within c f l' = true /\ lt l' l = false
             | None, None => True
             | _, _ => False
             end
          /\ match yhat_upper p, yhat_upper p' with
             | Some u, Some u' => within c f u' = true /\ lt u' u = false
             | None, None => True
             | _, _ => False
             end)
  /\ (Forall (fun p => within c f (yhat p) = true
                       /\ match yhat_lower p with Some l => within c f l | None => true end = true
                       /\ match yhat_upper p with Some u => within c f u | None => true end = true)
        (nullish points []) ->
      out = nullish points [])
  /\ applyClip (Val out) opts = out.
Proof.
  cbv zeta. unfold applyClip. cbn [nullish].
  set (c := clipNN opts). set (f := floor_of opts).
  set (g := fun p => {| ds := ds p; yhat := clamp_number c f (yhat p);
                        yhat_lower := clamp c f (yhat_lower p);
                        yhat_upper := clamp c f (yhat_upper p) |}).
  repeat apply conj.
  - rewrite List.map_map. reflexivity.
  - intros i p Hp. exists (g p). split.
    + change (List.map g ?l) with (g <$> l). rewrite list_lookup_fmap, Hp. reflexivity.
    + unfold g. cbn [yhat yhat_lower yhat_upper]. repeat apply conj.
      * apply clamp_number_within.
      * apply clamp_number_not_below.
      * destruct (yhat_lower p); cbn; [|exact I].
        split; [apply clamp_number_within | apply clamp_number_not_below].
      * destruct (yhat_upper p); cbn; [|exact I].
        split; [apply clamp_number_within | apply clamp_number_not_below].
  - intros H. induction H as [|p l (H1 & H2 & H3) _ IH]; [reflexivity|].
    cbn [List.map]. rewrite IH. f_equal.
    destruct p as [d y lo up]. unfold g. cbn [ds yhat yhat_lower yhat_upper] in *.
    rewrite (clamp_number_fixed c f y H1). f_equal.
    + destruct lo; cbn [clamp]; [rewrite clamp_number_fixed by exact H2|]; reflexivity.
    + destruct up; cbn [clamp]; [rewrite clamp_number_fixed by exact H3|]; reflexivity.
  - rewrite List.map_map. apply map_ext. intros p.
    unfold g. cbn [ds yhat yhat_lower yhat_upper]. fold c f.
    rewrite !clamp_idem, clamp_number_fixed by apply clamp_number_within.
    reflexivity.
Qed.

(** X3: [applyClip] keeps the band in order: when the bounds of a point
    lie around its [yhat], so do the bounds of the clipped point; more
    generally the clipping of one number is monotone. *)
Theorem applyClip_keeps_order (points : opt (list ForecastPoint)) (opts : opt ClipOptions) :
  (forall a b, le a b = true ->
     le (clamp_number (clipNN opts) (floor_of opts) a)
        (clamp_number (clipNN opts) (floor_of opts) b) = true)
  /\ (forall i p, nullish points [] !! i = Some p ->
        exists p', applyClip points opts !! i = Some p'
          /\ (ordered_band p = true -> ordered_band p' = true)).
Proof.
  split; [intros a b; apply clamp_number_monotone|].
  intros i p Hp. unfold applyClip.
  change (List.map ?g ?l) with (g <$> l). rewrite list_lookup_fmap, Hp. cbn [fmap option_fmap option_map].
  eexists. split; [reflexivity|].
  unfold ordered_band. cbn [yhat yhat_lower yhat_upper].
  intros H. apply andb_true_iff in H as [H1 H2]. apply andb_true_iff. split.
  - destruct (yhat_lower p); cbn; [apply clamp_number_monotone; exact H1 | reflexivity].
  - destruct (yhat_upper p); cbn; [apply clamp_number_monotone; exact H2 | reflexivity].
Qed.

End ForecastPoints.

(** ** The string hash *)

Section StringHash.
Local Open Scope N_scope.

Lemma code_inj c1 c2 : code c1 = code c2 -> c1 = c2.
Proof.
  unfold code. intros H.
  rewrite <- (ascii_N_embedding c1), <- (ascii_N_embedding c2), H. reflexivity.
Qed.

Lemma code_bound c : code c < 2 ^ 32.
Proof.
  unfold code. pose proof (N_ascii_bounded c) as H.
  eapply N.lt_trans; [exact H | reflexivity].
Qed.

Lemma lxor_bound a b n : a < 2 ^ n -> b < 2 ^ n -> N.lxor a b < 2 ^ n.
Proof.
  intros Ha Hb.
  destruct (N.eq_dec (N.lxor a b) 0) as [E | E].
  - rewrite E. apply N.neq_0_lt_0. apply N.pow_nonzero. discriminate.
  - apply N.log2_lt_pow2; [apply N.neq_0_lt_0; exact E|].
    eapply N.le_lt_trans; [apply N.log2_lxor|].
    apply N.max_lub_lt.
    + destruct (N.eq_dec a 0) as [-> | Ea].
      * destruct (N.eq_dec n 0) as [-> | En]; [|apply N.neq_0_lt_0; exact En].
        exfalso. apply E. simpl in Hb.
        assert (b = 0) as -> by (apply N.lt_1_r; exact Hb). reflexivity.
      * apply N.log2_lt_pow2; [apply N.neq_0_lt_0; exact Ea | exact Ha].
    + destruct (N.eq_dec b 0) as [-> | Eb].
      * destruct (N.eq_dec n 0) as [-> | En]; [|apply N.neq_0_lt_0; exact En].
        exfalso. apply E. simpl in Ha.
        assert (a = 0) as -> by (apply N.lt_1_r; exact Ha). reflexivity.
      * apply N.log2_lt_pow2; [apply N.neq_0_lt_0; exact Eb | exact Hb].
Qed.

Lemma hash_step_bound h c : hash_step h c < 2 ^ 32.
Proof.
  unfold hash_step. apply lxor_bound; [|apply code_bound].
  apply N.mod_lt. discriminate.
Qed.

Lemma lxor_cancel_r a b c : N.lxor a c = N.lxor b c -> a = b.
Proof.
  intros H. apply N.lxor_eq.
  rewrite <- (N.lxor_0_r (N.lxor a b)), <- (N.lxor_nilpotent c).
  rewrite N.lxor_assoc, <- (N.lxor_assoc b c c), <- H.
  rewrite N.lxor_assoc, N.lxor_nilpotent, N.lxor_0_r. apply N.lxor_nilpotent.
Qed.

Lemma lxor_cancel_l a b c : N.lxor c a = N.lxor c b -> a = b.
Proof. rewrite !(N.lxor_comm c). apply lxor_cancel_r. Qed.

(** Multiplication by 33 is invertible on 32-bit words. *)
Lemma times_33_inj h1 h2 : h1 < 2 ^ 32 -> h2 < 2 ^ 32 ->
  (h1 * 33) mod 2 ^ 32 = (h2 * 33) mod 2 ^ 32 -> h1 = h2.
Proof.
  intros H1 H2 E.
  assert (I : forall h, h < 2 ^ 32 -> (((h * 33) mod 2 ^ 32) * 1041204193) mod 2 ^ 32 = h).
  { intros h Hh. rewrite N.Div0.mul_mod_idemp_l.
    replace (h * 33 * 1041204193) with (h + h * 8 * 2 ^ 32) by lia.
    rewrite N.Div0.mod_add. apply N.mod_small. exact Hh. }
  rewrite <- (I h1 H1), <- (I h2 H2), E. reflexivity.
Qed.

Lemma hash_step_inj h1 h2 c : h1 < 2 ^ 32 -> h2 < 2 ^ 32 ->
  hash_step h1 c = hash_step h2 c -> h1 = h2.
Proof.
  unfold hash_step. intros H1 H2 E.
  apply lxor_cancel_r in E. apply times_33_inj; assumption.
Qed.

Lemma hash_loop_inj t : forall h1 h2, h1 < 2 ^ 32 -> h2 < 2 ^ 32 ->
  hash_loop h1 t = hash_loop h2 t -> h1 = h2.
Proof.
  induction t as [|c t IH]; intros h1 h2 H1 H2 E; [exact E|].
  cbn [hash_loop] in E. apply IH in E; try apply hash_step_bound.
  eapply hash_step_inj; eassumption.
Qed.

Lemma hash_loop_app s t : forall h,
  hash_loop h (s +:+ t) = hash_loop (hash_loop h s) t.
Proof. induction s as [|c s IH]; intros h; [reflexivity | apply IH]. Qed.

Lemma hash_loop_bound s : forall h, h < 2 ^ 32 -> hash_loop h s < 2 ^ 32.
Proof.
  induction s as [|c s IH]; intros h Hh; [exact Hh|].
  apply IH, hash_step_bound.
Qed.

Lemma hex_text_inj n m :
  HexadecimalString.NilZero.string_of_uint (N.to_hex_uint n)
  = HexadecimalString.NilZero.string_of_uint (N.to_hex_uint m) -> n = m.
Proof.
  intros E. apply HexadecimalN.Unsigned.to_uint_inj.
  assert (S : forall k, HexadecimalString.NilZero.uint_of_string
                (HexadecimalString.NilZero.string_of_uint (N.to_hex_uint k))
              = Some (N.to_hex_uint k)).
  { intros k. apply HexadecimalString.NilZero.usu.
    intros Hnil. pose proof (HexadecimalN.Unsigned.of_to k) as Hk.
    rewrite Hnil in Hk. cbn in Hk. subst k. discriminate. }
  pose proof (S n) as Sn. rewrite E, S in Sn. congruence.
Qed.

(** X4: the hash is a 32-bit number, printed in a way that tells numbers
    apart; two texts that differ in exactly one code unit never have the
    same hash, and a common ending neither creates nor removes a
    collision. *)
Theorem hashString_one_code_unit :
  (forall s, hash_loop 5381 s < 2 ^ 32)
  /\ (forall s1 s2, hashString s1 = hashString s2
                    <-> hash_loop 5381 s1 = hash_loop 5381 s2)
  /\ (forall p t c1 c2,
        hashString (p +:+ String c1 t) = hashString (p +:+ String c2 t) <-> c1 = c2)
  /\ (forall s1 s2 t,
        hashString (s1 +:+ t) = hashString (s2 +:+ t) <-> hashString s1 = hashString s2).
Proof.
  assert (B : forall s, hash_loop 5381 s < 2 ^ 32)
    by (intros s; apply hash_loop_bound; reflexivity).
  assert (P : forall s1 s2, hashString s1 = hashString s2
                            <-> hash_loop 5381 s1 = hash_loop 5381 s2).
  { intros s1 s2. unfold hashString. split; [apply hex_text_inj | intros ->; reflexivity]. }
  repeat apply conj.
  - exact B.
  - exact P.
  - intros p t c1 c2. rewrite P, !hash_loop_app. cbn [hash_loop]. split.
    + intros E. apply hash_loop_inj in E; try apply hash_step_bound.
      unfold hash_step in E. apply lxor_cancel_l in E. apply code_inj. exact E.
    + intros ->. reflexivity.
  - intros s1 s2 t. rewrite !P, !hash_loop_app. split.
    + apply hash_loop_inj; apply B.
    + intros ->. reflexivity.
Qed.

End StringHash.

(** ** Request defaults, again *)

Section DefaultsAgain.
Import Constants Hooks.

(** X5: [withPredictDefaults] is idempotent, and the bodies it leaves
    unchanged are exactly those with an [exog] payload and the complete
    Auto bodies: no [exog] key, [horizon], [frequency], [alpha] and the
    three display flags present, and [use_auto_exog] set. *)
Theorem withPredictDefaults_idempotent (input : PredictInput) :
  withPredictDefaults (withPredictDefaults input) = withPredictDefaults input
  /\ (withPredictDefaults input = input
      <-> hasExog input = true
          \/ exists h fr a s c f,
               input = {| horizon := Val h; frequency := Val fr; alpha := Val a;
                          flags := Val {| use_auto_exog := Val true;
                                          exog_strategy := Val s;
                                          clip_non_negative := Val c;
                                          floor := Val f |};
                          exog := Undefined |}).
Proof.
  split.
  - unfold withPredictDefaults at 2 3.
    destruct (hasExog input) eqn:E; cbn [negb].
    + unfold withPredictDefaults. rewrite E. reflexivity.
    + reflexivity.
  - split.
    + intros H. destruct (hasExog input) eqn:E; [left; reflexivity | right].
      unfold withPredictDefaults in H. rewrite E in H. cbn [negb] in H.
      rewrite <- H. do 6 eexists. reflexivity.
    + intros [H | (h & fr & a & s & c & f & ->)].
      * unfold withPredictDefaults. rewrite H. reflexivity.
      * reflexivity.
Qed.

End DefaultsAgain.

(** ** The state of the manual exogenous grid *)

Section Grid.
Import ManualExogGrid GridState Readings.

Lemma foldl_assign_lookup (f : string -> list num) cols : forall next name,
  foldl (fun next col => assign next col (f col)) next cols !! name
  = if decide (name ∈ cols /\ name <> Json.proto_key) then Some (f name)
    else next !! name.
Proof.
  induction cols as [|c cols IH]; intros next name; cbn [foldl].
  - case_decide as H; [|reflexivity]. destruct H as [H _]. inversion H.
  - rewrite IH. unfold assign.
    destruct (decide (name ∈ cols /\ name <> Json.proto_key)) as [[H1 H2] | H].
    + rewrite decide_True; [reflexivity|]. split; [right; exact H1 | exact H2].
    + destruct (decide (c = Json.proto_key)) as [Hc | Hc].
      * rewrite decide_False; [reflexivity|].
        intros [H1 H2]. apply H. split; [|exact H2].
        apply elem_of_cons in H1 as [-> | H1]; [contradiction | exact H1].
      * destruct (decide (name = c)) as [-> | Hne].
        -- rewrite lookup_insert_eq, decide_True; [reflexivity|].
           split; [left | exact Hc].
        -- rewrite lookup_insert_ne by congruence.
           rewrite decide_False; [reflexivity|].
           intros [H1 H2]. apply H. split; [|exact H2].
           apply elem_of_cons in H1 as [-> | H1]; [contradiction | exact H1].
Qed.

Lemma initGrid_lookup cols h from name :
  initGrid cols h from !! name
  = if decide (name ∈ cols /\ name <> Json.proto_key)
    then Some (tabulate h (fun i => toNumberOrZero (at_index (source from name) i)))
    else None.
Proof.
  unfold initGrid.
  rewrite (foldl_assign_lookup
             (fun col => tabulate h (fun i => toNumberOrZero (at_index (source from col) i)))).
  case_decide; reflexivity.
Qed.

Lemma tabulate_lookup {A} n (f : nat -> A) i :
  tabulate n f !! i = if decide (i < n)%nat then Some (f i) else None.
Proof.
  unfold tabulate. change (List.map ?g ?l) with (g <$> l). rewrite list_lookup_fmap.
  case_decide as H.
  - rewrite lookup_seq_lt by exact H. reflexivity.
  - rewrite lookup_seq_ge by lia. reflexivity.
Qed.

Lemma tabulate_length {A} n (f : nat -> A) : length (tabulate n f) = n.
Proof. unfold tabulate. rewrite length_map, length_seq. reflexivity. Qed.

Lemma tabulate_ext {A} n (f g : nat -> A) :
  (forall i, (i < n)%nat -> f i = g i) -> tabulate n f = tabulate n g.
Proof.
  intros H. unfold tabulate. apply map_ext_in. intros i Hi.
  apply in_seq in Hi. apply H. lia.
Qed.

Lemma toNumberOrZero_fixed v :
  toNumberOrZero (OfNumber (toNumberOrZero v)) = toNumberOrZero v.
Proof.
  pose proof (toNumberOrZero_finite v) as F.
  cbn [toNumberOrZero]. rewrite F. reflexivity.
Qed.

Lemma tabulate_const {A} n (x : A) : tabulate n (fun _ => x) = replicate n x.
Proof.
  unfold tabulate. induction n as [|n IH]; [reflexivity|].
  rewrite seq_S, List.map_app, IH. cbn. symmetry. apply replicate_S_end.
Qed.

Lemma tabulate_zero h :
  replicate h zero = tabulate h (fun i => toNumberOrZero (at_index [] i)).
Proof.
  unfold tabulate. induction h as [|n IH]; [reflexivity|].
  rewrite seq_S, List.map_app, <- IH. cbn. apply replicate_S_end.
Qed.

(** X6: the grid that [initGrid] builds has exactly the declared columns
    as keys (the name [__proto__] apart, which an assignment cannot
    create); every column holds exactly [horizon] numbers, all finite;
    the number at position [i] is the coerced entry of the source column,
    [0] where the source has no such column or is shorter; and [clearAll]
    gives zeros. *)
Theorem initGrid_shape (cols : list string) (horizon : nat)
    (from : opt ManualExogValue) (name : string) :
  (initGrid cols horizon from !! name = None
     <-> name ∉ cols \/ name = Json.proto_key)
  /\ (forall arr, initGrid cols horizon from !! name = Some arr ->
        length arr = horizon
        /\ Forall (fun n => isFinite n = true) arr
        /\ (forall i, (i < horizon)%nat ->
              arr !! i = Some (toNumberOrZero (at_index (source from name) i)))
        /\ (given from !! name = None -> arr = replicate horizon zero))
  /\ (forall arr, clearAll cols horizon !! name = Some arr -> arr = replicate horizon zero).
Proof.
  split; [|split].
  - rewrite initGrid_lookup. case_decide as H; split.
    + discriminate.
    + intros [H1 | H1]; destruct H as [H2 H3]; contradiction.
    + intros _. destruct (decide (name ∈ cols)) as [Hin | Hin]; [|left; exact Hin].
      right. destruct (decide (name = Json.proto_key)) as [E | E]; [exact E|].
      exfalso. apply H. split; assumption.
    + reflexivity.
  - intros arr. rewrite initGrid_lookup. case_decide as H; [|discriminate].
    intros [= <-]. repeat apply conj.
    + apply tabulate_length.
    + apply Forall_forall. intros n Hn. apply list_elem_of_lookup in Hn as [i Hi].
      rewrite tabulate_lookup in Hi. case_decide; [|discriminate].
      injection Hi as <-. apply toNumberOrZero_finite.
    + intros i Hi. rewrite tabulate_lookup. rewrite decide_True by exact Hi. reflexivity.
    + intros Hnone. rewrite tabulate_zero. apply tabulate_ext. intros i _.
      unfold source. destruct from as [| |m]; try reflexivity.
      cbn [given] in Hnone. rewrite Hnone. reflexivity.
  - intros arr. unfold clearAll. rewrite initGrid_lookup. case_decide; [|discriminate].
    intros [= <-]. rewrite tabulate_zero. reflexivity.
Qed.

(** X7: building a grid from a grid that [initGrid] built, for columns
    among its columns and a horizon that is not larger, gives what the
    original source gives: in particular [initGrid] is idempotent, and
    shortening the horizon or dropping columns in two steps is the same
    as in one. *)
Theorem initGrid_again (cols cols' : list string) (h h' : nat)
    (from : opt ManualExogValue) :
  (forall name, name ∈ cols' -> name ∈ cols) -> (h' <= h)%nat ->
  initGrid cols' h' (Val (initGrid cols h from)) = initGrid cols' h' from.
Proof.
  intros Hsub Hle. apply map_eq. intros name. rewrite !initGrid_lookup.
  case_decide as H; [|reflexivity]. destruct H as [Hin Hp].
  f_equal. apply tabulate_ext. intros i Hi.
  cbn [source]. rewrite initGrid_lookup.
  rewrite decide_True by (split; [apply Hsub; exact Hin | exact Hp]).
  cbn [default from_option id]. unfold at_index at 1. unfold id. rewrite tabulate_lookup.
  rewrite decide_True by lia. apply toNumberOrZero_fixed.
Qed.

Lemma initGrid_again_witness :
  initGrid ["a"%string] 2
    (Val (initGrid ["a"%string; "b"%string] 3
            (Val {[ "a"%string := [Fin 1; NaN; Fin 3; Fin 4] ]})))
  = {[ "a"%string := [Fin 1; Fin 0] ]}.
Proof.
  rewrite (initGrid_again ["a"%string; "b"%string] ["a"%string] 3 2).
  - reflexivity.
  - intros name H. apply elem_of_cons. left.
    apply list_elem_of_singleton in H. exact H.
  - lia.
Defined.

(** X8: the matrix of a grid that [initGrid] built is the matrix of its
    source, when no column has the name [__proto__]: what the grid shows
    is what [exogMapToMatrix] sends. *)
Theorem exogMapToMatrix_initGrid (cols : list string) (h : nat)
    (from : opt ManualExogValue) :
  Json.proto_key ∉ cols ->
  exogMapToMatrix (initGrid cols h from) cols h = exogMapToMatrix (given from) cols h.
Proof.
  intros Hp. rewrite !exogMapToMatrix_eq. f_equal.
  apply map_ext_in. intros r Hr. apply in_seq in Hr.
  apply map_ext_in. intros name Hin. apply list_elem_of_In in Hin.
  unfold map_cell at 1. rewrite initGrid_lookup.
  rewrite decide_True by (split; [exact Hin | intros ->; contradiction]).
  rewrite tabulate_lookup, decide_True by lia.
  rewrite toNumberOrZero_fixed. f_equal.
  unfold at_index, source, map_cell, given.
  destruct from as [| |m]; try (rewrite lookup_empty; reflexivity).
  destruct (m !! name); reflexivity.
Qed.

Lemma exogMapToMatrix_initGrid_witness :
  exogMapToMatrix
    (initGrid ["ADR"%string; "Month"%string] 2 (Val {[ "ADR"%string := [Fin 7] ]}))
    ["ADR"%string; "Month"%string] 2
  = {| columns := ["ADR"%string; "Month"%string];
       rows := [[Fin 7; Fin 0]; [Fin 0; Fin 0]] |}.
Proof.
  rewrite (exogMapToMatrix_initGrid ["ADR"%string; "Month"%string] 2).
  - reflexivity.
  - intros H. apply elem_of_cons in H as [H | H]; [discriminate|].
    apply list_elem_of_singleton in H. discriminate.
Defined.

(** *** The import of CSV text *)

Lemma headerIdx_snoc hs h :
  headerIdx (hs ++ [h])
  = if decide (header_name h = Json.proto_key) then headerIdx hs
    else <[header_name h := length hs]> (headerIdx hs).
Proof.
  unfold headerIdx. rewrite length_app. cbn [length].
  rewrite Nat.add_1_r, seq_S. cbn [Nat.add].
  rewrite zip_with_app by (rewrite length_seq; reflexivity).
  rewrite foldl_app. reflexivity.
Qed.

Lemma last_named_snoc hs h name j :
  last_named (hs ++ [h]) name j
  <-> (header_name h = name /\ j = length hs)
      \/ (header_name h <> name /\ last_named hs name j).
Proof.
  unfold last_named. split.
  - intros [(x & Hx & Hn) Hlast].
    destruct (decide (header_name h = name)) as [E | E].
    + left. split; [exact E|].
      apply lookup_lt_Some in Hx as Hlt. rewrite length_app in Hlt. cbn in Hlt.
      destruct (decide (j = length hs)) as [-> | Hne]; [reflexivity|].
      exfalso. apply (Hlast (length hs) h); [lia | | exact E].
      rewrite lookup_app_r, Nat.sub_diag by lia. reflexivity.
    + right. split; [exact E|].
      assert (j < length hs)%nat as Hj.
      { apply lookup_lt_Some in Hx as Hlt. rewrite length_app in Hlt. cbn in Hlt.
        destruct (decide (j = length hs)) as [-> | Hne]; [|lia].
        rewrite lookup_app_r, Nat.sub_diag in Hx by lia. injection Hx as <-.
        contradiction. }
      split.
      * exists x. split; [|exact Hn]. rewrite lookup_app_l in Hx by exact Hj. exact Hx.
      * intros j' h' Hlt Hh'. apply (Hlast j' h' Hlt).
        apply lookup_app_l_Some. exact Hh'.
  - intros [[E ->] | [E [(x & Hx & Hn) Hlast]]].
    + split.
      * exists h. split; [|exact E]. rewrite lookup_app_r, Nat.sub_diag by lia. reflexivity.
      * intros j' h' Hlt Hh'. apply lookup_lt_Some in Hh'.
        rewrite length_app in Hh'. cbn in Hh'. lia.
    + split.
      * exists x. split; [|exact Hn]. apply lookup_app_l_Some. exact Hx.
      * intros j' h' Hlt Hh'.
        destruct (decide (j' < length hs)%nat) as [Hj | Hj].
        -- rewrite lookup_app_l in Hh' by exact Hj. apply (Hlast j' h' Hlt Hh').
        -- apply lookup_lt_Some in Hh' as Hl. rewrite length_app in Hl. cbn in Hl.
           assert (j' = length hs) as -> by lia.
           rewrite lookup_app_r, Nat.sub_diag in Hh' by lia. injection Hh' as <-. exact E.
Qed.

Lemma unnamed_snoc hs h name :
  unnamed (hs ++ [h]) name <-> header_name h <> name /\ unnamed hs name.
Proof.
  unfold unnamed. split.
  - intros H. split.
    + apply (H (length hs) h). rewrite lookup_app_r, Nat.sub_diag by lia. reflexivity.
    + intros j x Hx. apply (H j x). apply lookup_app_l_Some. exact Hx.
  - intros [E H] j x Hx.
    destruct (decide (j < length hs)%nat) as [Hj | Hj].
    + rewrite lookup_app_l in Hx by exact Hj. apply (H j x Hx).
    + apply lookup_lt_Some in Hx as Hl. rewrite length_app in Hl. cbn in Hl.
      assert (j = length hs) as -> by lia.
      rewrite lookup_app_r, Nat.sub_diag in Hx by lia. injection Hx as <-. exact E.
Qed.

(** The index that [headerIdx] keeps for a name is that of the last
    header with this name. *)
Lemma headerIdx_Some hs : forall name j,
  headerIdx hs !! name = Some j <-> name <> Json.proto_key /\ last_named hs name j.
Proof.
  induction hs as [|h hs IH] using rev_ind; intros name j.
  - unfold headerIdx. cbn. rewrite lookup_empty. split; [discriminate|].
    intros [_ [(x & Hx & _) _]]. rewrite lookup_nil in Hx. discriminate.
  - rewrite headerIdx_snoc, last_named_snoc.
    destruct (decide (header_name h = Json.proto_key)) as [Ep | Ep].
    + rewrite IH. split.
      * intros [Hn Hl]. split; [exact Hn|]. right. split; [congruence | exact Hl].
      * intros [Hn [[E _] | [_ Hl]]]; [congruence|]. split; assumption.
    + destruct (decide (header_name h = name)) as [E | E].
      * subst name. rewrite lookup_insert_eq. split.
        -- intros [= <-]. split; [exact Ep|]. left. split; reflexivity.
        -- intros [_ [[_ ->] | [Hne _]]]; [reflexivity | contradiction].
      * rewrite lookup_insert_ne by exact E. rewrite IH. split.
        -- intros [Hn Hl]. split; [exact Hn|]. right. split; assumption.
        -- intros [Hn [[E' _] | [_ Hl]]]; [contradiction|]. split; assumption.
Qed.

Lemma headerIdx_None hs : forall name,
  headerIdx hs !! name = None <-> name = Json.proto_key \/ unnamed hs name.
Proof.
  induction hs as [|h hs IH] using rev_ind; intros name.
  - unfold headerIdx. cbn. rewrite lookup_empty. split; [|reflexivity].
    intros _. right. intros j x Hx. rewrite lookup_nil in Hx. discriminate.
  - rewrite headerIdx_snoc, unnamed_snoc.
    destruct (decide (header_name h = Json.proto_key)) as [Ep | Ep].
    + rewrite IH. split.
      * intros [Hn | Hu]; [left; exact Hn|].
        destruct (decide (name = Json.proto_key)) as [E | E]; [left; exact E|].
        right. split; [congruence | exact Hu].
      * intros [Hn | [_ Hu]]; [left; exact Hn | right; exact Hu].
    + destruct (decide (header_name h = name)) as [E | E].
      * subst name. rewrite lookup_insert_eq. split; [discriminate|].
        intros [Hn | [Hne _]]; contradiction.
      * rewrite lookup_insert_ne by exact E. rewrite IH. split.
        -- intros [Hn | Hu]; [left; exact Hn | right; split; assumption].
        -- intros [Hn | [_ Hu]]; [left; exact Hn | right; exact Hu].
Qed.

Lemma align_lookup parsed cols h g name :
  align parsed cols h = Some g ->
  g !! name
  = if decide (name ∈ cols /\ name <> Json.proto_key)
    then Some (tabulate h (fun r =>
                 toNumberOrZero (raw_cell (headerIdx (Csv.headers parsed) !! name)
                                   (Csv.data parsed) r)))
    else None.
Proof.
  unfold align. destruct (Csv.headers parsed) as [|h0 hs]; [discriminate|].
  destruct (Csv.data parsed) as [|r0 rows]; [discriminate|].
  intros [= <-].
  rewrite (foldl_assign_lookup
             (fun name => tabulate h (fun r =>
                toNumberOrZero (raw_cell (headerIdx (h0 :: hs) !! name) (r0 :: rows) r)))).
  case_decide; reflexivity.
Qed.

(** X9: the import of parsed CSV text ([onImportCSV], [doPaste]) emits a
    grid only when the text has a header row and at least one more row.
    The grid then has exactly the declared columns as keys ([__proto__]
    apart), each with [horizon] finite numbers: the number at row [r] is
    the coerced cell of row [r] under the last header that, trimmed, is
    the name of the column; a column without such a header is all zero,
    and so is every row that the text does not have. *)
Theorem align_spec (parsed : Csv.Parsed) (cols : list string) (horizon : nat) :
  (align parsed cols horizon = None
     <-> Csv.headers parsed = [] \/ Csv.data parsed = [])
  /\ (forall text, onImportCSV text cols horizon
                   = align (Csv.parseCSV text [Csv.comma]) cols horizon)
  /\ (forall text, doPaste text cols horizon
                   = align (Csv.parseCSV (trim text) [Csv.comma]) cols horizon)
  /\ forall g name, align parsed cols horizon = Some g ->
       (g !! name = None <-> name ∉ cols \/ name = Json.proto_key)
       /\ forall arr, g !! name = Some arr ->
            length arr = horizon
            /\ Forall (fun n => isFinite n = true) arr
            /\ (forall j r, last_named (Csv.headers parsed) name j ->
                  (r < horizon)%nat ->
                  arr !! r = Some (toNumberOrZero (raw_cell (Some j) (Csv.data parsed) r)))
            /\ (forall j r, last_named (Csv.headers parsed) name j ->
                  (length (Csv.data parsed) <= r < horizon)%nat ->
                  arr !! r = Some zero)
            /\ (unnamed (Csv.headers parsed) name -> arr = replicate horizon zero).
Proof.
  split; [|split; [|split]].
  - unfold align. destruct (Csv.headers parsed) as [|h0 hs].
    + split; [left; reflexivity | reflexivity].
    + destruct (Csv.data parsed) as [|r0 rows].
      * split; [right; reflexivity | reflexivity].
      * split; [discriminate | intros [H | H]; discriminate].
  - reflexivity.
  - reflexivity.
  - intros g name Hg. rewrite (align_lookup _ _ _ _ name Hg). split.
    + case_decide as H; split.
      * discriminate.
      * intros [H1 | H1]; destruct H as [H2 H3]; contradiction.
      * intros _. destruct (decide (name ∈ cols)) as [Hin | Hin]; [|left; exact Hin].
        right. destruct (decide (name = Json.proto_key)) as [E | E]; [exact E|].
        exfalso. apply H. split; assumption.
      * reflexivity.
    + intros arr. case_decide as H; [|discriminate]. destruct H as [Hin Hp].
      intros [= <-]. repeat apply conj.
      * apply tabulate_length.
      * apply Forall_forall. intros n Hn. apply list_elem_of_lookup in Hn as [i Hi].
        rewrite tabulate_lookup in Hi. case_decide; [|discriminate].
        injection Hi as <-. apply toNumberOrZero_finite.
      * intros j r Hj Hr. rewrite tabulate_lookup, decide_True by exact Hr.
        rewrite (proj2 (headerIdx_Some _ name j) (conj Hp Hj)). reflexivity.
      * intros j r Hj Hr. rewrite tabulate_lookup, decide_True by lia.
        rewrite (proj2 (headerIdx_Some _ name j) (conj Hp Hj)).
        unfold raw_cell. rewrite (proj2 (lookup_ge_None (Csv.data parsed) r)) by lia.
        reflexivity.
      * intros Hu. rewrite (proj2 (headerIdx_None _ name) (or_intror Hu)).
        apply (tabulate_const horizon zero).
Qed.

End Grid.

(** ** What the histogram counts *)

Section HistogramCounts.
Import NumOps ErrorHistogram HistogramView Readings.
Local Open Scope Q_scope.

Lemma min_of_below vs : forall v,
  min_of v vs <= v /\ forall x, In x vs -> min_of v vs <= x.
Proof.
  unfold min_of. induction vs as [|a vs IH]; intros v; cbn [foldl].
  - split; [lra | intros x []].
  - destruct (IH (Qmin v a)) as [H1 H2].
    pose proof (Q.le_min_l v a). pose proof (Q.le_min_r v a). split; [lra|].
    intros x [<- | Hx]; [lra | apply H2; exact Hx].
Qed.

Lemma max_of_above vs : forall v,
  v <= max_of v vs /\ forall x, In x vs -> x <= max_of v vs.
Proof.
  unfold max_of. induction vs as [|a vs IH]; intros v; cbn [foldl].
  - split; [lra | intros x []].
  - destruct (IH (Qmax v a)) as [H1 H2].
    pose proof (Q.le_max_l v a). pose proof (Q.le_max_r v a). split; [lra|].
    intros x [<- | Hx]; [lra | apply H2; exact Hx].
Qed.

Lemma sample_bounds v vs x : In x (v :: vs) -> min_of v vs <= x <= max_of v vs.
Proof.
  destruct (min_of_below vs v) as [H1 H2]. destruct (max_of_above vs v) as [H3 H4].
  intros [<- | Hx]; [split; assumption | split; [apply H2 | apply H4]; exact Hx].
Qed.

Lemma min_of_In vs : forall v, In (min_of v vs) (v :: vs).
Proof.
  unfold min_of. induction vs as [|a vs IH]; intros v; cbn [foldl]; [left; reflexivity|].
  destruct (IH (Qmin v a)) as [H | H]; [|right; right; exact H].
  rewrite <- H. unfold Qmin, GenericMinMax.gmin.
  destruct (Qcompare v a); [left | left | right; left]; reflexivity.
Qed.

Lemma max_of_In vs : forall v, In (max_of v vs) (v :: vs).
Proof.
  unfold max_of. induction vs as [|a vs IH]; intros v; cbn [foldl]; [left; reflexivity|].
  destruct (IH (Qmax v a)) as [H | H]; [|right; right; exact H].
  rewrite <- H. unfold Qmax, GenericMinMax.gmax.
  destruct (Qcompare v a); [left | right; left | left]; reflexivity.
Qed.

(** What the domain holds of a sample: nothing lies above it; in
    residual mode nothing lies below it; in absolute mode exactly the
    negative values do. *)
Lemma domain_holds mode v vs lo hi x :
  domain mode (min_of v vs) (max_of v vs) = (lo, hi) -> In x (v :: vs) ->
  x <= hi
  /\ match mode with
     | residual => lo <= x
     | absolute => (lo <= x <-> 0 <= x)
     end.
Proof.
  intros Hdom Hx. apply sample_bounds in Hx as [Hmin Hmax].
  destruct mode; cbn [domain] in Hdom; injection Hdom as <- <-.
  - set (a := min_of v vs) in *. set (b := max_of v vs) in *.
    pose proof (Q.le_max_l (Qabs a) (Qabs b)). pose proof (Q.le_max_r (Qabs a) (Qabs b)).
    pose proof (Qle_Qabs b). pose proof (Qle_Qabs (- a)). rewrite Qabs_opp in *.
    split; lra.
  - set (a := min_of v vs) in *. set (b := max_of v vs) in *.
    pose proof (Q.le_max_l (Qmax 0 a) b). pose proof (Q.le_max_r (Qmax 0 a) b).
    pose proof (Q.le_max_l 0 a). pose proof (Q.le_max_r 0 a).
    split; [lra|]. split; [lra|]. intros Hpos.
    destruct (Q.max_spec 0 a) as [[_ ->] | [_ ->]]; lra.
Qed.

Lemma count_if_all (p : Q -> bool) vs :
  (forall x, In x vs -> p x = true) -> count_if p vs = length vs.
Proof.
  intros H. induction vs as [|a vs IH]; [reflexivity|].
  rewrite count_if_cons, (H a (or_introl eq_refl)), IH; [reflexivity|].
  intros x Hx. apply H. right. exact Hx.
Qed.

Lemma count_if_ext_in (p q : Q -> bool) vs :
  (forall x, In x vs -> p x = q x) -> count_if p vs = count_if q vs.
Proof.
  intros H. induction vs as [|a vs IH]; [reflexivity|].
  rewrite !count_if_cons, (H a (or_introl eq_refl)), IH; [reflexivity|].
  intros x Hx. apply H. right. exact Hx.
Qed.

Lemma kept_count mode v vs lo hi :
  domain mode (min_of v vs) (max_of v vs) = (lo, hi) ->
  count_if (in_domain lo hi) (v :: vs)
  = match mode with
    | residual => length (v :: vs)
    | absolute => count_if (Qle_bool 0) (v :: vs)
    end.
Proof.
  intros Hdom. destruct mode.
  - apply count_if_all. intros x Hx.
    destruct (domain_holds residual v vs lo hi x Hdom Hx) as [H1 H2].
    apply in_domain_spec. split; assumption.
  - apply count_if_ext_in. intros x Hx.
    destruct (domain_holds absolute v vs lo hi x Hdom Hx) as [H1 H2].
    destruct (Qle_bool 0 x) eqn:E.
    + apply in_domain_spec. apply Qle_bool_iff in E. split; [apply H2; exact E | exact H1].
    + apply not_true_is_false. rewrite in_domain_spec. intros [H3 _].
      apply H2 in H3. apply Qle_bool_iff in H3. congruence.
Qed.

(** No distance overflows in absolute mode when no value does, and in
    either mode when every value is below half the bound in magnitude. *)
Lemma overflows_cases values mode :
  overflows values mode = true \/ overflows values mode = false.
Proof. destruct (overflows values mode); auto. Qed.

Lemma no_overflow_small mode v vs lo hi :
  domain mode (min_of v vs) (max_of v vs) = (lo, hi) ->
  match mode with
  | absolute => forall x, In x (v :: vs) -> x < overflow_bound
  | residual => forall x, In x (v :: vs) -> Qabs x < half_bound
  end ->
  forall x, In x (v :: vs) -> in_domain lo hi x = true -> x - lo < overflow_bound.
Proof.
  intros Hdom Hsmall x Hx Hd. apply in_domain_spec in Hd as [Hlo Hhi].
  destruct mode; cbn [domain] in Hdom; injection Hdom as <- <-.
  - assert (In (min_of v vs) (v :: vs)) as Hmin by apply min_of_In.
    assert (In (max_of v vs) (v :: vs)) as Hmax by apply max_of_In.
    pose proof (Hsmall _ Hmin) as H1. pose proof (Hsmall _ Hmax) as H2.
    pose proof (Hsmall _ Hx) as H3. pose proof (Qle_Qabs x) as H4.
    assert (Qmax (Qabs (min_of v vs)) (Qabs (max_of v vs)) < half_bound) as Ha.
    { destruct (Q.max_spec (Qabs (min_of v vs)) (Qabs (max_of v vs)))
        as [[_ ->] | [_ ->]]; assumption. }
    assert (half_bound + half_bound == overflow_bound) as Hh by (vm_compute; reflexivity).
    lra.
  - pose proof (Hsmall _ Hx) as H3. pose proof (Q.le_max_l 0 (min_of v vs)). lra.
Qed.

Lemma small_overflows values mode :
  match mode with
  | absolute => forall x, In x (finite_values values) -> x < overflow_bound
  | residual => forall x, In x (finite_values values) -> Qabs x < half_bound
  end -> overflows values mode = false.
Proof.
  intros Hsmall. destruct (overflows_cases values mode) as [Hov | Hov]; [|exact Hov].
  destruct (finite_values values) as [|v vs] eqn:Hclean.
  - unfold overflows, hist_domain in Hov. rewrite Hclean in Hov. discriminate.
  - destruct (domain mode (min_of v vs) (max_of v vs)) as [lo hi] eqn:Hdom.
    destruct (overflows_true values mode v vs lo hi Hclean Hdom Hov) as (x & Hx & Hd & Hbig).
    pose proof (no_overflow_small mode v vs lo hi Hdom Hsmall x Hx Hd). lra.
Qed.

(** Without an overflow the rows come back and lose no value that the
    mode keeps. *)
Lemma toHistogram_kept (values : list num) (bins : num) (mode : Mode) :
  bins <> NaN -> overflows values mode = false ->
  exists rows,
    toHistogram values bins mode = Some rows
    /\ sum_counts rows
       = match mode with
         | residual => length (finite_values values)
         | absolute => count_if (Qle_bool 0) (finite_values values)
         end.
Proof.
  intros Hb Hov. destruct (clamp_cases bins Hb) as (k & Hk & Hrange).
  destruct (finite_values values) as [|v vs] eqn:Hclean.
  - exists []. unfold toHistogram. rewrite Hclean. split; [reflexivity|].
    destruct mode; reflexivity.
  - destruct (domain mode (min_of v vs) (max_of v vs)) as [lo hi] eqn:Hdom.
    pose proof (overflows_false values mode v vs lo hi Hclean Hdom Hov) as Hall.
    destruct (toHistogram_run values bins mode k v vs lo hi Hk Hrange Hclean Hdom Hall)
      as (rows & Hrun & _ & Hsum & _).
    exists rows. split; [exact Hrun|].
    rewrite Hsum. apply (kept_count mode v vs lo hi Hdom).
Qed.

(** With an overflow the call throws. *)
Lemma toHistogram_overflows (values : list num) (bins : num) (mode : Mode) :
  bins <> NaN -> overflows values mode = true -> toHistogram values bins mode = None.
Proof.
  intros Hb Hov. destruct (clamp_cases bins Hb) as (k & Hk & Hrange).
  destruct (finite_values values) as [|v vs] eqn:Hclean.
  - unfold overflows, hist_domain in Hov. rewrite Hclean in Hov. discriminate.
  - destruct (domain mode (min_of v vs) (max_of v vs)) as [lo hi] eqn:Hdom.
    destruct (overflows_true values mode v vs lo hi Hclean Hdom Hov) as (x & Hx & Hd & Hbig).
    apply (toHistogram_throws values bins mode k v vs lo hi x); assumption.
Qed.

(** X10: when [toHistogram] throws, and that it loses no finite value
    otherwise.  For every bin count but [NaN]: the call throws exactly
    when, for some finite value [v] of the domain, the distance [v - min]
    from its lower end is rounded to [Infinity] ([v - min] is at least
    [2^1024 - 2^970]); otherwise the counts of the rows add up, in
    residual mode, to the number of finite values, and in absolute mode
    to the number of finite values that are not negative.  No distance
    overflows in absolute mode when every finite value is below the
    bound, as every double is, nor in residual mode when every finite
    value is below [2^1023 - 2^969] in magnitude, as every double below
    [2^1023] is. *)
Theorem toHistogram_conserves (values : list num) (bins : num) (mode : Mode) :
  bins <> NaN ->
  (overflows values mode = true -> toHistogram values bins mode = None)
  /\ (overflows values mode = false ->
      exists rows,
        toHistogram values bins mode = Some rows
        /\ sum_counts rows
           = match mode with
             | residual => length (finite_values values)
             | absolute => count_if (Qle_bool 0) (finite_values values)
             end)
  /\ (match mode with
      | absolute => forall x, In x (finite_values values) -> x < overflow_bound
      | residual => forall x, In x (finite_values values) -> Qabs x < half_bound
      end -> overflows values mode = false).
Proof.
  intros Hb. split; [apply toHistogram_overflows, Hb|].
  split; [apply toHistogram_kept, Hb | apply small_overflows].
Qed.

Lemma toHistogram_conserves_witness :
  exists rows,
    toHistogram [Fin 1; NaN; Fin (5 # 2); Fin (-4)] (Fin 7) absolute = Some rows
    /\ sum_counts rows = 2%nat.
Proof.
  destruct (toHistogram_conserves [Fin 1; NaN; Fin (5 # 2); Fin (-4)] (Fin 7) absolute)
    as (_ & Hrows & _).
  - discriminate.
  - destruct Hrows as (rows & Hrun & Hsum); [vm_compute; reflexivity|].
    exists rows. split; [exact Hrun | exact Hsum].
Defined.

(** *** The order of the places *)

Lemma le_Fin_trans a b c : le a b = true -> le b c = true -> le a c = true.
Proof.
  destruct a as [p| | |], b as [q| | |], c as [r| | |]; cbn [le];
    try discriminate; try reflexivity.
  rewrite !Qle_bool_iff. intros. lra.
Qed.

(** The quotient [(v - min) / width] does not decrease with [v]. *)
Lemma quotient_mono lo hi (k : Z) v v' :
  lo <= hi -> (5 <= k <= 60)%Z -> lo <= v -> v <= v' -> v' <= hi ->
  v' - lo < overflow_bound ->
  le (div (sub (Fin v) (Fin lo)) (bin_width lo hi (Fin (inject_Z k))))
     (div (sub (Fin v') (Fin lo)) (bin_width lo hi (Fin (inject_Z k)))) = true.
Proof.
  intros Hle Hk Hlo Hvv Hhi Hfin.
  destruct (sub_cases v lo Hlo) as [[_ Hbig] | (d & Ed & Hd & _ & _)]; [lra|].
  destruct (sub_cases v' lo ltac:(lra)) as [[_ Hbig] | (d' & Ed' & Hd' & _ & _)]; [lra|].
  assert (d <= d') as Hdd.
  { pose proof (round64_mono (v - lo) (v' - lo) ltac:(lra)) as H.
    cbn [sub] in Ed, Ed'. rewrite Ed, Ed' in H. apply Qle_bool_iff. exact H. }
  rewrite Ed, Ed'.
  destruct (bin_width_cases lo hi k Hle Hk) as [[-> _] | (w & -> & Hw & _)].
  - reflexivity.
  - destruct (div_pos_cases d w Hd Hw) as [-> _].
    destruct (div_pos_cases d' w Hd' Hw) as [-> _].
    apply round64_mono. apply Qmult_le_compat_r; [exact Hdd|].
    apply Qlt_le_weak, Qinv_lt_0_compat, Hw.
Qed.

(** A value at the lower end of the domain gets the first place. *)
Lemma bin_index_lower lo hi (k : Z) v : lo <= hi -> (5 <= k <= 60)%Z -> v == lo ->
  bin_index lo (bin_width lo hi (Fin (inject_Z k))) (Fin (inject_Z k)) v = Some O.
Proof.
  intros Hle Hk Hv.
  assert (Esub : sub (Fin v) (Fin lo) = Fin 0).
  { cbn [sub]. apply round64_zero. lra. }
  rewrite (bin_index_place lo _ k v (Fin 0)).
  - cbn [place]. change (Qfloor 0) with 0%Z. f_equal. lia.
  - lia.
  - rewrite Esub.
    destruct (bin_width_cases lo hi k Hle Hk) as [[-> _] | (w & -> & Hw & _)];
      [reflexivity|].
    destruct (div_pos_cases 0 w ltac:(lra) Hw) as [-> _].
    apply round64_zero. field. lra.
  - right. exists 0. split; [reflexivity | lra].
Qed.

Lemma place_mono (t t' : num) (k : Z) :
  t <> NInf -> le t t' = true -> (place t k <= place t' k)%Z.
Proof.
  destruct t as [x| | |], t' as [x'| | |]; cbn [le place]; try discriminate; try lia;
    try congruence.
  rewrite Qle_bool_iff. intros _ H. pose proof (Qfloor_resp_le _ _ H). lia.
Qed.

(** X11: the rows count the finite values in their order.  For every
    bin count but [NaN], when no distance overflows: every finite value
    of the domain is counted by exactly one row, the count of a row is
    the number of values that it counts, of two counted values the
    larger one is never counted by an earlier row, and a value at the
    lower end of the domain is counted by the first row.  (The row of a
    value need not be the one between whose edges it lies: the edges and
    the index are rounded separately.) *)
Theorem toHistogram_counts_in_order (values : list num) (bins : num) (mode : Mode) :
  bins <> NaN ->
  overflows values mode = false ->
  exists (k : Z) (rows : list HistRow),
    clamp bins (Fin 5) (Fin 60) = Fin (inject_Z k)
    /\ toHistogram values bins mode = Some rows
    /\ match hist_domain values mode with
       | None => rows = []
       | Some (lo, hi) =>
           let counts i v :=
             lands_in lo hi (bin_width lo hi (Fin (inject_Z k))) (Fin (inject_Z k)) i v in
           (forall i r, rows !! i = Some r ->
              count r = count_if (counts i) (finite_values values))
           /\ (forall v, In v (finite_values values) -> lo <= v <= hi ->
                 exists i, (i < length rows)%nat /\ counts i v = true
                   /\ forall j, counts j v = true -> j = i)
           /\ (forall v v' i j, v <= v' -> counts i v = true -> counts j v' = true ->
                 (i <= j)%nat)
           /\ (forall v, v == lo -> counts O v = true)
       end.
Proof.
  intros Hb Hov. destruct (clamp_cases bins Hb) as (k & Hk & Hrange).
  exists k.
  destruct (finite_values values) as [|v vs] eqn:Hclean.
  - exists []. unfold toHistogram, hist_domain. rewrite Hclean.
    split; [exact Hk|]. split; reflexivity.
  - rewrite (hist_domain_eq values mode v vs Hclean).
    destruct (domain mode (min_of v vs) (max_of v vs)) as [lo hi] eqn:Hdom.
    pose proof (domain_ordered _ _ _ _ _ Hdom) as Hle.
    pose proof (overflows_false values mode v vs lo hi Hclean Hdom Hov) as Hall.
    destruct (toHistogram_run values bins mode k v vs lo hi Hk Hrange Hclean Hdom Hall)
      as (rows & Hrun & Hlen & _ & Hrows).
    exists rows. split; [exact Hk|]. split; [exact Hrun|]. cbv zeta.
    set (width := bin_width lo hi (Fin (inject_Z k))) in *.
    split; [|split; [|split]].
    + intros i r Hr. destruct (Hrows i r Hr) as (_ & _ & Hc). exact Hc.
    + intros x Hx [Hlo Hhi].
      assert (in_domain lo hi x = true) as Hd by (apply in_domain_spec; split; assumption).
      destruct (bin_index_cases lo hi k x Hle Hrange Hlo Hhi) as [[_ Hbig] | (Hi & Ht & _)].
      { specialize (Hall x Hx Hd). lra. }
      fold width in Hi, Ht.
      pose proof (valid_place _ k ltac:(lia) Ht) as Hp.
      exists (Z.to_nat (place (div (sub (Fin x) (Fin lo)) width) k)). split; [|split].
      * rewrite Hlen. lia.
      * unfold lands_in. rewrite Hd, Hi. cbn [andb]. apply bool_decide_eq_true. reflexivity.
      * intros j Hj. unfold lands_in in Hj. rewrite Hd, Hi in Hj. cbn [andb] in Hj.
        apply bool_decide_eq_true in Hj. congruence.
    + intros x x' i j Hxx Hi Hj. unfold lands_in in Hi, Hj.
      apply andb_true_iff in Hi as [Hd Hi]. apply andb_true_iff in Hj as [Hd' Hj].
      apply bool_decide_eq_true in Hi, Hj.
      apply in_domain_spec in Hd as [Hlo Hhi]. apply in_domain_spec in Hd' as [Hlo' Hhi'].
      destruct (bin_index_cases lo hi k x Hle Hrange Hlo Hhi) as [[E _] | (E & Ht & _)];
        fold width in E; [congruence|].
      destruct (bin_index_cases lo hi k x' Hle Hrange Hlo' Hhi')
        as [[E' _] | (E' & Ht' & Hfin')]; fold width in E'; [congruence|].
      fold width in Ht, Ht'.
      rewrite E in Hi. rewrite E' in Hj. injection Hi as <-. injection Hj as <-.
      pose proof (quotient_mono lo hi k x x' Hle Hrange Hlo Hxx Hhi' Hfin') as Hq.
      fold width in Hq.
      assert (div (sub (Fin x) (Fin lo)) width <> NInf) as Hn
        by (destruct Ht as [-> | (y & -> & _)]; discriminate).
      pose proof (place_mono _ _ k Hn Hq).
      pose proof (valid_place _ k ltac:(lia) Ht). cbn [sub] in *. lia.
    + intros x Hx. unfold lands_in.
      assert (in_domain lo hi x = true) as -> by (apply in_domain_spec; lra).
      apply bool_decide_eq_true. apply bin_index_lower; assumption.
Qed.

Lemma toHistogram_counts_in_order_witness :
  exists rows,
    toHistogram [Number "0.5"; Number "-0.1"] (Fin 5) residual = Some rows
    /\ List.map count rows = [0; 0; 1; 0; 1]%nat.
Proof.
  destruct (toHistogram_counts_in_order [Number "0.5"; Number "-0.1"] (Fin 5) residual)
    as (k & rows & _ & Hrun & _).
  - discriminate.
  - vm_compute. reflexivity.
  - exists rows. split; [exact Hrun|].
    vm_compute in Hrun. injection Hrun as <-. reflexivity.
Defined.

(** What the rounding of the edges does to the sample 0.5, -0.1 with
    five rows in residual mode: the value -0.1 is counted by the third
    row, whose lower edge is the double above -0.1. *)
Example toHistogram_edge_above_value :
  Number "-0.1" = Fin (-3602879701896397 # 36028797018963968)
  /\ option_map (fun rows => List.map x0 rows !! 2%nat)
       (toHistogram [Number "0.5"; Number "-0.1"] (Fin 5) residual)
     = Some (Some (Fin (-900719925474099 # 9007199254740992)))
  /\ Qlt (-3602879701896397 # 36028797018963968) (-900719925474099 # 9007199254740992).
Proof. repeat split; vm_compute; reflexivity. Qed.

(** *** The place of the rows *)

Lemma edge_zero lo w : edge lo (Fin w) 0 = round64 lo.
Proof.
  unfold edge. cbn [mul Z.of_nat]. rewrite (round64_zero (_ * w)) by ring.
  cbn [add]. apply round64_comp. ring.
Qed.

Lemma edge_from lo w i : 0 < w -> le (round64 lo) (edge lo (Fin w) i) = true.
Proof.
  intros Hw. rewrite <- (edge_zero lo w).
  induction i as [|i IH]; [|exact (le_Fin_trans _ _ _ IH (edge_mono lo w i Hw))].
  rewrite edge_zero. destruct (round64_cases lo) as [[-> _] | [[-> _] | (r & -> & _)]];
    try reflexivity. apply le_refl_Fin.
Qed.

(** X12: where the rows lie.  In residual mode the domain is symmetric
    about 0: its ends are [-a] and [a] for the largest magnitude [a] of a
    finite value, and every finite value lies in it.  In absolute mode
    the domain starts at the least finite value, or at 0 when that is
    negative, and ends at the largest value, or at its start.  For every
    bin count but [NaN], when the span does not overflow, the first row
    starts at the double next to the lower end (the lower end itself when
    it is a double) and no row starts before it; so in absolute mode no
    row starts below 0.  (In residual mode the edges of the rows need not
    mirror each other: each one is rounded.) *)
Theorem toHistogram_rows_lie (values : list num) (bins : num) (mode : Mode) :
  bins <> NaN ->
  finite_span values mode ->
  exists rows,
    toHistogram values bins mode = Some rows
    /\ match hist_domain values mode with
       | None => rows = []
       | Some (lo, hi) =>
           match mode with
           | residual =>
               lo = - hi
               /\ (exists x, In x (finite_values values) /\ hi = Qabs x)
               /\ (forall x, In x (finite_values values) -> Qabs x <= hi)
           | absolute =>
               (exists least, In least (finite_values values)
                  /\ (forall x, In x (finite_values values) -> least <= x)
                  /\ lo = Qmax 0 least)
               /\ (exists most, In most (finite_values values)
                     /\ (forall x, In x (finite_values values) -> x <= most)
                     /\ hi = Qmax lo most)
               /\ Forall (fun r => le (Fin 0) (x0 r) = true) rows
           end
           /\ (forall r, rows !! 0%nat = Some r -> x0 r = round64 lo)
           /\ (round64 lo = Fin lo -> forall r, rows !! 0%nat = Some r -> x0 r = Fin lo)
           /\ Forall (fun r => le (round64 lo) (x0 r) = true) rows
       end.
Proof.
  intros Hb Hspan. destruct (clamp_cases bins Hb) as (k & Hk & Hrange).
  destruct (finite_values values) as [|v vs] eqn:Hclean.
  - exists []. unfold toHistogram, hist_domain. rewrite Hclean. split; reflexivity.
  - rewrite (hist_domain_eq values mode v vs Hclean).
    destruct (domain mode (min_of v vs) (max_of v vs)) as [lo hi] eqn:Hdom.
    pose proof (domain_ordered _ _ _ _ _ Hdom) as Hle.
    destruct (finite_span_no_overflow values mode v vs lo hi Hclean Hdom Hspan)
      as [Hfin Hall].
    destruct (toHistogram_run values bins mode k v vs lo hi Hk Hrange Hclean Hdom Hall)
      as (rows & Hrun & Hlen & _ & Hrows).
    destruct (bin_width_cases lo hi k Hle Hrange) as [[_ Hbig] | (w & Ew & Hw & _)];
      [lra|].
    rewrite Ew in Hrows.
    exists rows. split; [exact Hrun|].
    assert (Hfirst : forall r, rows !! 0%nat = Some r -> x0 r = round64 lo).
    { intros r Hr. destruct (Hrows _ r Hr) as (_ & Hf & _). injection Hf as -> _ _.
      cbn [fresh_row x0]. apply edge_zero. }
    assert (Hfrom : Forall (fun r => le (round64 lo) (x0 r) = true) rows).
    { apply Forall_forall. intros r Hin. apply list_elem_of_lookup in Hin as [i Hr].
      destruct (Hrows i r Hr) as (_ & Hf & _). injection Hf as -> _ _.
      cbn [fresh_row x0]. apply edge_from. exact Hw. }
    split; [|split; [exact Hfirst|split; [|exact Hfrom]]].
    + pose proof (min_of_In vs v) as Hmin. pose proof (max_of_In vs v) as Hmax.
      destruct mode; cbn [domain] in Hdom; injection Hdom as Elo Ehi.
      * split; [rewrite <- Elo, <- Ehi; reflexivity|]. split.
        -- rewrite <- Ehi. unfold Qmax, GenericMinMax.gmax.
           destruct (Qcompare _ _); eauto.
        -- intros x Hx. apply sample_bounds in Hx as [H1 H2]. rewrite <- Ehi.
           set (a := min_of v vs) in *. set (b := max_of v vs) in *.
           pose proof (Q.le_max_l (Qabs a) (Qabs b)). pose proof (Q.le_max_r (Qabs a) (Qabs b)).
           pose proof (Qle_Qabs b). pose proof (Qle_Qabs (- a)). rewrite Qabs_opp in *.
           apply Qabs_Qle_condition. split; lra.
      * split; [|split].
        -- exists (min_of v vs). split; [exact Hmin|]. split; [|symmetry; exact Elo].
           intros x Hx. apply sample_bounds in Hx as [H1 _]. exact H1.
        -- exists (max_of v vs). split; [exact Hmax|]. split.
           ++ intros x Hx. apply sample_bounds in Hx as [_ H2]. exact H2.
           ++ rewrite <- Ehi, <- Elo. reflexivity.
        -- assert (0 <= lo) as Hlo0 by (rewrite <- Elo; apply Q.le_max_l).
           assert (le (Fin 0) (round64 lo) = true) as H0.
           { destruct (round64_nonneg lo Hlo0) as [-> | (r & -> & Hr)]; [reflexivity|].
             apply Qle_bool_iff. exact Hr. }
           eapply Forall_impl; [exact Hfrom|]. intros r Hr. cbv beta in *.
           exact (le_Fin_trans _ _ _ H0 Hr).
    + intros Elo r Hr. rewrite (Hfirst r Hr). exact Elo.
Qed.

Lemma toHistogram_rows_lie_witness :
  exists rows,
    toHistogram [Fin 4; NaN; Fin (-1)] (Fin 6) residual = Some rows
    /\ List.map x0 rows
       = [Fin (-4); Fin (-3002399751580331 # 1125899906842624);
          Fin (-3002399751580331 # 2251799813685248); Fin 0;
          Fin (1501199875790165 # 1125899906842624);
          Fin (1501199875790165 # 562949953421312)].
Proof.
  destruct (toHistogram_rows_lie [Fin 4; NaN; Fin (-1)] (Fin 6) residual)
    as (rows & Hrun & _).
  - discriminate.
  - vm_compute. reflexivity.
  - exists rows. split; [exact Hrun|].
    vm_compute in Hrun. injection Hrun as <-. reflexivity.
Defined.

(** What the rounding of the edges does to the symmetry: for the sample
    0.1, -0.1 with five rows the second edge and the fifth are no mirror
    images, nor are the third and the fourth. *)
Example toHistogram_edges_not_mirrored :
  option_map (List.map x1)
    (toHistogram [Number "0.1"; Number "-0.1"] (Fin 5) residual)
  = Some [Fin (-8646911284551353 # 144115188075855872);
          Fin (-1441151880758559 # 72057594037927936);
          Fin (720575940379279 # 36028797018963968);
          Fin (1080863910568919 # 18014398509481984);
          Fin (3602879701896397 # 36028797018963968)]
  /\ ~ (8646911284551353 # 144115188075855872) == (1080863910568919 # 18014398509481984)
  /\ ~ (1441151880758559 # 72057594037927936) == (720575940379279 # 36028797018963968).
Proof. split; [vm_compute; reflexivity | split; discriminate]. Qed.

(** *** The errors that the component hands to [toHistogram] *)

Lemma error_bounded d q : error_of d = Fin q -> Qabs q < overflow_bound.
Proof.
  unfold error_of.
  destruct (nullish (y d) (Fin 0)) as [a| | |], (nullish (yhat d) (Fin 0)) as [b| | |];
    cbn [sub]; try discriminate.
  intros E. destruct (round64_bounded _ _ E) as (B1 & B2 & _).
  apply Qabs_Qlt_condition. split; assumption.
Qed.

Lemma values_absolute_cases data x :
  In x (finite_values (values data absolute)) ->
  0 <= x
  /\ ((exists d e, In d data /\ abs_err d = Val (Fin e) /\ (x = e \/ x = 0))
      \/ x < overflow_bound).
Proof.
  unfold finite_values, values. rewrite in_flat_map. intros (n & Hn & Hx).
  apply in_map_iff in Hn as (d & <- & Hd).
  destruct (abs_err d) as [| |e] eqn:Ea.
  1,2: (destruct (error_of d) as [q| | |] eqn:Ee; cbn [Math_abs] in Hx;
        try contradiction; destruct Hx as [<- | []];
        split; [apply Qabs_nonneg | right; apply (error_bounded d q Ee)]).
  destruct e as [p| | |]; cbn [Math_max] in Hx; try contradiction.
  - destruct (Qle_bool 0 p) eqn:E; destruct Hx as [<- | []].
    + apply Qle_bool_iff in E. split; [exact E|]. left. exists d, p. auto.
    + split; [lra|]. left. exists d, p. auto.
  - destruct Hx as [<- | []]. split; [lra|]. right. apply overflow_bound_pos.
Qed.

Lemma absolute_values_nonneg data x :
  In x (finite_values (values data absolute)) -> 0 <= x.
Proof. intros H. apply (values_absolute_cases data x H). Qed.

Lemma absolute_no_overflow data :
  (forall d e, In d data -> abs_err d = Val (Fin e) -> e < overflow_bound) ->
  overflows (values data absolute) absolute = false.
Proof.
  intros Hsmall. apply (small_overflows _ absolute).
  intros x Hx.
  destruct (values_absolute_cases data x Hx) as [_ [(d & e & Hd & He & [-> | ->]) | H]].
  - exact (Hsmall d e Hd He).
  - apply overflow_bound_pos.
  - exact H.
Qed.

(** X13: the histogram of the component counts every finite error once.
    In residual mode the values are the doubles [y - yhat]; in absolute
    mode they are [max(0, abs_err)], or [|y - yhat|] without [abs_err],
    so none is negative.  For every bin count but [NaN] the rows come
    back and their counts add up to the number of finite values: in
    absolute mode when every [abs_err] given is below the overflow bound,
    as every double is, and in residual mode when every finite error is
    below [2^1023 - 2^969] in magnitude, as every double below [2^1023]
    is. *)
Theorem hist_counts_every_error (data : list ByPeriodPoint) (bins : num) (mode : Mode) :
  bins <> NaN ->
  match mode with
  | absolute => forall d e, In d data -> abs_err d = Val (Fin e) -> e < overflow_bound
  | residual =>
      forall x, In x (finite_values (values data residual)) -> Qabs x < half_bound
  end ->
  exists rows,
    hist data bins mode = Some rows
    /\ sum_counts rows = length (finite_values (values data mode))
    /\ (forall x, mode = absolute -> In x (finite_values (values data mode)) -> 0 <= x).
Proof.
  intros Hb Hsmall. unfold hist.
  assert (Hpos : forall x, mode = absolute ->
                   In x (finite_values (values data mode)) -> 0 <= x).
  { intros x -> Hx. eapply absolute_values_nonneg. exact Hx. }
  destruct (toHistogram_kept (values data mode) bins mode Hb) as (rows & Hrun & Hsum).
  { destruct mode; [apply (small_overflows _ residual), Hsmall|].
    apply absolute_no_overflow, Hsmall. }
  exists rows. split; [exact Hrun|]. split; [|exact Hpos].
  rewrite Hsum. destruct mode; [reflexivity|].
  apply count_if_all. intros x Hx. apply Qle_bool_iff. apply Hpos; [reflexivity | exact Hx].
Qed.

Lemma hist_counts_every_error_witness :
  exists rows,
    hist [ {| ds := "2024-01-01"; y := Val (Fin 10); yhat := Val (Fin 12);
              lower := Undefined; upper := Undefined; abs_err := Undefined |};
           {| ds := "2024-01-02"; y := Undefined; yhat := Val NaN;
              lower := Undefined; upper := Undefined; abs_err := Val (Fin (-3)) |} ]
      (Fin 5) absolute = Some rows
    /\ sum_counts rows = 2%nat.
Proof.
  destruct (hist_counts_every_error
    [ {| ds := "2024-01-01"; y := Val (Fin 10); yhat := Val (Fin 12);
         lower := Undefined; upper := Undefined; abs_err := Undefined |};
      {| ds := "2024-01-02"; y := Undefined; yhat := Val NaN;
         lower := Undefined; upper := Undefined; abs_err := Val (Fin (-3)) |} ]
    (Fin 5) absolute) as (rows & Hrun & Hsum & _).
  - discriminate.
  - intros d e [<- | [<- | []]]; cbn [abs_err]; intros [= <-]. reflexivity.
  - exists rows. split; [exact Hrun | exact Hsum].
Defined.

(** An error near the largest double is not binned in residual mode:
    the component throws while it renders. *)
Example hist_throws :
  hist [ {| ds := "2024-01-01"; y := Val (Number "1e308"); yhat := Val (Fin 0);
            lower := Undefined; upper := Undefined; abs_err := Undefined |} ]
    (Fin 5) residual = None.
Proof. vm_compute. reflexivity. Qed.

Lemma floor_ge x (n : Z) : inject_Z n <= x <-> (n <= Qfloor x)%Z.
Proof.
  split.
  - intros H. rewrite <- (Qfloor_Z n). apply Qfloor_resp_le. exact H.
  - intros H. pose proof (Qfloor_le x) as Hx.
    assert (inject_Z n <= inject_Z (Qfloor x)) by (unfold Qle; simpl; lia). lra.
Qed.


(** *** The bin count of the component *)

Lemma floor_lt x (n : Z) : x < inject_Z n <-> (Qfloor x < n)%Z.
Proof.
  pose proof (floor_ge x n) as H. split.
  - intros Hlt. destruct (Z_lt_le_dec (Qfloor x) n) as [Hz | Hz]; [exact Hz|].
    apply H in Hz. lra.
  - intros Hz. apply Qnot_le_lt. intros Hle. apply H in Hle. lia.
Qed.

Lemma Qfloor_half q (k : Z) : q == inject_Z k -> Qfloor (q + (1 # 2)) = k.
Proof.
  intros Hq. apply Z.le_antisymm.
  - apply Z.lt_succ_r. unfold Z.succ. apply floor_lt.
    rewrite inject_Z_plus. change (inject_Z 1) with 1. lra.
  - apply floor_ge. lra.
Qed.

(** [clamp] on a whole number, between whole bounds. *)
Lemma clamp_whole q (k a b : Z) : q == inject_Z k -> (a <= b)%Z ->
  clamp (Fin q) (Fin (inject_Z a)) (Fin (inject_Z b))
  = Fin (inject_Z (Z.max a (Z.min b k))).
Proof.
  intros Hq Hab. unfold clamp, Math_round. rewrite (Qfloor_half q k Hq).
  cbn [Math_min].
  destruct (Qle_bool (inject_Z b) (inject_Z k)) eqn:E1; cbn [Math_max].
  - apply Qle_bool_iff in E1. unfold Qle in E1. simpl in E1.
    destruct (Qle_bool (inject_Z a) (inject_Z b)) eqn:E2.
    + do 2 f_equal. lia.
    + apply Qle_bool_iff in E2 || (exfalso; revert E2; apply not_false_iff_true;
        apply Qle_bool_iff; unfold Qle; simpl; lia).
  - assert (~ inject_Z b <= inject_Z k) as E1' by (rewrite <- Qle_bool_iff; congruence).
    unfold Qle in E1'. simpl in E1'.
    destruct (Qle_bool (inject_Z a) (inject_Z k)) eqn:E2.
    + apply Qle_bool_iff in E2. unfold Qle in E2. simpl in E2. do 2 f_equal. lia.
    + assert (~ inject_Z a <= inject_Z k) as E2' by (rewrite <- Qle_bool_iff; congruence).
      unfold Qle in E2'. simpl in E2'. do 2 f_equal. lia.
Qed.

Lemma pow2_pos (m : Z) : 0 < pow2 m.
Proof. unfold pow2. apply Qpower_0_lt. reflexivity. Qed.

Lemma pow2_nonneg_exp (m : Z) : (0 <= m)%Z -> pow2 m == inject_Z (2 ^ m).
Proof.
  intros Hm. unfold pow2. rewrite Zpower_Qpower by exact Hm. reflexivity.
Qed.

Lemma pow2_succ (m : Z) : pow2 (m + 1) == 2 * pow2 m.
Proof.
  unfold pow2. rewrite Qpower_plus by discriminate. rewrite Qmult_comm. reflexivity.
Qed.

Lemma pow2_opp (m : Z) : pow2 (- m) == / pow2 m.
Proof. unfold pow2. apply Qpower_opp. Qed.

(** [ceil_log2 q] is the ceiling of the binary logarithm of [q]. *)
Lemma ceil_log2_spec q : 0 < q ->
  pow2 (ceil_log2 q - 1) < q /\ q <= pow2 (ceil_log2 q).
Proof.
  intros Hq. unfold ceil_log2. destruct (Qle_bool q 1) eqn:E.
  - apply Qle_bool_iff in E.
    assert (1 <= / q) as Hinv.
    { apply Qle_shift_inv_l; [exact Hq | lra]. }
    set (z := Qfloor (/ q)).
    assert (1 <= z)%Z as Hz by (apply floor_ge; exact Hinv).
    destruct (Z.log2_spec z ltac:(lia)) as [H1 H2].
    set (e := Z.log2 z) in *.
    assert (0 <= e)%Z as He by apply Z.log2_nonneg.
    assert (inject_Z (2 ^ e) <= / q) as Hlow.
    { pose proof (Qfloor_le (/ q)) as Hf. fold z in Hf.
      assert (inject_Z (2 ^ e) <= inject_Z z) by (unfold Qle; simpl; lia). lra. }
    assert (/ q < inject_Z (2 ^ (e + 1))) as Hup.
    { apply floor_lt. fold z. replace (e + 1)%Z with (Z.succ e) by lia. exact H2. }
    rewrite <- pow2_nonneg_exp in Hlow by exact He.
    rewrite <- pow2_nonneg_exp in Hup by lia.
    pose proof (pow2_pos e) as Pe. pose proof (pow2_pos (e + 1)) as Pe1.
    replace (- e - 1)%Z with (- (e + 1))%Z by lia.
    rewrite !pow2_opp. split.
    + apply Qlt_shift_inv_r; [exact Pe1|].
      apply (Qmult_lt_r _ _ q Hq) in Hup. rewrite Qmult_comm, Qmult_inv_r in Hup by lra.
      rewrite Qmult_comm. exact Hup.
    + apply Qle_shift_inv_l; [exact Pe|].
      apply (Qmult_le_r _ _ q Hq) in Hlow. rewrite (Qmult_comm (/ q)), Qmult_inv_r in Hlow by lra.
      rewrite Qmult_comm. exact Hlow.
  - assert (1 < q) as Hq1.
    { apply Qnot_le_lt. rewrite <- Qle_bool_iff. congruence. }
    set (c := Qceiling q).
    assert (q <= inject_Z c) as Hc by apply Qle_ceiling.
    assert (inject_Z c - 1 < q) as Hc'.
    { pose proof (Qceiling_lt q) as H. fold c in H.
      replace (c - 1)%Z with (c + -1)%Z in H by lia.
      rewrite inject_Z_plus in H. change (inject_Z (-1)) with (-1) in H. lra. }
    assert (1 < c)%Z as Hc1.
    { assert (inject_Z 1 < inject_Z c) as H by (change (inject_Z 1) with 1; lra).
      unfold Qlt in H. simpl in H. lia. }
    destruct (Z.log2_up_spec c Hc1) as [H1 H2].
    set (m := Z.log2_up c) in *.
    assert (0 < m)%Z as Hm by (apply Z.log2_up_pos; exact Hc1).
    rewrite !pow2_nonneg_exp by lia. split.
    + replace (m - 1)%Z with (Z.pred m) by lia.
      assert (inject_Z (2 ^ Z.pred m) <= inject_Z c - 1); [|lra].
      assert (2 ^ Z.pred m <= c + -1)%Z as H by lia.
      assert (inject_Z (2 ^ Z.pred m) <= inject_Z (c + -1)) as H'
        by (unfold Qle; simpl; lia).
      rewrite inject_Z_plus in H'. change (inject_Z (-1)) with (-1) in H'. lra.
    + assert (inject_Z c <= inject_Z (2 ^ m)) by (unfold Qle; simpl; lia). lra.
Qed.

Lemma sturges_whole n : exists k : Z, sturges n = Fin (inject_Z k) /\ (5 <= k <= 40)%Z.
Proof.
  destruct n as [q| | |]; cbn [sturges]; try (exists 20%Z; split; [reflexivity | lia]).
  destruct (Qle_bool q 0); [exists 20%Z; split; [reflexivity | lia]|].
  eexists. split.
  - apply (clamp_whole _ (ceil_log2 q + 1) 5 40); [reflexivity | lia].
  - lia.
Qed.

Lemma sturges_length (n : nat) :
  sturges (Fin (inject_Z (Z.of_nat n)))
  = match n with
    | O => Fin 20
    | _ => Fin (inject_Z (Z.max 5 (Z.min 40 (Z.log2_up (Z.of_nat n) + 1))))
    end.
Proof.
  destruct n as [|n]; [reflexivity|].
  cbn [sturges].
  assert (Qle_bool (inject_Z (Z.of_nat (S n))) 0 = false) as ->.
  { apply not_true_is_false. rewrite Qle_bool_iff. unfold Qle. simpl. lia. }
  rewrite (clamp_whole _ (ceil_log2 (inject_Z (Z.of_nat (S n))) + 1) 5 40)
    by (reflexivity || lia).
  do 4 f_equal. unfold ceil_log2.
  destruct (Qle_bool (inject_Z (Z.of_nat (S n))) 1) eqn:E.
  - apply Qle_bool_iff in E. unfold Qle in E. simpl in E.
    assert (n = O) as -> by lia. reflexivity.
  - rewrite Qceiling_Z. reflexivity.
Qed.

(** X14: the automatic bin count.  [sturges] always returns a whole
    number from 5 to 40: 20 for a number that is not finite or not
    positive, and otherwise the ceiling of the binary logarithm plus one,
    brought into the range; for [n] data points this is 20 when [n] is 0,
    5 up to 16 points, and it never decreases from one point on. *)
Theorem sturges_spec :
  (forall n, exists k : Z, sturges n = Fin (inject_Z k) /\ (5 <= k <= 40)%Z)
  /\ (forall n, isFinite n = false -> sturges n = Fin 20)
  /\ (forall q, q <= 0 -> sturges (Fin q) = Fin 20)
  /\ (forall q, 0 < q ->
        sturges (Fin q) = Fin (inject_Z (Z.max 5 (Z.min 40 (ceil_log2 q + 1))))
        /\ pow2 (ceil_log2 q - 1) < q <= pow2 (ceil_log2 q))
  /\ (forall n : nat, (1 <= n <= 16)%nat -> sturges (Fin (inject_Z (Z.of_nat n))) = Fin 5)
  /\ (forall n m : nat, (1 <= n <= m)%nat ->
        le (sturges (Fin (inject_Z (Z.of_nat n)))) (sturges (Fin (inject_Z (Z.of_nat m)))) = true).
Proof.
  split; [exact sturges_whole|]. split; [|split; [|split; [|split]]].
  - intros [q| | |]; try reflexivity. discriminate.
  - intros q Hq. cbn [sturges].
    rewrite (proj2 (Qle_bool_iff q 0) Hq). reflexivity.
  - intros q Hq. split; [|apply ceil_log2_spec; exact Hq].
    cbn [sturges].
    assert (Qle_bool q 0 = false) as ->.
    { apply not_true_is_false. rewrite Qle_bool_iff. lra. }
    apply (clamp_whole _ (ceil_log2 q + 1) 5 40); [reflexivity | lia].
  - intros n Hn. rewrite sturges_length. destruct n as [|n]; [lia|].
    f_equal. change 5 with (inject_Z 5). f_equal.
    assert (Z.log2_up (Z.of_nat (S n)) <= 4)%Z; [|lia].
    change 4%Z with (Z.log2_up 16). apply Z.log2_up_le_mono. lia.
  - intros n m Hnm. rewrite !sturges_length.
    destruct n as [|n]; [lia|]. destruct m as [|m]; [lia|].
    cbn [le]. apply Qle_bool_iff. unfold Qle. simpl.
    pose proof (Z.log2_up_le_mono (Z.of_nat (S n)) (Z.of_nat (S m)) ltac:(lia)). lia.
Qed.


Lemma add_one (k : Z) : (- 2 ^ 53 <= k < 2 ^ 53)%Z ->
  add (Fin (inject_Z k)) (Fin 1) = Fin (inject_Z (k + 1)).
Proof.
  intros Hk. cbn [add]. rewrite (round64_comp _ (inject_Z (k + 1))).
  - apply round64_whole. lia.
  - rewrite inject_Z_plus. reflexivity.
Qed.

Lemma press_whole (k : Z) p : (5 <= k <= 60)%Z ->
  press (Fin (inject_Z k)) p
  = Fin (inject_Z match p with
                  | Minus => Z.max 5 (k - 1)
                  | Plus => Z.min 60 (k + 1)
                  end).
Proof.
  intros Hk. destruct p; cbn [press].
  - rewrite sub_one by lia. rewrite (clamp_whole _ (k - 1) 5 60).
    + do 2 f_equal. lia.
    + reflexivity.
    + lia.
  - rewrite add_one by lia. rewrite (clamp_whole _ (k + 1) 5 60).
    + do 2 f_equal. lia.
    + reflexivity.
    + lia.
Qed.

Lemma bins_whole data presses :
  exists k : Z,
    foldl press (initial_bins Undefined data) presses = Fin (inject_Z k)
    /\ (5 <= k <= 60)%Z.
Proof.
  induction presses as [|p presses IH] using rev_ind.
  - cbn [foldl initial_bins nullish].
    destruct (sturges_whole (Fin (inject_Z (Z.of_nat (length data))))) as (k & -> & Hk).
    exists k. split; [reflexivity | lia].
  - destruct IH as (k & Hb & Hk). rewrite foldl_app. cbn [foldl]. rewrite Hb.
    rewrite (press_whole k p Hk). eexists. split; [reflexivity|]. destruct p; lia.
Qed.

(** X15: the bin count of the component when no [bins] prop is given, as
    on the metrics page.  The state starts as [sturges] of the number of
    data points at the first render; after any sequence of presses of the
    two buttons it is a whole number from 5 to 60; the minus button
    lowers it by one but not below 5, the plus button raises it by one
    but not above 60; for the data of any later render [toHistogram] uses
    it unchanged: it throws when the distance of a value from the lower
    end of the domain overflows, and otherwise returns as many rows as
    the state says, or none when no value is finite.  In absolute mode no
    distance overflows when every [abs_err] given is below the overflow
    bound, as every double is. *)
Theorem bins_state (first_data data : list ByPeriodPoint) (presses : list Press) :
  let b := foldl press (initial_bins Undefined first_data) presses in
  exists k : Z,
    b = Fin (inject_Z k) /\ (5 <= k <= 60)%Z
    /\ clamp b (Fin 5) (Fin 60) = b
    /\ press b Minus = Fin (inject_Z (Z.max 5 (k - 1)))
    /\ press b Plus = Fin (inject_Z (Z.min 60 (k + 1)))
    /\ (forall mode,
          (overflows (values data mode) mode = true -> hist data b mode = None)
          /\ (overflows (values data mode) mode = false ->
              exists rows,
                hist data b mode = Some rows
                /\ length rows
                   = match finite_values (values data mode) with
                     | [] => O
                     | _ => Z.to_nat k
                     end))
    /\ ((forall d e, In d data -> abs_err d = Val (Fin e) -> e < overflow_bound) ->
        overflows (values data absolute) absolute = false).
Proof.
  cbv zeta. destruct (bins_whole first_data presses) as (k & Hb & Hk).
  exists k. rewrite Hb.
  assert (Hc : clamp (Fin (inject_Z k)) (Fin 5) (Fin 60) = Fin (inject_Z k)).
  { rewrite (clamp_whole _ k 5 60) by (reflexivity || lia). do 2 f_equal. lia. }
  split; [reflexivity|]. split; [exact Hk|]. split; [exact Hc|].
  split; [apply (press_whole k Minus Hk)|]. split; [apply (press_whole k Plus Hk)|].
  split; [|apply absolute_no_overflow].
  intros mode. unfold hist.
  destruct (finite_values (values data mode)) as [|v vs] eqn:Hclean.
  - assert (overflows (values data mode) mode = false) as ->.
    { unfold overflows, hist_domain. rewrite Hclean. reflexivity. }
    split; [discriminate|]. intros _.
    exists []. unfold toHistogram. rewrite Hclean. split; reflexivity.
  - destruct (domain mode (min_of v vs) (max_of v vs)) as [lo hi] eqn:Hdom. split.
    + intros Hov.
      destruct (overflows_true _ mode v vs lo hi Hclean Hdom Hov) as (x & Hx & Hd & Hbig).
      apply (toHistogram_throws _ _ mode k v vs lo hi x); assumption.
    + intros Hov.
      pose proof (overflows_false _ mode v vs lo hi Hclean Hdom Hov) as Hall.
      destruct (toHistogram_run (values data mode) (Fin (inject_Z k)) mode k v vs lo hi
                  Hc Hk Hclean Hdom Hall) as (rows & Hrun & Hlen & _).
      exists rows. split; [exact Hrun | exact Hlen].
Qed.

(** The state after three presses of the minus button on 21 data points,
    and a render whose residual overflows. *)
Example bins_state_example :
  foldl press (initial_bins Undefined (repeat
      {| ds := "d"; y := Val (Fin 1); yhat := Val (Fin 0);
         lower := Undefined; upper := Undefined; abs_err := Undefined |} 21))
    [Minus; Minus; Minus] = Fin 5
  /\ hist [ {| ds := "d"; y := Val (Number "1e308"); yhat := Val (Fin 0);
              lower := Undefined; upper := Undefined; abs_err := Undefined |} ]
       (Fin 5) residual = None.
Proof. split; vm_compute; reflexivity. Qed.

End HistogramCounts.

(** ** The CSV parser on text without quotes, and the shape of its result *)

Section CsvText.
Import Csv Readings.

Lemma break_lines_cur t : forall cur,
  break_lines t cur
  = match break_lines t [] with
    | l :: ls => (cur ++ l) :: ls
    | [] => []
    end.
Proof.
  induction t as [|c t IH]; intros cur; cbn [break_lines].
  - rewrite app_nil_r. reflexivity.
  - destruct (is_char c CR).
    + destruct t as [|n t']; [rewrite app_nil_r; reflexivity|].
      destruct (is_char n LF); rewrite app_nil_r; reflexivity.
    + destruct (is_char c LF); [rewrite app_nil_r; reflexivity|].
      rewrite (IH (cur ++ [c])), (IH ([] ++ [c])).
      destruct (break_lines t []) as [|l ls]; [reflexivity|].
      rewrite <- app_assoc. reflexivity.
Qed.

Lemma break_lines_nonempty t : forall cur, break_lines t cur <> [].
Proof.
  induction t as [|c t IH]; intros cur; cbn [break_lines]; [discriminate|].
  destruct (is_char c CR).
  - destruct t as [|x t']; [discriminate|]. destruct (is_char x LF); discriminate.
  - destruct (is_char c LF); [discriminate | apply IH].
Qed.

(** The rows that the scanner adds for a text without quotes, from a
    state out of quotes with the cells [row] and the text [cur] of the
    current row. *)
Lemma scan_quote_free d : d <> [LF] -> d <> [CR] ->
  forall n t, (length t <= n)%nat -> quote_free t ->
  forall R row cur,
    pushRow (pushCell (scan d t {| rows := R; row := row; cur := cur; inQuotes := false |}))
    = {| rows := R ++ match break_lines t [] with
                      | l :: ls => (row ++ split_on d l cur) :: List.map (cells d) ls
                      | [] => []
                      end;
         row := []; cur := []; inQuotes := false |}.
Proof.
  intros HdL HdC. induction n as [|n IH]; intros t Hlen Hq R row cur.
  - destruct t; [|cbn in Hlen; lia]. reflexivity.
  - destruct t as [|c rest]; [reflexivity|].
    assert (Hc : c <> quote) by (intros ->; apply Hq; left; reflexivity).
    assert (Hrest : quote_free rest) by (intros H; apply Hq; right; exact H).
    cbn [length] in Hlen.
    cbn [scan break_lines]. rewrite (proj2 (is_char_false c quote) Hc).
    destruct (bool_decide ([c] = d)) eqn:Ed; cbn [inQuotes negb andb].
    + apply bool_decide_eq_true in Ed.
      assert (is_char c CR = false) as ->
        by (apply is_char_false; intros ->; apply HdC; symmetry; exact Ed).
      assert (is_char c LF = false) as ->
        by (apply is_char_false; intros ->; apply HdL; symmetry; exact Ed).
      unfold pushCell at 2. cbn [rows Csv.row Csv.cur inQuotes].
      rewrite (IH rest ltac:(lia) Hrest), (break_lines_cur rest ([] ++ [c])).
      destruct (break_lines rest []) as [|l ls]; [reflexivity|].
      cbn [app split_on]. rewrite (bool_decide_eq_true_2 _ Ed).
      rewrite <- app_assoc. reflexivity.
    + apply bool_decide_eq_false in Ed.
      destruct (is_char c CR) eqn:Ecr.
      * rewrite orb_true_r. cbn [andb].
        destruct rest as [|nx rest'].
        { cbn [scan pushRow pushCell rows Csv.row Csv.cur inQuotes break_lines
                 List.map cells split_on app].
          unfold pushRow, pushCell. cbn [rows Csv.row Csv.cur inQuotes app].
          rewrite <- app_assoc. reflexivity. }
        cbn [andb]. destruct (is_char nx LF) eqn:Elf.
        -- unfold pushRow at 2, pushCell at 2. cbn [rows Csv.row Csv.cur inQuotes].
           assert (Hrest' : quote_free rest') by (intros H; apply Hrest; right; exact H).
           cbn [length] in Hlen.
           rewrite (IH rest' ltac:(lia) Hrest').
           destruct (break_lines rest' []) as [|l ls]; cbn [app split_on List.map];
             rewrite <- app_assoc; reflexivity.
        -- unfold pushRow at 2, pushCell at 2. cbn [rows Csv.row Csv.cur inQuotes].
           rewrite (IH (nx :: rest') ltac:(cbn [length] in *; lia) Hrest).
           destruct (break_lines (nx :: rest') []) as [|l ls]; cbn [app split_on List.map];
             rewrite <- app_assoc; reflexivity.
      * rewrite orb_false_r. destruct (is_char c LF) eqn:Elf; cbn [andb].
        -- assert (forall x, match rest with
                             | nxt :: rest' =>
                                 if false && is_char nxt LF then scan d rest' x else scan d rest x
                             | [] => scan d rest x
                             end = scan d rest x) as -> by (intros x; destruct rest; reflexivity).
           unfold pushRow at 2, pushCell at 2. cbn [rows Csv.row Csv.cur inQuotes].
           rewrite (IH rest ltac:(lia) Hrest).
           destruct (break_lines rest []) as [|l ls]; cbn [app split_on List.map];
             rewrite <- app_assoc; reflexivity.
        -- unfold append. cbn [rows Csv.row Csv.cur inQuotes].
           rewrite (IH rest ltac:(lia) Hrest), (break_lines_cur rest ([] ++ [c])).
           destruct (break_lines rest []) as [|l ls]; [reflexivity|].
           cbn [app split_on]. rewrite (bool_decide_eq_false_2 _ Ed). reflexivity.
Qed.

Lemma break_lines_to_crlf t : ~ In CR t -> forall cur,
  break_lines (to_crlf t) cur = break_lines t cur.
Proof.
  induction t as [|c t IH]; intros Hcr cur; [reflexivity|].
  assert (Hc : c <> CR) by (intros ->; apply Hcr; left; reflexivity).
  assert (Ht : ~ In CR t) by (intros H; apply Hcr; right; exact H).
  cbn [to_crlf flat_map]. fold (to_crlf t).
  destruct (is_char c LF) eqn:E.
  - apply is_char_true in E. subst c.
    cbn [app break_lines]. change (is_char CR CR) with true. change (is_char LF LF) with true.
    change (is_char LF CR) with false. cbn match. rewrite IH by exact Ht. reflexivity.
  - cbn [app break_lines]. rewrite (proj2 (is_char_false c CR) Hc), E.
    apply IH. exact Ht.
Qed.

(** X16: on a text without double quotes [parseCSV], for a delimiter
    that is no line break, is the plain reading of the text: break it
    into lines at every line feed, carriage return, or carriage return
    with line feed; split every line at the delimiter; drop the rows at
    the end whose cells are all empty; the first row is the header.  So a
    text with Windows line ends gives the same table as the text with
    line feeds. *)
Theorem parseCSV_quote_free (t : text) (d : text) :
  quote_free t -> d <> [LF] -> d <> [CR] ->
  parseCSV t d
  = table_of (drop_trailing_empty (List.map (cells d) (break_lines t [])))
  /\ (~ In CR t -> parseCSV (to_crlf t) d = parseCSV t d).
Proof.
  intros Hq HdL HdC.
  assert (F : forall u, quote_free u ->
            parseCSV u d
            = table_of (drop_trailing_empty (List.map (cells d) (break_lines u [])))).
  { intros u Hu. rewrite parseCSV_unfold. unfold start.
    rewrite (scan_quote_free d HdL HdC (length u) u (Nat.le_refl _) Hu).
    cbn [rows app].
    pose proof (break_lines_nonempty u []) as Hne.
    destruct (break_lines u []) as [|l ls]; [congruence|]. reflexivity. }
  split; [apply F; exact Hq|].
  intros Hcr. rewrite !F.
  - rewrite break_lines_to_crlf by exact Hcr. reflexivity.
  - exact Hq.
  - unfold quote_free, to_crlf. rewrite in_flat_map. intros (c & Hc & Hin).
    destruct (is_char c LF); cbn in Hin.
    + destruct Hin as [H | [H | []]]; discriminate.
    + destruct Hin as [-> | []]. apply Hq. exact Hc.
Qed.

Lemma parseCSV_quote_free_witness :
  parseCSV (txt "a;b" ++ [CR; LF] ++ txt "1;2" ++ [CR] ++ txt "3;" ++ [LF; LF]) (txt ";")
  = {| headers := [txt "a"; txt "b"];
       data := [[txt "1"; txt "2"]; [txt "3"; []]] |}.
Proof.
  rewrite (proj1 (parseCSV_quote_free
             (txt "a;b" ++ [CR; LF] ++ txt "1;2" ++ [CR] ++ txt "3;" ++ [LF; LF]) (txt ";")
             ltac:(intros H; cbn in H; repeat (destruct H as [H | H]; [discriminate|]); exact H)
             ltac:(discriminate) ltac:(discriminate))).
  reflexivity.
Defined.

(** *** The shape of every result *)

Lemma scan_rows_nonempty d : forall n t, (length t <= n)%nat ->
  forall st, Forall (fun r => r <> []) (rows st) ->
  Forall (fun r => r <> []) (rows (scan d t st)).
Proof.
  assert (P : forall st, Forall (fun r => r <> []) (rows st) ->
                Forall (fun r => r <> []) (rows (pushRow (pushCell st)))).
  { intros st H. unfold pushRow, pushCell. cbn [rows Csv.row].
    apply Forall_app. split; [exact H|]. constructor; [|constructor].
    destruct (Csv.row st); discriminate. }
  induction n as [|n IH]; intros t Hlen st Hst.
  - destruct t; [exact Hst | cbn in Hlen; lia].
  - destruct t as [|c rest]; [exact Hst|]. cbn [length] in Hlen. cbn [scan].
    destruct (is_char c quote).
    + destruct rest as [|nx rest']; [exact Hst|].
      destruct (inQuotes st && is_char nx quote).
      * apply IH; [cbn [length] in Hlen; lia | exact Hst].
      * apply IH; [lia | exact Hst].
    + destruct (bool_decide ([c] = d) && negb (inQuotes st)).
      * apply IH; [lia | exact Hst].
      * destruct ((is_char c LF || is_char c CR) && negb (inQuotes st)).
        -- destruct rest as [|nx rest']; [apply P; exact Hst|].
           destruct (is_char c CR && is_char nx LF).
           ++ apply IH; [cbn [length] in Hlen; lia | apply P; exact Hst].
           ++ apply IH; [lia | apply P; exact Hst].
        -- apply IH; [lia | exact Hst].
Qed.

Lemma pop_empty_spec rs :
  (exists dropped, rs = dropped ++ pop_empty rs)
  /\ match pop_empty rs with
     | r :: _ => all_empty r = false
     | [] => True
     end.
Proof.
  induction rs as [|r rs [(dropped & IH1) IH2]]; cbn [pop_empty].
  - split; [exists []; reflexivity | exact I].
  - destruct (all_empty r) eqn:E.
    + split; [|exact IH2]. exists (r :: dropped). cbn [app]. f_equal. exact IH1.
    + split; [exists []; reflexivity | exact E].
Qed.

(** X17: the shape of every result of [parseCSV], for every text and
    delimiter.  Either there is no header and no row, or the header and
    every row have at least one cell and the last row of the table has a
    cell that is not empty: rows of empty cells at the end never come
    back. *)
Theorem parseCSV_shape (t : text) (d : text) :
  parseCSV t d = no_result
  \/ (headers (parseCSV t d) <> []
      /\ Forall (fun r => r <> []) (data (parseCSV t d))
      /\ exists r, last (headers (parseCSV t d) :: data (parseCSV t d)) = Some r
                   /\ all_empty r = false).
Proof.
  rewrite parseCSV_unfold.
  set (st := pushRow (pushCell (scan d t start))).
  assert (Hne : Forall (fun r => r <> []) (rows st)).
  { unfold st, pushRow, pushCell. cbn [rows Csv.row].
    apply Forall_app. split.
    - apply (scan_rows_nonempty d (length t) t (Nat.le_refl _)). constructor.
    - constructor; [|constructor]. destruct (Csv.row (scan d t start)); discriminate. }
  unfold drop_trailing_empty.
  destruct (pop_empty_spec (rev (rows st))) as [(dropped & Hd) Hlast].
  assert (Hkept : Forall (fun r => r <> []) (rev (pop_empty (rev (rows st))))).
  { apply Forall_forall. intros r Hr. apply list_elem_of_In, in_rev in Hr.
    rewrite Forall_forall in Hne. apply Hne. apply list_elem_of_In, in_rev.
    rewrite Hd. apply in_or_app. right. exact Hr. }
  destruct (pop_empty (rev (rows st))) as [|r0 kept] eqn:Ep.
  - left. reflexivity.
  - right. cbn [rev] in *.
    destruct (rev kept ++ [r0]) as [|h rest] eqn:Er.
    { destruct (rev kept); discriminate. }
    cbn [headers data]. apply Forall_cons in Hkept as [Hh Hrest].
    split; [exact Hh|]. split; [exact Hrest|].
    exists r0. split; [|exact Hlast].
    rewrite <- Er. apply last_snoc.
Qed.

End CsvText.

(** ** The CSV codec under another delimiter *)

Section CsvDelimiters.
Import Csv Readings.

Variable dc : ascii.
Hypothesis dc_quote : dc <> quote.
Hypothesis dc_LF : dc <> LF.

Lemma scan_break t R row cur :
  scan [dc] (LF :: t) {| rows := R; row := row; cur := cur; inQuotes := false |}
  = scan [dc] t {| rows := R ++ [row ++ [cur]]; row := []; cur := []; inQuotes := false |}.
Proof.
  cbn [scan]. change (is_char LF quote) with false. cbn match.
  rewrite bool_decide_eq_false_2 by (intros [= E]; apply dc_LF; symmetry; exact E).
  change (is_char LF LF) with true. change (is_char LF CR) with false.
  cbn [inQuotes negb andb orb]. destruct t; reflexivity.
Qed.

Lemma scan_delimiter t R row cur :
  scan [dc] (dc :: t) {| rows := R; row := row; cur := cur; inQuotes := false |}
  = scan [dc] t {| rows := R; row := row ++ [cur]; cur := []; inQuotes := false |}.
Proof.
  cbn [scan]. rewrite (proj2 (is_char_false dc quote) dc_quote).
  rewrite bool_decide_eq_true_2 by reflexivity. reflexivity.
Qed.

Lemma reads_plain k : plain_for dc k = true -> reads_as dc k k.
Proof.
  intros Hk t R row cur _. apply scan_plain. intros c Hc.
  unfold plain_for in Hk. rewrite forallb_forall in Hk. specialize (Hk c Hc).
  apply negb_true_iff in Hk.
  apply orb_false_iff in Hk as [Hk H4]. apply orb_false_iff in Hk as [Hk H3].
  apply orb_false_iff in Hk as [H1 H2]. rewrite !is_char_false in *.
  repeat split; auto. intros [= ->]. apply H2. reflexivity.
Qed.

Lemma reads_esc v : safe_for dc v = true ->
  reads_as dc (esc v) match v with Val s => s | _ => [] end.
Proof.
  intros Hv t R row cur Ht. destruct v as [| |s]; cbn [esc].
  1,2: rewrite app_nil_r; reflexivity.
  destruct (needs_quotes s) eqn:E.
  - change ((quote :: double_quotes s ++ [quote]) ++ t)
      with (quote :: ((double_quotes s ++ [quote]) ++ t)).
    rewrite <- app_assoc. change ([quote] ++ t) with (quote :: t).
    cbn [scan]. rewrite is_char_refl.
    assert (Hnext : forall l,
              scan [dc] l (toggle {| rows := R; row := row; cur := cur; inQuotes := false |})
              = scan [dc] l {| rows := R; row := row; cur := cur; inQuotes := true |})
      by reflexivity.
    destruct (double_quotes s ++ quote :: t) as [|n l] eqn:El.
    { destruct (double_quotes s); discriminate. }
    cbn [inQuotes andb]. rewrite Hnext, <- El. apply scan_quoted_body. exact Ht.
  - apply scan_plain. intros c Hc.
    destruct (needs_quotes_false s E c Hc) as (H1 & _ & H3).
    cbn [safe_for] in Hv. rewrite E, orb_false_r in Hv. apply negb_true_iff in Hv.
    assert (is_char c CR || is_char c dc = false) as Hcd.
    { destruct (is_char c CR || is_char c dc) eqn:Ec; [|reflexivity].
      rewrite <- Hv. symmetry. apply existsb_exists. exists c. split; assumption. }
    apply orb_false_iff in Hcd as [Hcr Hdc]. rewrite !is_char_false in *.
    repeat split; auto. intros [= ->]. apply Hdc. reflexivity.
Qed.

(** A line of fields in front of a line feed becomes one more row. *)
Lemma scan_fields_break fields : fields <> [] ->
  Forall (fun f => reads_as dc (fst f) (snd f)) fields ->
  forall t R row,
    scan [dc] (join [dc] (List.map fst fields) ++ LF :: t)
      {| rows := R; row := row; cur := []; inQuotes := false |}
    = scan [dc] t
        {| rows := R ++ [row ++ List.map snd fields]; row := []; cur := [];
           inQuotes := false |}.
Proof.
  induction fields as [|[e v] rest IH]; intros Hne Hok t R row; [congruence|].
  apply Forall_cons in Hok as [Hf Hok].
  destruct rest as [|f2 rest'].
  - cbn [List.map join fst snd]. rewrite (Hf (LF :: t)) by discriminate.
    rewrite scan_break. reflexivity.
  - change (join [dc] (List.map fst ((e, v) :: f2 :: rest')))
      with (e ++ [dc] ++ join [dc] (List.map fst (f2 :: rest'))).
    rewrite <- !app_assoc. change ([dc] ++ ?l) with (dc :: l).
    rewrite (Hf (dc :: _)) by exact dc_quote.
    rewrite scan_delimiter, IH by (congruence || assumption).
    cbn [List.map snd app]. rewrite <- app_assoc. reflexivity.
Qed.

(** The last line of a text, followed by the final [pushCell]. *)
Lemma scan_fields_end fields : fields <> [] ->
  Forall (fun f => reads_as dc (fst f) (snd f)) fields ->
  forall R row,
    pushCell (scan [dc] (join [dc] (List.map fst fields))
                {| rows := R; row := row; cur := []; inQuotes := false |})
    = {| rows := R; row := row ++ List.map snd fields; cur := []; inQuotes := false |}.
Proof.
  induction fields as [|[e v] rest IH]; intros Hne Hok R row; [congruence|].
  apply Forall_cons in Hok as [Hf Hok].
  destruct rest as [|f2 rest'].
  - cbn [List.map join fst snd]. rewrite <- (app_nil_r e), (Hf []) by exact I.
    reflexivity.
  - change (join [dc] (List.map fst ((e, v) :: f2 :: rest')))
      with (e ++ [dc] ++ join [dc] (List.map fst (f2 :: rest'))).
    change ([dc] ++ ?l) with (dc :: l).
    rewrite (Hf (dc :: _)) by exact dc_quote.
    rewrite scan_delimiter, IH by (congruence || assumption).
    cbn [List.map snd app]. rewrite <- app_assoc. reflexivity.
Qed.

(** A text of lines, followed by the final [pushCell] and [pushRow]. *)
Lemma scan_all_fields lines : lines <> [] ->
  Forall (fun fields => fields <> []
            /\ Forall (fun f => reads_as dc (fst f) (snd f)) fields) lines ->
  forall R,
    pushRow (pushCell (scan [dc]
                         (join [LF] (List.map (fun fs => join [dc] (List.map fst fs)) lines))
                         {| rows := R; row := []; cur := []; inQuotes := false |}))
    = {| rows := R ++ List.map (List.map snd) lines; row := []; cur := [];
         inQuotes := false |}.
Proof.
  induction lines as [|l rest IH]; intros Hne Hok R; [congruence|].
  apply Forall_cons in Hok as [[Hl Hf] Hok].
  destruct rest as [|l2 rest'].
  - cbn [List.map join]. rewrite scan_fields_end by assumption. reflexivity.
  - change (join [LF] (List.map ?g (l :: l2 :: rest')))
      with (g l ++ [LF] ++ join [LF] (List.map g (l2 :: rest'))).
    change ([LF] ++ ?x) with (LF :: x). cbv beta.
    rewrite scan_fields_break by assumption.
    rewrite IH by (congruence || assumption).
    cbn [List.map app]. rewrite <- app_assoc. reflexivity.
Qed.

Lemma toCSV_fields r0 rs :
  toCSV (r0 :: rs) [dc]
  = join [LF] (List.map (fun fs => join [dc] (List.map fst fs))
      (header_fields (collect_headers (r0 :: rs))
       :: List.map (record_fields (collect_headers (r0 :: rs))) (r0 :: rs))).
Proof.
  unfold toCSV. set (hs := collect_headers (r0 :: rs)).
  f_equal. cbn [List.map]. f_equal.
  - unfold header_fields. rewrite List.map_map. cbn [fst].
    rewrite List.map_id. reflexivity.
  - f_equal.
    + unfold line_of, record_fields. rewrite List.map_map. reflexivity.
    + rewrite List.map_map. apply map_ext. intros r.
      unfold line_of, record_fields. rewrite List.map_map. reflexivity.
Qed.

Lemma well_formed_for_key rs r k v :
  well_formed_for dc rs = true -> In r rs -> In (k, v) r -> plain_for dc k = true.
Proof.
  unfold well_formed_for. rewrite forallb_forall. intros H Hr Hkv.
  specialize (H r Hr). rewrite forallb_forall in H. specialize (H (k, v) Hkv).
  apply andb_true_iff in H as [H _]. exact H.
Qed.

Lemma well_formed_for_value rs r k v :
  well_formed_for dc rs = true -> In r rs -> In (k, v) r -> safe_for dc v = true.
Proof.
  unfold well_formed_for. rewrite forallb_forall. intros H Hr Hkv.
  specialize (H r Hr). rewrite forallb_forall in H. specialize (H (k, v) Hkv).
  apply andb_true_iff in H as [_ H]. exact H.
Qed.

Lemma get_safe (r : record) h :
  (forall k v, In (k, v) r -> safe_for dc v = true) ->
  safe_for dc (inherited h) = true ->
  safe_for dc (get r h) = true.
Proof.
  induction r as [|[k x] r IH]; intros H Hinh; cbn [get]; [exact Hinh|].
  destruct (decide (k = h)) as [-> | Hne].
  - apply (H h x). left. reflexivity.
  - apply IH; [|exact Hinh]. intros k' v' Hin. apply (H k' v'). right. exact Hin.
Qed.

(** What the parser reads of a serialized list of records whose keys
    and cells the scanner reads back. *)
Lemma parse_written (rs : list record) :
  collect_headers rs <> [] ->
  (forall k, In k (collect_headers rs) -> reads_as dc k k) ->
  (forall r k, In r rs -> In k (collect_headers rs) ->
     reads_as dc (esc (get r k)) (cell_text r k)) ->
  parseCSV (toCSV rs [dc]) [dc]
  = table_of (drop_trailing_empty
                (collect_headers rs
                 :: List.map (fun r => List.map (cell_text r) (collect_headers rs)) rs)).
Proof.
  intros Hne Hkeys Hcells.
  destruct rs as [|r0 rs']; [cbn in Hne; congruence|].
  set (rs := r0 :: rs') in *. set (hs := collect_headers rs) in *.
  rewrite parseCSV_unfold. unfold rs at 1. rewrite toCSV_fields. fold rs hs.
  unfold start. rewrite scan_all_fields.
  - cbn [rows app List.map].
    assert (Hh_cells : List.map snd (header_fields hs) = hs).
    { unfold header_fields. rewrite List.map_map. apply List.map_id. }
    assert (Hr_cells : forall r, List.map snd (record_fields hs r) = List.map (cell_text r) hs).
    { intros r. unfold record_fields. rewrite List.map_map. reflexivity. }
    rewrite Hh_cells, List.map_map, (map_ext _ _ Hr_cells).
    destruct (drop_trailing_empty _); reflexivity.
  - discriminate.
  - apply Forall_cons. split.
    + split; [destruct hs; [congruence | discriminate]|].
      apply Forall_forall. intros f Hf. apply list_elem_of_In in Hf.
      unfold header_fields in Hf. apply in_map_iff in Hf as (k & <- & Hk).
      apply Hkeys. exact Hk.
    + apply Forall_forall. intros fields Hf. apply list_elem_of_In in Hf.
      apply in_map_iff in Hf as (r & <- & Hr). split.
      * unfold record_fields. destruct hs; [congruence | discriminate].
      * apply Forall_forall. intros f Hf. apply list_elem_of_In in Hf.
        unfold record_fields in Hf. apply in_map_iff in Hf as (k & <- & Hk).
        apply Hcells; assumption.
Qed.

(** A table whose last row has a cell that is not empty loses no row. *)
Lemma table_kept (hs : list text) (body : list (list text)) last_row :
  last (hs :: body) = Some last_row -> all_empty last_row = false ->
  table_of (drop_trailing_empty (hs :: body)) = {| headers := hs; data := body |}.
Proof.
  intros Hl He. apply last_Some in Hl as [init Hinit].
  rewrite Hinit, drop_trailing_empty_keep by exact He. rewrite <- Hinit. reflexivity.
Qed.

(** X18: the round trip under every one-character delimiter other than
    the double quote and the line feed.  When no key
    holds a double quote, the delimiter, a line feed or a carriage
    return, when a value holds the delimiter or a carriage return only
    together with a comma, a double quote or a line feed (so that [esc]
    wraps it), when no key names a member of [Object.prototype] whose
    text holds the delimiter, and when the last record has a cell that is
    not empty, [parseCSV(toCSV(rows, d), d)] returns the keys in
    first-seen order as headers and, record by record, the text of
    [r[h]] for every header [h]: the text of the value of an own key;
    for a key that the record lacks the empty text, unless the key names
    a member of [Object.prototype], whose text is written then. *)
Theorem parseCSV_toCSV_round_trip_delimiter (rs : list record) :
  well_formed_for dc rs = true ->
  inherited_safe_for dc rs = true ->
  last_has_text rs = true ->
  parseCSV (toCSV rs [dc]) [dc]
  = {| headers := first_seen (all_keys rs);
       data := List.map (fun r => List.map (cell_text r) (first_seen (all_keys rs))) rs |}
  /\ forall r h,
       cell_text r h
       = text_of match own_value r h with Some v => v | None => inherited h end.
Proof.
  intros Hwf Hinh Hlast. split; [|intros r h; unfold cell_text; rewrite get_own; reflexivity].
  rewrite <- collect_headers_first_seen. set (hs := collect_headers rs).
  unfold last_has_text in Hlast.
  destruct (last rs) as [rl|] eqn:Hl; [|discriminate].
  apply existsb_exists in Hlast as (h & Hh & Htext).
  apply negb_true_iff, bool_decide_eq_false in Htext.
  assert (Hhs : In h hs).
  { unfold hs. rewrite collect_headers_first_seen. apply first_seen_In. exact Hh. }
  rewrite parse_written.
  - fold hs. apply (table_kept _ _ (List.map (cell_text rl) hs)).
    + destruct rs as [|r0 rs']; [discriminate|].
      change (hs :: List.map ?g (r0 :: rs')) with ([hs] ++ List.map g (r0 :: rs')).
      apply last_Some in Hl as [init Hinit]. rewrite Hinit, List.map_app, app_assoc.
      apply last_snoc.
    + unfold all_empty. apply not_true_is_false. rewrite forallb_forall. intros Hall.
      specialize (Hall (cell_text rl h) (in_map _ _ _ Hhs)).
      apply bool_decide_eq_true in Hall. contradiction.
  - fold hs. destruct hs; [destruct Hhs | discriminate].
  - fold hs. intros k Hk. unfold hs in Hk. rewrite collect_headers_first_seen in Hk.
    apply first_seen_In, all_keys_In in Hk as (r & v & Hr & Hkv).
    apply reads_plain. eapply well_formed_for_key; eassumption.
  - intros r k Hr Hk. unfold cell_text. apply reads_esc. apply get_safe.
    + intros k' v' Hin. eapply well_formed_for_value; eassumption.
    + unfold inherited_safe_for in Hinh. rewrite forallb_forall in Hinh.
      apply Hinh. rewrite collect_headers_first_seen in Hk.
      apply first_seen_In. exact Hk.
Qed.

End CsvDelimiters.

Lemma parseCSV_toCSV_round_trip_delimiter_witness :
  Csv.parseCSV
    (Csv.toCSV [[(Csv.txt "k,1", Val (Csv.txt "a,b;c")); (Csv.txt "n", Val (Csv.txt "7"))];
                [(Csv.txt "n", Val (Csv.txt "8"))]] (Csv.txt ";")) (Csv.txt ";")
  = {| Csv.headers := [Csv.txt "k,1"; Csv.txt "n"];
       Csv.data := [[Csv.txt "a,b;c"; Csv.txt "7"]; [[]; Csv.txt "8"]] |}.
Proof.
  apply (parseCSV_toCSV_round_trip_delimiter ";"%char); try discriminate; reflexivity.
Defined.

(** The condition on the inherited members is needed: with a space as
    the delimiter the text of the inherited [constructor], written for
    the record that lacks this key, is split into six cells. *)
Example parseCSV_toCSV_inherited_split :
  Csv.parseCSV
    (Csv.toCSV [[(Csv.txt "constructor", Val (Csv.txt "x"))];
                [(Csv.txt "a", Val (Csv.txt "y"))]] (Csv.txt " ")) (Csv.txt " ")
  = {| Csv.headers := [Csv.txt "constructor"; Csv.txt "a"];
       Csv.data := [[Csv.txt "x"; []];
                    [Csv.txt "function"; Csv.txt "Object()"; Csv.txt "{";
                     Csv.txt "[native"; Csv.txt "code]"; Csv.txt "}"; Csv.txt "y"]] |}.
Proof. vm_compute. reflexivity. Qed.

(** ** The import of a text without rows *)

Section ImportEdge.
Import Csv GridState Readings.

Lemma trim_start_In c s : In c (trim_start s) -> In c s.
Proof.
  induction s as [|a s IH]; cbn [trim_start]; [intros []|].
  destruct (is_ws a); [intros H; right; apply IH; exact H | intros H; exact H].
Qed.

Lemma trim_In c s : In c (trim s) -> In c s.
Proof.
  unfold trim. intros H.
  apply in_rev, trim_start_In, in_rev, trim_start_In in H. exact H.
Qed.

Lemma align_header_only t cols h :
  (forall c, In c t -> c <> quote /\ c <> LF /\ c <> CR) ->
  align (parseCSV t [comma]) cols h = None.
Proof.
  intros Ht. rewrite parseCSV_unfold. unfold start.
  rewrite scan_single_line by exact Ht. cbn [pushRow rows row app].
  rewrite drop_trailing_empty_single.
  destruct (all_empty (split_on [comma] t [])); [reflexivity|].
  unfold align. cbn [headers data]. destruct (split_on [comma] t []); reflexivity.
Qed.

(** X19: a text of one line is never imported.  When the text has no
    line break (and no double quote), whatever its cells, [onImportCSV]
    and [doPaste] return without emitting a grid: a header alone, or
    values alone, change nothing. *)
Theorem import_needs_rows (t : text) (cols : list string) (horizon : nat) :
  (forall c, In c t -> c <> quote /\ c <> LF /\ c <> CR) ->
  onImportCSV t cols horizon = None /\ doPaste t cols horizon = None.
Proof.
  intros Ht. unfold onImportCSV, doPaste. split.
  - apply align_header_only. exact Ht.
  - apply align_header_only. intros c Hc. apply Ht. apply trim_In. exact Hc.
Qed.

Lemma import_needs_rows_witness :
  onImportCSV (txt "ADR,Month") ["ADR"%string; "Month"%string] 3 = None
  /\ doPaste (txt " 1,2 ") ["ADR"%string] 3 = None.
Proof.
  split.
  - apply (import_needs_rows (txt "ADR,Month")).
    intros c H. cbn in H.
    repeat (destruct H as [<- | H]; [repeat split; discriminate|]). destruct H.
  - apply (import_needs_rows (txt " 1,2 ")).
    intros c H. cbn in H.
    repeat (destruct H as [<- | H]; [repeat split; discriminate|]). destruct H.
Defined.

End ImportEdge.

(** ** The message of an error *)

Section ErrorMessage.
Import Json Errors.

Variable number_text : Q -> string.
Hypothesis number_text_nonempty : forall q, number_text q <> EmptyString.

Lemma stringify_nonempty t : t <> TUndefined ->
  exists s, stringify number_text t = Some s /\ s <> EmptyString.
Proof.
  intros Ht. destruct t as [| |[|]|[q| | |]|s|items|fields]; try congruence;
    cbn [stringify]; eexists; (split; [reflexivity|]); try discriminate.
  apply number_text_nonempty.
Qed.

(** X20: [getErrorMessage] never answers with an empty text when the
    fallback is not empty.  It returns the fallback for a falsy value and
    for an error without message, a thrown text and the message of an
    error as they are, and the JSON text of any other value; on the
    values of the model it always returns a text. *)
Theorem getErrorMessage_never_empty (err : Thrown) (fallback : string) :
  exists s,
    getErrorMessage number_text err fallback = Some s
    /\ (fallback <> EmptyString -> s <> EmptyString)
    /\ match err with
       | ThrownError message => s = match message with EmptyString => fallback | _ => message end
       | ThrownValue v =>
           if falsy v then s = fallback
           else match v with
                | JString x => s = x
                | _ => stringify number_text (as_tree v) = Some s
                end
       end.
Proof.
  destruct err as [v | message]; cbn [getErrorMessage].
  - destruct (falsy v) eqn:Ef.
    + exists fallback. repeat split. intros H; exact H.
    + destruct v as [| |b|n|x|ref items|ref fields]; try discriminate.
      * destruct (stringify_nonempty (as_tree (JBool b)) ltac:(discriminate)) as (s & Hs & Hne).
        exists s. repeat split; [exact Hs | intros _; exact Hne | exact Hs].
      * destruct (stringify_nonempty (as_tree (JNumber n)) ltac:(discriminate)) as (s & Hs & Hne).
        exists s. repeat split; [exact Hs | intros _; exact Hne | exact Hs].
      * exists x. repeat split. intros _ ->. discriminate.
      * destruct (stringify_nonempty (as_tree (JArray ref items)) ltac:(discriminate))
          as (s & Hs & Hne).
        exists s. repeat split; [exact Hs | intros _; exact Hne | exact Hs].
      * destruct (stringify_nonempty (as_tree (JObject ref fields)) ltac:(discriminate))
          as (s & Hs & Hne).
        exists s. repeat split; [exact Hs | intros _; exact Hne | exact Hs].
  - eexists. split; [reflexivity|]. split; [|reflexivity].
    destruct message; [intros H; exact H | intros _; discriminate].
Qed.

End ErrorMessage.

Lemma whole_number_text_nonempty q : whole_number_text q <> EmptyString.
Proof.
  unfold whole_number_text.
  destruct (Z.to_int (Qfloor q)) as [d | d]; cbn; [|discriminate].
  destruct d; discriminate.
Qed.

Lemma getErrorMessage_never_empty_witness :
  exists s,
    Errors.getErrorMessage whole_number_text
      (Errors.ThrownValue (JObject 1 [("code"%string, JNumber (Fin 503))]))
      Errors.default_fallback = Some s
    /\ s <> EmptyString.
Proof.
  destruct (getErrorMessage_never_empty whole_number_text whole_number_text_nonempty
              (Errors.ThrownValue (JObject 1 [("code"%string, JNumber (Fin 503))]))
              Errors.default_fallback) as (s & Hs & Hne & _).
  exists s. split; [exact Hs | apply Hne; discriminate].
Defined.

(** ** The export of forecast points *)

Section ExportCsv.
Import Csv Forecast ForecastExport Readings.

Variable number_text : Q -> string.
Hypothesis number_text_plain : forall q, plainb (txt (number_text q)) = true.
Hypothesis number_text_nonempty : forall q, number_text q <> EmptyString.

Lemma export_headers ps : ps <> [] ->
  collect_headers (List.map (export_row number_text) ps) = export_keys.
Proof.
  intros Hne. unfold collect_headers.
  assert (K : forall l, foldl (fun hs (r : record) => foldl add_key hs (List.map fst r))
                          export_keys (List.map (export_row number_text) l) = export_keys).
  { induction l as [|p l IH]; [reflexivity|]. cbn [List.map foldl]. exact IH. }
  destruct ps as [|p ps]; [congruence|]. cbn [List.map foldl]. apply K.
Qed.

Lemma comma_marks : comma <> quote.
Proof. intros E. vm_compute in E. discriminate. Qed.

Lemma comma_marks_LF : comma <> LF.
Proof. intros E. vm_compute in E. discriminate. Qed.

Lemma String_of_number_plain n : plainb (String_of_number number_text n) = true.
Proof. destruct n; [apply number_text_plain | reflexivity..]. Qed.

Lemma plainb_safe s : plainb s = true -> safe_for comma (Val s) = true.
Proof.
  intros H. cbn [safe_for]. apply orb_true_iff. left. apply negb_true_iff.
  apply not_true_is_false. rewrite existsb_exists. intros (c & Hc & Hx).
  destruct (plainb_plain s H c Hc) as (_ & H2 & _ & H4).
  apply orb_true_iff in Hx as [Hx | Hx]; apply is_char_true in Hx; contradiction.
Qed.

Lemma safe_value_safe s : safe_value (Val s) = true -> safe_for comma (Val s) = true.
Proof.
  cbn [safe_value safe_for]. intros H.
  destruct (needs_quotes s) eqn:E; [apply orb_true_r|].
  rewrite orb_false_r in *. apply negb_true_iff in H. apply negb_true_iff.
  apply not_true_is_false. rewrite existsb_exists. intros (c & Hc & Hx).
  apply orb_true_iff in Hx as [Hx | Hx].
  - assert (existsb (fun c => is_char c CR) s = true); [|congruence].
    apply existsb_exists. exists c. split; assumption.
  - apply is_char_true in Hx. subst c.
    destruct (needs_quotes_false s E comma Hc) as (_ & H2 & _). congruence.
Qed.

(** X21: the export of forecast points.  Without points nothing is
    offered for download.  With points the text [forecast.csv] is
    offered, and [parseCSV] reads it back as the table of the points: the
    header [ds, yhat, yhat_lower, yhat_upper] and, point by point, the
    date, the text of [yhat] and the texts of the bounds, empty for a
    bound that is [undefined].  This holds when no date has a carriage
    return outside a quoted cell and the text of a number has none of
    the characters that matter to the codec. *)
Theorem exportForecastCSV_reads_back (points : opt (list ForecastPoint)) (name : string) :
  (nullish points [] = [] -> exportForecastCSV number_text points name = None)
  /\ (nullish points [] <> [] ->
      Forall (fun p => safe_value (Val (txt (ds p))) = true) (nullish points []) ->
      exists csv,
        exportForecastCSV number_text points name
        = Some {| filename := name; content := csv; mime := "text/csv" |}
        /\ parseCSV csv [comma]
           = {| headers := export_keys;
                data := List.map (fun p => [txt (ds p);
                                            String_of_number number_text (yhat p);
                                            String_of_bound number_text (yhat_lower p);
                                            String_of_bound number_text (yhat_upper p)])
                          (nullish points []) |}).
Proof.
  unfold exportForecastCSV. cbv zeta. set (ps := nullish points []). split.
  - intros ->. reflexivity.
  - intros Hne Hds. pose proof (export_headers ps Hne) as Hhs.
    exists (toCSV (List.map (export_row number_text) ps) [comma]). split.
    + destruct ps as [|p ps']; [congruence|].
      unfold toCSV. cbn [List.map]. change (export_row number_text p :: ?l)
        with (List.map (export_row number_text) (p :: ps')) at 1.
      rewrite Hhs. cbn [export_keys join List.map app txt list_ascii_of_string].
      destruct (List.map _ _); reflexivity.
    + rewrite (parse_written comma comma_marks comma_marks_LF).
      * rewrite Hhs, List.map_map.
        assert (Hcells : forall p, List.map (cell_text (export_row number_text p)) export_keys
                  = [txt (ds p); String_of_number number_text (yhat p);
                     String_of_bound number_text (yhat_lower p);
                     String_of_bound number_text (yhat_upper p)]) by reflexivity.
        rewrite (map_ext _ _ Hcells).
        destruct (exists_last Hne) as (init & pl & Hl).
        apply (table_kept _ _ [txt (ds pl); String_of_number number_text (yhat pl);
                               String_of_bound number_text (yhat_lower pl);
                               String_of_bound number_text (yhat_upper pl)]).
        -- change (export_keys :: List.map ?g ps) with ([export_keys] ++ List.map g ps).
           rewrite Hl, List.map_app, app_assoc. apply last_snoc.
        -- cbn [all_empty forallb]. apply andb_false_iff. right. apply andb_false_iff. left.
           apply bool_decide_eq_false. unfold String_of_number.
           destruct (yhat pl) as [q| | |]; try discriminate.
           pose proof (number_text_nonempty q) as Hq.
           unfold txt. destruct (number_text q); [congruence | discriminate].
      * rewrite Hhs. discriminate.
      * rewrite Hhs. intros k Hk. apply (reads_plain comma).
        cbn in Hk. repeat (destruct Hk as [<- | Hk]; [reflexivity|]). destruct Hk.
      * rewrite Hhs. intros r k Hr Hk. apply in_map_iff in Hr as (p & <- & Hp).
        apply (reads_esc comma).
        cbn in Hk.
        destruct Hk as [<- | [<- | [<- | [<- | []]]]]; cbn [export_row get].
        -- apply safe_value_safe. rewrite Forall_forall in Hds.
           apply Hds. apply list_elem_of_In. exact Hp.
        -- apply plainb_safe, String_of_number_plain.
        -- apply plainb_safe. destruct (yhat_lower p); [apply String_of_number_plain | reflexivity].
        -- apply plainb_safe. destruct (yhat_upper p); [apply String_of_number_plain | reflexivity].
Qed.

End ExportCsv.

Lemma decimal_digits_plain d :
  plainb (Csv.txt (DecimalString.NilEmpty.string_of_uint d)) = true.
Proof. induction d; cbn; [reflexivity | exact IHd ..]. Qed.

Lemma decimal_text_plain d :
  plainb (Csv.txt (DecimalString.NilZero.string_of_uint d)) = true.
Proof.
  unfold DecimalString.NilZero.string_of_uint.
  destruct d; try reflexivity; apply decimal_digits_plain.
Qed.

Lemma whole_number_text_plain q : plainb (Csv.txt (whole_number_text q)) = true.
Proof.
  unfold whole_number_text, DecimalString.NilZero.string_of_int.
  destruct (Z.to_int (Qfloor q)) as [d | d].
  - apply decimal_text_plain.
  - change (plainb (Csv.txt (String "-" (DecimalString.NilZero.string_of_uint d))))
      with (plainb (Csv.txt (DecimalString.NilZero.string_of_uint d))).
    apply decimal_text_plain.
Qed.

Lemma exportForecastCSV_reads_back_witness :
  exists csv,
    ForecastExport.exportForecastCSV whole_number_text
      (Val [ {| Forecast.ds := "2024-01-01"; Forecast.yhat := Fin 12;
                Forecast.yhat_lower := Some (Fin 10); Forecast.yhat_upper := None |} ])
      ForecastExport.default_filename
    = Some {| ForecastExport.filename := "forecast.csv"; ForecastExport.content := csv;
              ForecastExport.mime := "text/csv" |}
    /\ Csv.parseCSV csv [Csv.comma]
       = {| Csv.headers := Readings.export_keys;
            Csv.data := [[Csv.txt "2024-01-01"; Csv.txt "12"; Csv.txt "10"; []]] |}.
Proof.
  destruct (exportForecastCSV_reads_back whole_number_text
              whole_number_text_plain whole_number_text_nonempty
              (Val [ {| Forecast.ds := "2024-01-01"; Forecast.yhat := Fin 12;
                        Forecast.yhat_lower := Some (Fin 10); Forecast.yhat_upper := None |} ])
              ForecastExport.default_filename) as [_ H].
  destruct H as (csv & Hd & Hp).
  - discriminate.
  - repeat constructor.
  - exists csv. split; [exact Hd | exact Hp].
Defined.

(** ** Numerals *)

Section Numerals.
Import ManualExogGrid Readings.

Ltac digit_value :=
  match goal with
  | |- context [digit_of 10 ?c] =>
      let v := eval vm_compute in (digit_of 10 c) in
      change (digit_of 10 c) with v
  end.

Lemma of_uint_acc_step d : forall (acc : positive) (a : N),
  a = N.pos acc ->
  forall len,
    span_digits 10 a len
      (list_ascii_of_string (DecimalString.NilEmpty.string_of_uint d))
    = (N.pos (Pos.of_uint_acc d acc), (len + Decimal.nb_digits d)%nat, []).
Proof.
  induction d; intros acc a Ha len;
    cbn [DecimalString.NilEmpty.string_of_uint list_ascii_of_string span_digits
         Pos.of_uint_acc Decimal.nb_digits];
    [rewrite Nat.add_0_r, Ha; reflexivity | ..];
    digit_value; cbv iota;
    (erewrite IHd; [f_equal; f_equal; lia | subst a; cbn; f_equal; lia]).
Qed.

Lemma span_digits_uint d : forall len,
  span_digits 10 0 len
    (list_ascii_of_string (DecimalString.NilEmpty.string_of_uint d))
  = (Pos.of_uint d, (len + Decimal.nb_digits d)%nat, []).
Proof.
  induction d; intros len;
    cbn [DecimalString.NilEmpty.string_of_uint list_ascii_of_string span_digits
         Pos.of_uint Decimal.nb_digits];
    [rewrite Nat.add_0_r; reflexivity | ..];
    digit_value; cbv iota;
    [change (0 * 10 + 0)%N with 0%N; rewrite IHd; f_equal; f_equal; lia | ..];
    (erewrite of_uint_acc_step; [f_equal; f_equal; lia | reflexivity]).
Qed.

Lemma digits_of_uint d :
  forallb is_digit (list_ascii_of_string (DecimalString.NilEmpty.string_of_uint d)) = true.
Proof. induction d; cbn; [reflexivity | exact IHd ..]. Qed.

Lemma numeral_text n :
  exists c rest,
    list_ascii_of_string (numeral n) = c :: rest
    /\ forallb is_digit (c :: rest) = true
    /\ span_digits 10 0 0 (c :: rest) = (n, length (c :: rest), []).
Proof.
  unfold numeral.
  assert (G : forall d, d <> Decimal.Nil ->
            exists c rest,
              list_ascii_of_string (DecimalString.NilEmpty.string_of_uint d) = c :: rest
              /\ forallb is_digit (c :: rest) = true
              /\ span_digits 10 0 0 (c :: rest)
                 = (Pos.of_uint d, length (c :: rest), [])).
  { intros d Hd. pose proof (digits_of_uint d) as Hdig.
    pose proof (span_digits_uint d 0) as Hspan.
    assert (Hlen : length (list_ascii_of_string (DecimalString.NilEmpty.string_of_uint d))
                   = Decimal.nb_digits d).
    { clear. induction d; cbn; [reflexivity | f_equal; exact IHd ..]. }
    destruct (list_ascii_of_string (DecimalString.NilEmpty.string_of_uint d)) as [|c rest] eqn:E.
    - destruct d; try congruence; discriminate.
    - exists c, rest. split; [reflexivity|]. split; [exact Hdig|].
      rewrite Hspan, <- Hlen. reflexivity. }
  pose proof (DecimalN.Unsigned.of_to n) as Hn. unfold N.of_uint in Hn.
  destruct (N.to_uint n) as [|d|d|d|d|d|d|d|d|d|d] eqn:E.
  - cbn in Hn. subst n. exists "0"%char, []. repeat split.
  - rewrite <- Hn. apply (G (Decimal.D0 d)). discriminate.
  - rewrite <- Hn. apply (G (Decimal.D1 d)). discriminate.
  - rewrite <- Hn. apply (G (Decimal.D2 d)). discriminate.
  - rewrite <- Hn. apply (G (Decimal.D3 d)). discriminate.
  - rewrite <- Hn. apply (G (Decimal.D4 d)). discriminate.
  - rewrite <- Hn. apply (G (Decimal.D5 d)). discriminate.
  - rewrite <- Hn. apply (G (Decimal.D6 d)). discriminate.
  - rewrite <- Hn. apply (G (Decimal.D7 d)). discriminate.
  - rewrite <- Hn. apply (G (Decimal.D8 d)). discriminate.
  - rewrite <- Hn. apply (G (Decimal.D9 d)). discriminate.
Qed.

Lemma is_digit_code c : is_digit c = true -> (48 <= code c <= 57)%N.
Proof.
  unfold is_digit. intros H. apply andb_true_iff in H as [H1 H2].
  apply N.leb_le in H1, H2. split; assumption.
Qed.

Lemma digit_not_ws c : is_digit c = true -> is_ws c = false.
Proof.
  intros H. apply is_digit_code in H. unfold is_ws. cbv zeta.
  rewrite (proj2 (N.leb_gt (code c) 13)) by lia.
  rewrite (proj2 (N.eqb_neq (code c) 32)) by lia.
  rewrite (proj2 (N.eqb_neq (code c) 160)) by lia.
  rewrite andb_false_r. reflexivity.
Qed.

Lemma trim_start_digits l : forallb is_digit l = true -> trim_start l = l.
Proof.
  destruct l as [|c l]; [reflexivity|]. cbn [forallb trim_start]. intros H.
  apply andb_true_iff in H as [H _]. rewrite (digit_not_ws c H). reflexivity.
Qed.

Lemma trim_digits l : forallb is_digit l = true -> trim l = l.
Proof.
  intros H. unfold trim. rewrite (trim_start_digits l H).
  rewrite trim_start_digits; [apply rev_involutive|].
  rewrite forallb_forall in *. intros c Hc. apply H. apply in_rev. exact Hc.
Qed.

Lemma radix_literal_digits t : forallb is_digit t = true -> radix_literal t = None.
Proof.
  destruct t as [|z [|x r]]; try reflexivity. cbn [forallb radix_literal]. intros H.
  apply andb_true_iff in H as [_ H]. apply andb_true_iff in H as [H _].
  apply is_digit_code in H.
  destruct (code z =? 48)%N; [|reflexivity].
  rewrite (proj2 (N.eqb_neq (code x) 120)) by lia.
  rewrite (proj2 (N.eqb_neq (code x) 88)) by lia.
  rewrite (proj2 (N.eqb_neq (code x) 111)) by lia.
  rewrite (proj2 (N.eqb_neq (code x) 79)) by lia.
  rewrite (proj2 (N.eqb_neq (code x) 98)) by lia.
  rewrite (proj2 (N.eqb_neq (code x) 66)) by lia.
  reflexivity.
Qed.

Lemma Number_numeral n : Number (numeral n) = round64 (inject_Z (Z.of_N n)).
Proof.
  destruct (numeral_text n) as (c & rest & Htext & Hdig & Hspan).
  unfold Number. rewrite Htext, (trim_digits _ Hdig), (radix_literal_digits _ Hdig).
  pose proof Hdig as Hc. cbn [forallb] in Hc. apply andb_true_iff in Hc as [Hc _].
  apply is_digit_code in Hc.
  unfold signed_decimal.
  rewrite (proj2 (N.eqb_neq (code c) 45)) by lia.
  rewrite (proj2 (N.eqb_neq (code c) 43)) by lia.
  destruct (decide (c :: rest = infinity_text)) as [E | _].
  { exfalso. injection E as -> _. cbn [forallb] in Hdig.
    apply andb_true_iff in Hdig as [Hd _]. vm_compute in Hd. discriminate. }
  unfold unsigned_decimal. rewrite Hspan. cbn [length Nat.add exponent_part].
  unfold scale10. cbn [Z.of_nat Z.sub Z.opp Z.add Z.leb Z.compare Z.pow Z.pow_pos Pos.iter].
  rewrite Z.mul_1_r. reflexivity.
Qed.

Lemma whole_small n : (n <= 2 ^ 53)%N -> (- 2 ^ 53 <= Z.of_N n <= 2 ^ 53)%Z.
Proof. intros H. change (2 ^ 53)%Z with (Z.of_N (2 ^ 53)). lia. Qed.

Lemma strip_separators_digits s :
  forallb is_digit (list_ascii_of_string s) = true -> strip_separators s = s.
Proof.
  intros H. unfold strip_separators.
  rewrite <- (string_of_list_ascii_of_string s) at 2. f_equal.
  induction (list_ascii_of_string s) as [|c l IH]; [reflexivity|].
  cbn [forallb] in H. apply andb_true_iff in H as [Hc Hl]. cbn [List.filter].
  apply is_digit_code in Hc.
  rewrite (proj2 (N.eqb_neq (code c) 44)) by lia.
  rewrite (proj2 (N.eqb_neq (code c) 32)) by lia.
  cbn [orb negb]. f_equal. apply IH. exact Hl.
Qed.

Lemma digits_numeral n : forallb is_digit (list_ascii_of_string (numeral n)) = true.
Proof.
  destruct (numeral_text n) as (c & rest & Htext & Hdig & _). rewrite Htext. exact Hdig.
Qed.

(** X22: the coercers read the decimal numeral of a natural number [n]
    as the double nearest to [n] (ties to the even one).  Up to [2^53]
    that is [n] itself: [Number], [toNumber], [toNumberStrict] with any
    fallback and [toNumberOrZero] return it, the last one also when
    commas and spaces are put anywhere into the numeral.  Below
    [2^1024 - 2^970] it is a finite double within [n * 2^-53] of [n],
    which all of them return.  From [2^1024 - 2^970] on [Number] gives
    [Infinity]: [toNumber] gives [undefined], [toNumberStrict] the
    fallback and [toNumberOrZero] 0. *)
Theorem coercers_read_numerals (n : N) :
  let q := inject_Z (Z.of_N n) in
  Number (numeral n) = round64 q
  /\ (forall s, strip_separators s = numeral n ->
        toNumberOrZero (OfString s) = toNumberOrZero (OfString (numeral n)))
  /\ ((n <= 2 ^ 53)%N ->
        Number (numeral n) = Fin q
        /\ toNumber (OfString (numeral n)) = Some (Fin q)
        /\ (forall fallback, toNumberStrict (OfString (numeral n)) fallback = Fin q)
        /\ toNumberOrZero (OfString (numeral n)) = Fin q)
  /\ ((q < overflow_bound)%Q ->
        exists r,
          Number (numeral n) = Fin r
          /\ (q * (1 - exp2 (-53)) <= r /\ r <= q * (1 + exp2 (-53)))%Q
          /\ toNumber (OfString (numeral n)) = Some (Fin r)
          /\ (forall fallback, toNumberStrict (OfString (numeral n)) fallback = Fin r)
          /\ toNumberOrZero (OfString (numeral n)) = Fin r)
  /\ ((overflow_bound <= q)%Q ->
        Number (numeral n) = PInf
        /\ toNumber (OfString (numeral n)) = None
        /\ (forall fallback, toNumberStrict (OfString (numeral n)) fallback = fallback)
        /\ toNumberOrZero (OfString (numeral n)) = Fin 0).
Proof.
  cbv zeta. pose proof (Number_numeral n) as HN.
  assert (HO : toNumberOrZero (OfString (numeral n)) = or_zero (Number (numeral n))).
  { rewrite toNumberOrZero_string, (strip_separators_digits _ (digits_numeral n)).
    reflexivity. }
  assert (HF : forall r, Number (numeral n) = Fin r ->
            toNumber (OfString (numeral n)) = Some (Fin r)
            /\ (forall fallback, toNumberStrict (OfString (numeral n)) fallback = Fin r)
            /\ toNumberOrZero (OfString (numeral n)) = Fin r).
  { intros r Hr. rewrite HO. unfold toNumberStrict. cbn [toNumber]. rewrite Hr.
    repeat split. }
  split; [exact HN|]. split; [|split; [|split]].
  - intros s Hs. rewrite HO, toNumberOrZero_string, Hs. reflexivity.
  - intros Hn. rewrite HN in *. rewrite (round64_whole _ (whole_small n Hn)) in *.
    split; [reflexivity|]. apply HF. reflexivity.
  - intros Hq.
    assert (0 <= inject_Z (Z.of_N n))%Q as H0.
    { change 0%Q with (inject_Z 0). rewrite <- Zle_Qle. lia. }
    pose proof overflow_bound_pos as Po.
    destruct (round64_finite (inject_Z (Z.of_N n)) ltac:(lra) Hq) as (r & Er & _).
    exists r. rewrite HN in *. split; [exact Er|]. split; [|apply HF; exact Er].
    destruct (N.eq_dec n 0%N) as [-> | Hpos].
    + cbn in Er. injection Er as <-. split; vm_compute; discriminate.
    + assert (exp2 (-1022) <= inject_Z (Z.of_N n))%Q as H1.
      { apply Qle_trans with 1%Q; [vm_compute; discriminate|].
        change 1%Q with (inject_Z 1). rewrite <- Zle_Qle. lia. }
      destruct (round64_relative _ _ H1 Er). split; assumption.
  - intros Hq. rewrite HO. unfold toNumberStrict. cbn [toNumber].
    rewrite HN, (round64_PInf _ Hq). repeat split.
Qed.

(** Numerals beyond [2^53] and beyond the largest double. *)
Example Number_rounds :
  Number "9007199254740993" = Fin 9007199254740992
  /\ Number "9007199254740995" = Fin 9007199254740996
  /\ toNumber (OfString "9007199254740993") = Some (Fin 9007199254740992)
  /\ Number "0.1" = Fin (3602879701896397 # 36028797018963968)
  /\ Number "1e400" = PInf
  /\ toNumber (OfString "1e400") = None
  /\ toNumberOrZero (OfString "1e400") = Fin 0
  /\ Number "1e-400" = Fin 0.
Proof. repeat split; vm_compute; reflexivity. Qed.

End Numerals.
